(** * No Thanks! on a spreadsheet: the game engine of [code.gs.js]

    [src/code.gs.js] holds six revisions of one Apps Script file, one after
    the other, and [src/unnamed/part_000] a seventh.  This development embeds
    the game logic of the revision that calls itself "nothanks_gs, v1.0"
    ([src/code.gs.js], lines 2119-3158); line numbers without a file name are
    lines of [src/code.gs.js].  Where an older revision words a function of
    the deck or of the shuffle differently, the older text is embedded next
    to it, in a module named after the revision:

    - [Rev1]: the revision at lines 1-525;
    - [Rev2]: the revision at lines 526-836;
    - [Rev4]: the revision at lines 1261-2118.

    What is modelled: the persisted deck, the card cell, the token box, the
    active-player marker, the name column, the token column and the card rows
    of the players; the dialogs that ask, through the answers the user
    gives; the colours of a card, the font size and the text of the token
    box; the scores and ranks of [renderFinalScore].  What is left out:
    borders, alignments and number formats, hotspot images, dialogs that only
    inform, and the user lock taken by [singleEntry].

    Numbers: cards, counts and indices are integers ([Z]); the engine holds
    them in doubles, which are exact up to [2^53].  Where the engine rounds
    within reach of the game the model rounds with it ([double], to the
    nearest, ties to even): the product of [randInt], and the [num - 1] of
    [groupConsecutiveRuns].  What [Math.random()] returns is an argument of
    the model, a double [u] with [0 <= u < 1]. *)

From Stdlib Require Import ZArith QArith Qround Qabs Qpower Lia Lqa.
From stdpp Require Import base tactics option list list_numbers sorting strings.

Local Open Scope Z_scope.
Local Set Warnings "-clear-no-such-hyp".

(** ** Constants of the game (lines 2127-2172) *)

Record options := {
  REMOVE_TENS : bool;
  PICK_START_PLAYER : bool;
  AUTO_REVEAL_NEXT_CARD : bool;
}.

(** The values the file ships with. *)
Definition OPTIONS : options :=
  {| REMOVE_TENS := false;
     PICK_START_PLAYER := false;
     AUTO_REVEAL_NEXT_CARD := false |}.

Definition MAX_PLAYER_COUNT : Z := 7.
Definition MIN_CARD : Z := 3.
Definition MAX_CARD : Z := 35.
Definition SETUP_CARDS_REMOVED : Z := 9.

(** ** Numbers of the engine

    A JS number is an IEEE 754 double: 53 significant bits, the last bit of
    the least numbers worth [2^-1074], results rounded to the nearest double
    and, of two that are as near, to the one whose last bit is 0.  Numbers
    beyond the largest double are not modelled. *)

(** [2^k] for an integer [k] of either sign. *)
Definition pow2 (k : Z) : Q := (2 ^ k)%Q.

(** For [q > 0], the exponent [e] with [2^e <= q < 2^(e+1)]. *)
Definition binade (q : Q) : Z :=
  let e := Z.log2 (Qnum q) - Z.log2 (Z.pos (Qden q)) in
  if Qle_bool (pow2 e) q then e else e - 1.

(** The integer nearest to [x]; of two that are as near, the even one. *)
Definition roundHalfEven (x : Q) : Z :=
  let f := Qfloor x in
  match (x - inject_Z f ?= 1 # 2)%Q with
  | Lt => f
  | Gt => f + 1
  | Eq => if Z.even f then f else f + 1
  end.

(** The exponent of the last bit of the doubles around [q]. *)
Definition ulpExponent (q : Q) : Z := Z.max (binade (Qabs q) - 52) (-1074).

(** The double nearest to [q]: what an arithmetic operation of the engine
    returns when its exact result is [q]. *)
Definition double (q : Q) : Q :=
  (inject_Z (roundHalfEven (q / pow2 (ulpExponent q))) * pow2 (ulpExponent q))%Q.

(** [num - 1] for a number that holds the integer [num]. *)
Definition minusOne (num : Z) : Z := Qfloor (double (inject_Z (num - 1))).

(** ** Generic JS helpers (lines 3128-3158) *)

(** [xrange(a, b)] with both arguments given: [a, a+1, ..., b-1]. *)
Definition xrange (a b : Z) : list Z := seqZ a (b - a).

(** [Math.random()] returns a double [u] with [0 <= u < 1]. *)
Definition unit_interval (u : Q) : Prop :=
  (0 <= u)%Q ∧ (u < 1)%Q ∧ (double u == u)%Q.

(** A source of random numbers: [rnd k] is what the [k]-th call of
    [Math.random()] returns. *)
Definition all_unit (rnd : nat → Q) : Prop := ∀ k, unit_interval (rnd k).

(** [randInt(a, b)]: [b == null] is [None].  The product is a product of
    doubles.  [max - min + 1] and the sum with [min] are taken exactly, as
    the script takes them while the numbers stay within [2^53]; the counts
    and indices the script passes are far below. *)
Definition randInt (u : Q) (a : Z) (b : option Z) : Z :=
  let min := match b with None => 0 | Some _ => a end in
  let max := match b with None => a | Some b' => b' end in
  min + Qfloor (double (u * inject_Z (max - min + 1))).

(** [array[i]] for an integer [i]: [undefined] (here [None]) outside the
    array. *)
Definition js_index {A} (l : list A) (i : Z) : option A :=
  if i <? 0 then None else l !! Z.to_nat i.

(** [array.splice(start, 1)], for its effect on the array: a negative start
    counts from the end, a start past the end removes nothing. *)
Definition splice1 {A} (start : Z) (l : list A) : list A :=
  let len := Z.of_nat (length l) in
  let actual := if start <? 0 then Z.max (len + start) 0 else Z.min start len in
  delete (Z.to_nat actual) l.

(** ** Deck engine (lines 2418-2447) *)

Record drawn := { card : option Z; remainingDeck : list Z }.

(** [drawCard], lines 2418-2429.  The same text stands at lines 142-153,
    952-963, 1507-1518, 3316-3327 and in [src/unnamed/part_000] at 252-263. *)
Definition drawCard (u : Q) (deck : list Z) : drawn :=
  let randIndex := randInt u (Z.of_nat (length deck) - 1) None in
  let card := js_index deck randIndex in
  {| card := card; remainingDeck := splice1 randIndex deck |}.

(** The loop [deck = drawCard(deck).remainingDeck], run [n] times with the
    [drawCard] of the revision at hand; the [k]-th call of [Math.random()]
    since the start of [newDeck] returns [rnd k]. *)
Fixpoint removeCards (draw : Q → list Z → drawn)
    (n : nat) (k : nat) (rnd : nat → Q) (deck : list Z) : list Z :=
  match n with
  | O => deck
  | S n' => removeCards draw n' (S k) rnd (remainingDeck (draw (rnd k) deck))
  end.

(** [newDeck], lines 2431-2447. *)
Definition newDeck (opts : options) (rnd : nat → Q) : list Z :=
  let deck := xrange MIN_CARD (MAX_CARD + 1) in
  let deck' :=
    if REMOVE_TENS opts then filter (λ card, Z.rem card 10 ≠ 0) deck else deck in
  let cardsRemoved :=
    if REMOVE_TENS opts
    then MAX_CARD - MIN_CARD + 1 - Z.of_nat (length deck') else 0 in
  removeCards drawCard (Z.to_nat (SETUP_CARDS_REMOVED - cardsRemoved)) 0%nat rnd deck'.

(** How many times [newDeck] calls [Math.random()]. *)
Definition newDeck_draws (opts : options) : nat :=
  if REMOVE_TENS opts then 6%nat else 9%nat.

(** ** The player-order shuffle (lines 3145-3154) *)

(** A JS array that may hold [undefined]: an element is [None] when it is
    [undefined] or a hole. *)
Abbreviation js_array A := (list (option A)).

Definition js_get {A} (array : js_array A) (i : Z) : option A :=
  if i <? 0 then None else mjoin (array !! Z.to_nat i).

(** [array[i] = v]: inside the array the element is replaced, past its end
    the array grows (with holes up to [i]), and a negative [i] sets a
    property that is not an element. *)
Definition js_set {A} (i : Z) (v : option A) (array : js_array A) : js_array A :=
  if i <? 0 then array
  else
    let n := Z.to_nat i in
    if (n <? length array)%nat then <[n := v]> array
    else array ++ replicate (n - length array) None ++ [v].

(** One round of the loop of [shuffle], at index [i]. *)
Definition swapWithRandom {A} (u : Q) (i : Z) (array : js_array A) : js_array A :=
  let randomIndex := randInt u i None in
  let temporaryValue := js_get array i in
  let array1 := js_set i (js_get array randomIndex) array in
  js_set randomIndex temporaryValue array1.

(** [for (let i = array.length - 1; i > 0; i--)]: [shuffle_from i k] runs the
    rounds [i, i-1, ..., 1]; the round at [i] is the [k]-th to call
    [Math.random()]. *)
Fixpoint shuffle_from {A} (i : nat) (k : nat) (rnd : nat → Q)
    (array : js_array A) : js_array A :=
  match i with
  | O => array
  | S i' => shuffle_from i' (S k) rnd (swapWithRandom (rnd k) (Z.of_nat i) array)
  end.

(** [shuffle], lines 3145-3154; the same text in [src/unnamed/part_000],
    lines 917-926. *)
Definition shuffle {A} (rnd : nat → Q) (array : js_array A) : js_array A :=
  shuffle_from (length array - 1) 0 rnd array.

(** ** Runs of consecutive cards (lines 2704-2729) *)

(** [numbers.slice().sort(intComparator)] with [intComparator(a, b) = a - b]
    (line 3156): the numbers in ascending order. *)
Definition sortNumbers (numbers : list Z) : list Z := merge_sort Z.le numbers.

(** The state of the generator between two rounds of its loop: the runs
    yielded so far and [currentRun]. *)
Record runs_state := { yielded : list (list Z); currentRun : list Z }.

(** The body of [for (let num of sorted)]; [num - 1] is a double. *)
Definition groupStep (st : runs_state) (num : Z) : runs_state :=
  if bool_decide (0 < length (currentRun st))%nat
     && bool_decide (last (currentRun st) ≠ Some (minusOne num))
  then {| yielded := yielded st ++ [currentRun st]; currentRun := [num] |}
  else {| yielded := yielded st; currentRun := currentRun st ++ [num] |}.

(** [groupConsecutiveRuns], lines 2704-2729 (and [src/unnamed/part_000],
    lines 480-505, with the comparator written in place): the runs the
    generator yields, in order.  Every yielded array is a fresh one, so the
    caller may change it. *)
Definition groupConsecutiveRuns (numbers : list Z) : list (list Z) :=
  let sorted := sortNumbers numbers in
  let st := foldl groupStep {| yielded := []; currentRun := [] |} sorted in
  if bool_decide (0 < length (currentRun st))%nat
  then yielded st ++ [currentRun st]
  else yielded st.

(** The value the generator returns when it is exhausted: [totalRuns]. *)
Definition totalRuns (numbers : list Z) : nat :=
  length (groupConsecutiveRuns numbers).

(** ** The sheet and the document properties *)

(** The texts the script shows in the token box (lines 2197-2202). *)
Inductive message := MSG_REVEAL | MSG_TURN | MSG_END_GAME.

(** The cell at [LOCATION_A1.TOKENS]: blank, a message, or a row of [n >= 1]
    token signs. *)
Inductive token_box :=
| BoxBlank
| BoxMessage (m : message)
| BoxTokens (n : positive).

(** A cell of a player's card row: blank, a number (the first card of a run),
    or the text of a number (the other cards of a run are written with a
    leading single quote, so that the sheet does not sum them). *)
Inductive card_cell :=
| CellBlank
| CellNumber (n : Z)
| CellText (n : Z).

Global Instance card_cell_eq_dec : EqDecision card_cell.
Proof. solve_decision. Defined.

Record table := {
  (** document property "deck"; a deleted property is the empty list *)
  deckProperty : list Z;
  (** the number in the card at [LOCATION_A1.CARD], [None] when blank *)
  cardCell : option Z;
  tokenBox : token_box;
  (** the row, counted from the first player, that holds the marker *)
  markerRow : option Z;
  (** the name column, one cell per row; the empty string is a blank cell *)
  playerNames : list string;
  (** the token column; [None] is a cell in which [parseInt] finds no number
      (a blank cell, or a cell the script wrote NaN to) *)
  playerTokenCells : list (option Z);
  (** the card rows *)
  playerCardRows : list (list card_cell);
}.

Definition with_deckProperty (v : list Z) (s : table) : table :=
  {| deckProperty := v; cardCell := cardCell s; tokenBox := tokenBox s;
     markerRow := markerRow s; playerNames := playerNames s;
     playerTokenCells := playerTokenCells s; playerCardRows := playerCardRows s |}.
Definition with_cardCell (v : option Z) (s : table) : table :=
  {| deckProperty := deckProperty s; cardCell := v; tokenBox := tokenBox s;
     markerRow := markerRow s; playerNames := playerNames s;
     playerTokenCells := playerTokenCells s; playerCardRows := playerCardRows s |}.
Definition with_tokenBox (v : token_box) (s : table) : table :=
  {| deckProperty := deckProperty s; cardCell := cardCell s; tokenBox := v;
     markerRow := markerRow s; playerNames := playerNames s;
     playerTokenCells := playerTokenCells s; playerCardRows := playerCardRows s |}.
Definition with_markerRow (v : option Z) (s : table) : table :=
  {| deckProperty := deckProperty s; cardCell := cardCell s; tokenBox := tokenBox s;
     markerRow := v; playerNames := playerNames s;
     playerTokenCells := playerTokenCells s; playerCardRows := playerCardRows s |}.
Definition with_playerTokenCells (v : list (option Z)) (s : table) : table :=
  {| deckProperty := deckProperty s; cardCell := cardCell s; tokenBox := tokenBox s;
     markerRow := markerRow s; playerNames := playerNames s;
     playerTokenCells := v; playerCardRows := playerCardRows s |}.
Definition with_playerCardRows (v : list (list card_cell)) (s : table) : table :=
  {| deckProperty := deckProperty s; cardCell := cardCell s; tokenBox := tokenBox s;
     markerRow := markerRow s; playerNames := playerNames s;
     playerTokenCells := playerTokenCells s; playerCardRows := v |}.

(** ** Scripts: state and exceptions

    A [throw] does not roll anything back: the outcome keeps the table as it
    was when the exception left the script. *)

Inductive error :=
| CardStillOut (card : Z)          (* "The card '...' is still out, ..." *)
| NoMoreCards                      (* "No more cards in the deck!" *)
| NoCardToTake                     (* "No card revealed yet to take" *)
| NoCardRevealed                   (* "No card revealed yet!" *)
| NoTokensLeft (player : Z)        (* "... doesn't have any tokens left!" *)
| UnsupportedPlayerCount (n : Z)   (* "Unsupported player count ..." *)
| InvalidStartPlayer (v : option Z)(* "Invalid start player value: ..." *)
| NoColorDefined (cardVal : option Z) (* "No color defined for card value ..." *)
| HostError (what : string).       (* an exception of JS or of the sheet *)

Inductive outcome (A : Type) :=
| Done (a : A) (s : table)
| Thrown (e : error) (s : table).
Arguments Done {A} a s.
Arguments Thrown {A} e s.

Definition script (A : Type) : Type := table → outcome A.

Definition ret {A} (a : A) : script A := λ s, Done a s.
Definition bind {A B} (c : script A) (k : A → script B) : script B :=
  λ s, match c s with
       | Done a s' => k a s'
       | Thrown e s' => Thrown e s'
       end.
Definition throw {A} (e : error) : script A := λ s, Thrown e s.
(** A call of a function that only returns or throws. *)
Definition call {A} (r : error + A) : script A :=
  match r with inr a => ret a | inl e => throw e end.
Definition gets {A} (f : table → A) : script A := λ s, Done (f s) s.
Definition modify (f : table → table) : script unit := λ s, Done tt (f s).

Notation "'let*' x ':=' c 'in' k" := (bind c (λ x, k))
  (at level 10, x name, c at level 100, k at level 200).
Notation "c ';>' k" := (bind c (λ _, k))
  (at level 100, k at level 200, right associativity).

(** The table an outcome leaves behind. *)
Definition table_after {A} (o : outcome A) : table :=
  match o with Done _ s => s | Thrown _ s => s end.

(** ** Colours and sizes (lines 2613-2631, 3024-3075) *)

(** [cardNumberColor], lines 3024-3034; [None] is the [throw] of "No color
    defined for card value ...".  The third test starts at 15, as the source
    has it. *)
Definition cardNumberColor (cardVal : Z) : option string :=
  if bool_decide (3 ≤ cardVal ≤ 13) then Some "#0586ff"
  else if bool_decide (14 ≤ cardVal ≤ 24) then Some "#ff9d14"
  else if bool_decide (15 ≤ cardVal ≤ 35) then Some "#d11500"
  else None.

(** The array literal of [cardBorderColor]. *)
Definition BORDER_COLORS : list string :=
  [ "FFE541"; "FCF93D"; "E5F938"; "CBF734"; "B1F42F"; "96F12B"; "7BEF27";
    "5FEC22"; "43EA1E"; "27E71A"; "16E422"; "13E237"; "0FDF4C"; "0BDC61";
    "07DA77"; "04D78D"; "00D5A3"; "00D0B0"; "00CCBD"; "00C8C8"; "00B5C4";
    "00A2C0"; "0090BC"; "007FB8"; "006EB4"; "005EB0"; "004FAC"; "0040A8";
    "0031A4"; "0024A0"; "00179C"; "000A98"; "010094" ].

(** [cardBorderColor], lines 3036-3075: ["#" + array[cardVal - 3]]; outside
    the array the element is [undefined], which [+] writes out. *)
Definition cardBorderColor (cardVal : Z) : string :=
  "#" +:+ default "undefined" (js_index BORDER_COLORS (cardVal - 3)).

(** [Math.ceil(x / 2)] for an integer [x]. *)
Definition ceilHalf (x : Z) : Z := - ((- x) / 2).

(** The font size [setTokensInPool] gives the token box (lines 2613-2631):
    with no token the box shows the message of [setInstructionsMessage]
    (lines 2633-2638), in size 12. *)
Definition tokensFontSize (tokens : Z) : Z :=
  if bool_decide (tokens = 0) then 12
  else if bool_decide (tokens ≤ 24) then 39 - 3 * ceilHalf (Z.max 0 (tokens - 16))
  else if bool_decide (tokens ≤ 39) then 25
  else 21.

(** ** State management (lines 2536-2674) *)

(** [getDeck]: every caller treats [null] and the empty array alike. *)
Definition getDeck : script (list Z) := gets deckProperty.

(** [setDeck]: an empty deck deletes the property. *)
Definition setDeck (deck : list Z) : script unit := modify (with_deckProperty deck).

Definition getCurrentCard : script (option Z) := gets cardCell.

(** [setCurrentCard(cardVal)]: [null] and [undefined] clear the cell.  For
    a card, [renderCurrentCard] (lines 2821-2844) asks [cardNumberColor] for
    the colour of the number before it writes the number: a card without a
    colour throws and leaves the cell as it was. *)
Definition setCurrentCard (cardVal : option Z) : script unit :=
  match cardVal with
  | None => modify (with_cardCell None)
  | Some card =>
      match cardNumberColor card with
      | Some _ => modify (with_cardCell (Some card))
      | None => throw (NoColorDefined (Some card))
      end
  end.

Definition setInstructionsMessage (m : message) : script unit :=
  modify (with_tokenBox (BoxMessage m)).

(** [getTokensInPool]: [None] is [null]. *)
Definition getTokensInPool : script (option Z) :=
  gets (λ s, match tokenBox s with
             | BoxMessage MSG_TURN => Some 0
             | BoxTokens n => Some (Z.pos n)
             | _ => None
             end).

(** [setTokensInPool(tokens)]; [TOKEN_REPR.repeat] of a negative count throws
    a RangeError. *)
Definition setTokensInPool (tokens : Z) : script unit :=
  match tokens with
  | 0 => setInstructionsMessage MSG_TURN
  | Z.pos n => modify (with_tokenBox (BoxTokens n))
  | Z.neg _ => throw (HostError "RangeError: invalid count value")
  end.

(** [getActivePlayer]: the marker is searched in the first
    [MAX_PLAYER_COUNT] rows only; without a hit [findNext()] is [null]. *)
Definition getActivePlayer : script Z :=
  λ s, match markerRow s with
       | Some row =>
           if bool_decide (0 ≤ row < MAX_PLAYER_COUNT) then Done row s
           else Thrown (HostError "TypeError: no active player marker") s
       | None => Thrown (HostError "TypeError: no active player marker") s
       end.

Definition setActivePlayer (player : Z) : script unit :=
  modify (with_markerRow (Some player)).

(** [getPlayerCount]: the names, in the first [MAX_PLAYER_COUNT] rows, that
    are not empty. *)
Definition playerCount (s : table) : Z :=
  Z.of_nat (length (filter (λ name, name ≠ "")
                      (take (Z.to_nat MAX_PLAYER_COUNT) (playerNames s)))).

Definition getPlayerCount : script Z := gets playerCount.

(** The number in a player's token cell, [parseInt(cell.getValue(), 10)];
    [None] is NaN. *)
Definition readPlayerTokens (player : Z) : script (option Z) :=
  gets (λ s, js_get (playerTokenCells s) player).

(** [playerTokensCell.setValue(v)]; the cells above the first player's are
    not part of the model. *)
Definition writePlayerTokens (player : Z) (v : option Z) : script unit :=
  modify (λ s, with_playerTokenCells (js_set player v (playerTokenCells s)) s).

(** ** Hand engine (lines 2676-2702) *)

(** The number of columns of a card row that [addCardToPlayer] reads. *)
Definition CARD_ROW_WIDTH : nat := 24.

(** The value of a cell that is not blank: a number as it is, a text through
    [parseInt(card.match(/^'?([1-3]?\d)$/)[1], 10)].  The pattern matches the
    text of the numbers 0 to 39; elsewhere [match] is [null] and the index
    throws ([None]). *)
Definition cardValue (c : card_cell) : option Z :=
  match c with
  | CellBlank => None
  | CellNumber n => Some n
  | CellText n => if bool_decide (0 ≤ n ≤ 39) then Some n else None
  end.

(** The cells [renderPlayerCardRun] writes for one run. *)
Definition runCells (run : list Z) : list card_cell :=
  match run with
  | [] => [CellBlank]
  | firstCard :: restOfRun => CellNumber firstCard :: (CellText <$> restOfRun)
  end.

(** The card row of a player; a row the model does not hold is blank.  Rows
    above the first player's are not part of the model. *)
Definition cardRow (rows : list (list card_cell)) (player : Z) : list card_cell :=
  default [] (js_index rows player).

Definition setCardRow (player : Z) (row : list card_cell)
    (rows : list (list card_cell)) : list (list card_cell) :=
  if player <? 0 then rows
  else
    let n := Z.to_nat player in
    if (n <? length rows)%nat then <[n := row]> rows
    else rows ++ replicate (n - length rows) [] ++ [row].

(** The loop of [addCardToPlayer] over the runs (lines 2693-2701).
    [renderPlayerCardRun] (lines 2846-2866) asks [cardNumberColor] for the
    colour of the first card of a run before it writes the run, so the loop
    stops at the first run whose first card has no colour, with the runs
    before it written.  The result is the cells written and, when the loop
    stopped, the card it stopped at ([None] is the [undefined] that
    [shift()] returns on a run without a card). *)
Fixpoint renderRuns (runs : list (list Z)) : list card_cell * option (option Z) :=
  match runs with
  | [] => ([], None)
  | run :: rest =>
      match head run ≫= cardNumberColor with
      | Some _ =>
          let '(cells, stopped) := renderRuns rest in (runCells run ++ cells, stopped)
      | None => ([], Some (head run))
      end
  end.

(** [addCardToPlayer]: the runs are written one after the other from the
    first cell of the row; cells to the right of them are not touched.  When
    the loop stops at a card without a colour, the runs before it stay
    written and the rest of the row is as it was.  (For such a card
    [cardBorderColor] has given ["#undefined"] to [setBorder] one call
    earlier in the same statement; borders and colours are not part of the
    table, and the cells are the same whichever call stops the script.) *)
Definition addCardToPlayer (player : Z) (card : Z) : script unit :=
  λ s,
    let row := cardRow (playerCardRows s) player in
    let filled := filter (λ c, c ≠ CellBlank) (take CARD_ROW_WIDTH row) in
    match mapM cardValue filled with
    | None => Thrown (HostError "TypeError: card text does not match") s
    | Some values =>
        let currentCards := values ++ [card] in
        let '(written, stopped) := renderRuns (groupConsecutiveRuns currentCards) in
        let row' := written ++ drop (length written) row in
        let s' := with_playerCardRows (setCardRow player row' (playerCardRows s)) s in
        match stopped with
        | None => Done tt s'
        | Some cardVal => Thrown (NoColorDefined cardVal) s'
        end
    end.

(** ** Token economy (lines 2456-2532) *)

(** [tokensPerPlayer], lines 2519-2532: the function reads and writes
    nothing, it returns a number or throws. *)
Definition tokensPerPlayer (playerCount : Z) : error + Z :=
  match playerCount with
  | 3 | 4 | 5 => inr 11
  | 6 => inr 9
  | 7 => inr 7
  | _ => inl (UnsupportedPlayerCount playerCount)
  end.

(** [dealTokens], lines 2494-2510: the first [playerCount] cells of the token
    column receive the same number. *)
Definition dealTokens (playerCount : Z) : script unit :=
  let* tokens := call (tokensPerPlayer playerCount) in
  modify (λ s, with_playerTokenCells
                 (replicate (Z.to_nat playerCount) (Some tokens)
                  ++ drop (Z.to_nat playerCount) (playerTokenCells s)) s).

(** [takeTokensFromPool], lines 2456-2477; [null > 0] is false, and NaN plus
    a number is NaN. *)
Definition takeTokensFromPool (player : Z) : script unit :=
  let* pool := getTokensInPool in
  (if bool_decide (0 < default 0 pool)
   then
     let* current := readPlayerTokens player in
     writePlayerTokens player ((λ tokens, tokens + default 0 pool) <$> current)
   else ret tt) ;>
  setTokensInPool 0.

(** [addTokenToPool], lines 2479-2492; [NaN === 0] is false, and [null + 1]
    is 1. *)
Definition addTokenToPool (player : Z) : script unit :=
  let* current := readPlayerTokens player in
  if bool_decide (current = Some 0) then throw (NoTokensLeft player)
  else
    writePlayerTokens player ((λ tokens, tokens - 1) <$> current) ;>
    let* pool := getTokensInPool in
    setTokensInPool (default 0 pool + 1).

(** ** Turns (lines 2268-2351, 2371-2454) *)

(** [singleEntry(func)] runs [func] under the user lock; the lock is not part
    of the model. *)
Definition singleEntry {A} (func : script A) : script A := func.

(** [revealTopCardImpl], lines 2326-2351; [u] is what [Math.random()] returns
    in [drawCard]. *)
Definition revealTopCardImpl (u : Q) : script unit :=
  let* currentCard := getCurrentCard in
  match currentCard with
  | Some c => throw (CardStillOut c)
  | None =>
      let* deck := getDeck in
      if bool_decide (length deck = 0%nat) then throw NoMoreCards
      else
        let d := drawCard u deck in
        setCurrentCard (card d) ;>
        setDeck (remainingDeck d) ;>
        setTokensInPool 0
  end.

Definition revealTopCard (u : Q) : script unit :=
  singleEntry (revealTopCardImpl u).

(** [enableDeck], lines 2409-2416. *)
Definition enableDeck (opts : options) (u : Q) : script unit :=
  if AUTO_REVEAL_NEXT_CARD opts then revealTopCardImpl u
  else setInstructionsMessage MSG_REVEAL.

(** [advanceActivePlayer], lines 2449-2454.  With no player name on the
    sheet [%] gives NaN; [setActivePlayer(NaN)] clears the marker column and
    then asks the sheet for a range at row offset NaN, which the sheet is
    taken to refuse: the script stops there, with the marker cleared. *)
Definition advanceActivePlayer : script unit :=
  let* activePlayer := getActivePlayer in
  let* playerCount := getPlayerCount in
  if bool_decide (playerCount = 0) then
    modify (with_markerRow None) ;>
    throw (HostError "NaN as a row offset")
  else
    let nextPlayer := Z.rem (activePlayer + 1) playerCount in
    setActivePlayer nextPlayer.

(** [takeCard], lines 2274-2298; [u] is used when the next card is revealed
    at once. *)
Definition takeCard (opts : options) (u : Q) : script unit :=
  singleEntry (
    let* card := getCurrentCard in
    match card with
    | None => throw NoCardToTake
    | Some card =>
        setCurrentCard None ;>
        let* player := getActivePlayer in
        addCardToPlayer player card ;>
        takeTokensFromPool player ;>
        let* deck := getDeck in
        if bool_decide (0 < length deck)%nat then enableDeck opts u
        else setInstructionsMessage MSG_END_GAME
    end).

(** [noThanks], lines 2311-2322. *)
Definition noThanks : script unit :=
  singleEntry (
    let* currentCard := getCurrentCard in
    match currentCard with
    | None => throw NoCardRevealed
    | Some _ =>
        let* player := getActivePlayer in
        addTokenToPool player ;>
        advanceActivePlayer
    end).

(** What the user answers when asked for the starting player: a click on
    "No" (or closing the dialog), or "Yes" with a text; [Entered None] is a
    text that [parseInt] turns into NaN. *)
Inductive start_answer :=
| RandomPick
| Entered (n : option Z).

(** [setStartingPlayer], lines 2383-2407. *)
Definition setStartingPlayer (opts : options) (u : Q) (answer : start_answer)
    (players : list string) : script Z :=
  let random := ret (randInt u (Z.of_nat (length players) - 1) None) in
  if PICK_START_PLAYER opts then
    match answer with
    | Entered n =>
        let startPlayer := (λ n, n - 1) <$> n in
        match startPlayer with
        | Some p =>
            if bool_decide (0 ≤ p < Z.of_nat (length players)) then ret p
            else throw (InvalidStartPlayer startPlayer)
        | None => throw (InvalidStartPlayer None)
        end
    | RandomPick => random
    end
  else random.

(** How many times [setStartingPlayer] calls [Math.random()]. *)
Definition setStartingPlayer_draws (opts : options) (answer : start_answer) : nat :=
  if PICK_START_PLAYER opts then
    match answer with Entered _ => 0%nat | RandomPick => 1%nat end
  else 1%nat.

(** [newGame], lines 2371-2381; [rnd k] is what the [k]-th call of
    [Math.random()] returns. *)
Definition newGame (opts : options) (rnd : nat → Q) (answer : start_answer)
    (players : list string) : script unit :=
  setDeck (newDeck opts rnd) ;>
  dealTokens (Z.of_nat (length players)) ;>
  let* startPlayer :=
    setStartingPlayer opts (rnd (newDeck_draws opts)) answer players in
  setActivePlayer startPlayer ;>
  enableDeck opts (rnd (newDeck_draws opts + setStartingPlayer_draws opts answer)%nat).

(** The sheet [renderNewTable] leaves for [newGame] (lines 2770-2776,
    2868-2893): the names in the first rows, everything else blank.  The deck
    property belongs to the document, so it keeps the deck of the table
    before. *)
Definition renderNewTable (oldDeck : list Z) (players : list string) : table :=
  {| deckProperty := oldDeck;
     cardCell := None;
     tokenBox := BoxBlank;
     markerRow := None;
     playerNames :=
       players ++ replicate (Z.to_nat MAX_PLAYER_COUNT - length players) "";
     playerTokenCells := replicate (Z.to_nat MAX_PLAYER_COUNT) None;
     playerCardRows := replicate (Z.to_nat MAX_PLAYER_COUNT) [] |}.

(** ** Older wordings *)

(** [range(max, min = 0)] of the revisions before [xrange] (lines 519-521,
    830-832): [[...Array(max + 1).keys()].splice(min)].  [Array(n)] is an
    array for a length [n] from 0 to 2^32 - 1 and throws a RangeError for
    any other integer.  [splice(min)] returns what it removes, the keys from
    the start index on; a negative [min] counts from the end of the array,
    and a start before the first key is the first key. *)
Definition range (max min : Z) : error + list Z :=
  if bool_decide (0 ≤ max + 1 < 2 ^ 32) then
    let keys := seqZ 0 (max + 1) in
    let start :=
      if bool_decide (min < 0) then Z.max (Z.of_nat (length keys) + min) 0 else min in
    inr (drop (Z.to_nat start) keys)
  else inl (HostError "RangeError: Invalid array length").

(** [var deck = range(MAX_CARD, MIN_CARD)] in the [newDeck] of these
    revisions: the two arguments are constants, and the call returns an
    array (the branch of the exception is never taken). *)
Definition cardRange : list Z :=
  match range MAX_CARD MIN_CARD with
  | inr deck => deck
  | inl _ => []
  end.

Module Rev1.
(** [newDeck] as worded at lines 155-165 (and 965-975, 3329-3339), with the
    [drawCard] of lines 142-153. *)
Definition newDeck (rnd : nat → Q) : list Z :=
  removeCards drawCard (Z.to_nat SETUP_CARDS_REMOVED) 0%nat rnd cardRange.
End Rev1.

Module Rev2.
(** [drawCard], lines 614-625: the index comes from [randInt(deck.length)];
    [randInt(max, min = 0)] of lines 834-836 is [randInt] above with one
    argument. *)
Definition drawCard (u : Q) (deck : list Z) : drawn :=
  let randIndex := randInt u (Z.of_nat (length deck)) None in
  let card := js_index deck randIndex in
  {| card := card; remainingDeck := splice1 randIndex deck |}.

(** [newDeck], lines 627-637. *)
Definition newDeck (rnd : nat → Q) : list Z :=
  removeCards drawCard (Z.to_nat SETUP_CARDS_REMOVED) 0%nat rnd cardRange.
End Rev2.

Module Rev4.
(** [shuffle], lines 2109-2118: [for (let i = array.length; i > 0; i--)]
    swaps the element at [i - 1] with the one at [randInt(i - 1)]. *)
Fixpoint shuffle_from {A} (i : nat) (k : nat) (rnd : nat → Q)
    (array : js_array A) : js_array A :=
  match i with
  | O => array
  | S i' =>
      shuffle_from i' (S k) rnd (swapWithRandom (rnd k) (Z.of_nat i - 1) array)
  end.

Definition shuffle {A} (rnd : nat → Q) (array : js_array A) : js_array A :=
  shuffle_from (length array) 0 rnd array.
End Rev4.

(** ** Games *)

(** What a player can do once the table stands. *)
Inductive action :=
| Reveal (u : Q)
| Take (u : Q)
| Decline.

Definition perform (opts : options) (a : action) : script unit :=
  match a with
  | Reveal u => revealTopCard u
  | Take u => takeCard opts u
  | Decline => noThanks
  end.

(** The random number an action may consume is one [Math.random()] can
    return. *)
Definition action_random (a : action) : Prop :=
  match a with
  | Reveal u | Take u => unit_interval u
  | Decline => True
  end.

(** The tables of one game of [players] whose deck, after the setup
    removal, was [deck0]: the table [newGame] leaves on a fresh sheet, and
    every table one of the three actions leaves behind, whether the action
    went through or threw.  A click on "New Table" is not a step of the
    game: it starts another game or, when it throws, leaves this table with
    another deck ([session] below has these steps). *)
Inductive reachable (opts : options) (players : list string) (deck0 : list Z)
  : table → Prop :=
| reachable_newGame rnd answer oldDeck s :
    all_unit rnd →
    deck0 = newDeck opts rnd →
    newGame opts rnd answer players (renderNewTable oldDeck players) = Done tt s →
    reachable opts players deck0 s
| reachable_action s a :
    reachable opts players deck0 s →
    action_random a →
    reachable opts players deck0 (table_after (perform opts a s)).

(** The script counts as players the rows with a name ([getPlayerCount]);
    a table needs at least one. *)
Definition some_name (players : list string) : Prop :=
  Exists (λ name, name ≠ "") players.

(** The tokens the players hold and the tokens on the table. *)
Definition cellsSum (cells : list (option Z)) : Z :=
  foldr Z.add 0 (default 0 <$> cells).

Definition tokensHeld (s : table) : Z := cellsSum (playerTokenCells s).

Definition tablePool (s : table) : Z :=
  match getTokensInPool s with
  | Done pool _ => default 0 pool
  | Thrown _ _ => 0
  end.

(** The tokens [dealTokens] hands out to a table of [players]. *)
Definition totalTokensDealt (players : list string) : Z :=
  match tokensPerPlayer (Z.of_nat (length players)) with
  | inr tokens => Z.of_nat (length players) * tokens
  | inl _ => 0
  end.

(** The cards of a row and the cards in play. *)
Definition handCards (row : list card_cell) : list Z := omap cardValue row.


Definition rowsCards (rows : list (list card_cell)) : list Z :=
  concat (handCards <$> rows).

Definition cardsInPlay (s : table) : list Z :=
  deckProperty s ++ option_list (cardCell s) ++ rowsCards (playerCardRows s).



(** ** The quantities of the specification *)

(** A run: not empty, each card one more than the card before. *)
Fixpoint consecutive (run : list Z) : Prop :=
  match run with
  | [] => True
  | x :: rest =>
      match rest with
      | [] => True
      | y :: _ => y = x + 1 ∧ consecutive rest
      end
  end.

Definition is_run (run : list Z) : Prop := run ≠ [] ∧ consecutive run.

(** Between the runs [r1] and [r2] there is a gap: the first card of [r2] is
    not the card after the last of [r1]. *)
Definition gap (r1 r2 : list Z) : Prop :=
  ∀ x y, last r1 = Some x → head r2 = Some y → y ≠ x + 1.

(** No run can be joined with the run that follows it. *)
Fixpoint not_mergeable (runs : list (list Z)) : Prop :=
  match runs with
  | [] => True
  | r1 :: rest =>
      match rest with
      | [] => True
      | r2 :: _ => gap r1 r2 ∧ not_mergeable rest
      end
  end.

(** ** Predicates of the proofs *)

(** A number from which the engine takes one exactly. *)
Definition exact_before (num : Z) : Prop := minusOne num = num - 1.

(** What holds between two rounds of the loop of [groupConsecutiveRuns]. *)
Record runs_inv (st : runs_state) : Prop := {
  inv_first : currentRun st = [] → yielded st = [];
  inv_yielded : Forall is_run (yielded st);
  inv_current : consecutive (currentRun st);
  inv_gaps : not_mergeable (yielded st ++ [currentRun st]);
}.

(** A cell that holds a card the script can read back. *)
Definition cell_filled (c : card_cell) : Prop := is_Some (cardValue c).

(** A card whose text the pattern of [addCardToPlayer] matches. *)
Definition card_text_ok (v : Z) : Prop := 0 ≤ v ≤ 39.

(** A script leaves a field of the table as it was, also when it throws. *)
Definition preserves {A B} (field : table → B) (c : script A) : Prop :=
  ∀ s, field (table_after (c s)) = field s.

(** What every table of a game of [players] with the deck [deck0] satisfies. *)
Record game_inv (players : list string) (deck0 : list Z) (s : table) : Prop := {
  gi_cards : cardsInPlay s ≡ₚ deck0;
  gi_rows : Forall (Forall cell_filled) (playerCardRows s);
  gi_rows_length : length (playerCardRows s) = Z.to_nat MAX_PLAYER_COUNT;
  gi_tokens : tokensHeld s + tablePool s = totalTokensDealt players;
  gi_cells : ∀ i, (i < length players)%nat →
             ∃ z, playerTokenCells s !! i = Some (Some z);
  gi_marker : ∃ p, markerRow s = Some p ∧ 0 ≤ p < Z.of_nat (length players);
  gi_names : playerNames s
             = players ++ replicate (Z.to_nat MAX_PLAYER_COUNT - length players) "";
  gi_pool : cardCell s = None → tablePool s = 0;
}.

(** [dealTokens] goes through and every one of the [n] players has [tokens]. *)
Definition deals (n : Z) (s : table) (tokens : Z) : Prop :=
  ∃ s', dealTokens n s = Done tt s'
        ∧ ∀ i, 0 ≤ i < n → js_get (playerTokenCells s') i = Some tokens.

(** ** A table to try things on *)

Definition example_players : list string := ["Ann"; "Bob"; "Cy"; "Di"].

Definition example_rnd : nat → Q := λ _, (1 # 2)%Q.

(** The table after [newGame]; the random start player is player 2. *)
Definition example_table : table :=
  table_after (newGame OPTIONS example_rnd RandomPick example_players
                 (renderNewTable [] example_players)).

(** The same table with a card revealed. *)
Definition example_revealed : table :=
  table_after (revealTopCard (1 # 2)%Q example_table).

(** The table after player 2 has declined, and after player 3 has declined
    as well. *)
Definition example_declined : table := table_after (noThanks example_revealed).


(** The table with the card revealed, if no player had a token left. *)
Definition example_broke : table :=
  with_playerTokenCells (replicate 7 (Some 0)) example_revealed.

(** The table after the player at the marker has revealed and taken [n]
    cards, one after the other. *)
Fixpoint example_taken (n : nat) : table :=
  match n with
  | O => example_table
  | S n' =>
      table_after (takeCard OPTIONS (1 # 2)
                     (table_after (revealTopCard (1 # 2) (example_taken n'))))
  end.

(** The table at the end of a game: player 2 took 23 cards and declined
    the last one, which player 3 took. *)
Definition example_finished : table :=
  table_after (takeCard OPTIONS (1 # 2)
                 (table_after (noThanks
                    (table_after (revealTopCard (1 # 2) (example_taken 23)))))).

(** ** The text of the token box (lines 2177, 2197-2202, 2593-2631)

    The table above keeps what the token box means; this is what the cell
    holds, and how [getTokensInPool] reads it. *)

Definition TOKEN_REPR : string := "🌑".

(** The constants [MSG_REVEAL], [MSG_TURN] and [MSG_END_GAME]. *)
Definition messageText (m : message) : string :=
  match m with
  | MSG_REVEAL => "Click DECK to reveal next card"
  | MSG_TURN => "Click the CARD to take it and add it to your table
OR
Click HERE to pay 1🌑 to skip your turn"
  | MSG_END_GAME => "Game Over!
Click HERE to reveal the final score"
  end.

(** [s.repeat(n)]. *)
Fixpoint repeatString (s : string) (n : nat) : string :=
  match n with
  | O => ""
  | S n' => s +:+ repeatString s n'
  end.

(** The value [setInstructionsMessage] and [setTokensInPool] leave in the
    cell. *)
Definition boxText (box : token_box) : string :=
  match box with
  | BoxBlank => ""
  | BoxMessage m => messageText m
  | BoxTokens n => repeatString TOKEN_REPR (Pos.to_nat n)
  end.

(** [text] without the prefix [prefix], when it starts with it. *)
Fixpoint stripPrefix (prefix text : string) : option string :=
  match prefix, text with
  | EmptyString, _ => Some text
  | String a prefix', String b text' =>
      if decide (a = b) then stripPrefix prefix' text' else None
  | String _ _, EmptyString => None
  end.

(** Whether [text] is [unit] written one or more times; every round takes
    a copy of [unit] off the front, and [fuel] bounds the rounds. *)
Fixpoint copiesOf (fuel : nat) (unit text : string) : bool :=
  match fuel with
  | O => false
  | S fuel' =>
      match stripPrefix unit text with
      | Some EmptyString => true
      | Some rest => copiesOf fuel' unit rest
      | None => false
      end
  end.

(** [tokenStr.match(new RegExp(`^${TOKEN_REPR}+$`, "gu"))] as a truth value:
    with the flag [u] the sign is one character, and the pattern matches the
    texts that are the sign one or more times. *)
Definition matchesTokens (tokenStr : string) : bool :=
  copiesOf (String.length tokenStr) TOKEN_REPR tokenStr.

(** [getTokensInPool] on the text of the cell (lines 2593-2611);
    [getCellValue] is [null] for a blank cell.  Lengths are counted in the
    bytes of the text here and in UTF-16 units in the engine; the quotient
    of the two lengths is the same. *)
Definition tokensInText (cellText : string) : option Z :=
  if decide (cellText = "") then None
  else if decide (cellText = messageText MSG_TURN) then Some 0
  else if matchesTokens cellText
  then Some (Z.of_nat (String.length cellText) / Z.of_nat (String.length TOKEN_REPR))
  else None.

(** ** Setting a table up (lines 2226-2266, 2353-2369, 2752-2766,
    2999-3022) *)

(** The buttons of a dialog. *)
Inductive button := ButtonOK | ButtonYES | ButtonNO | ButtonCLOSE.

Global Instance button_eq_dec : EqDecision button.
Proof. solve_decision. Defined.

(** What [ui.prompt] returns. *)
Record prompt_response := { selectedButton : button; responseText : string }.

(** The loop of [getNewPlayersFromUser] over the player numbers [indices];
    [ask i] is what the user answers when asked for player [i]. *)
Fixpoint promptPlayers (ask : Z → prompt_response) (indices : list Z)
    (players : list string) : list string :=
  match indices with
  | [] => players
  | i :: rest =>
      let response := ask i in
      if decide (selectedButton response = ButtonNO) then players
      else promptPlayers ask rest (players ++ [responseText response])
  end.

(** What setting a table up can throw. *)
Inductive setup_error :=
| UnsupportedTable        (* "We only support between 3 to 7 players" *)
| NoRowsToRender          (* the sheet refuses a range of no rows *)
| GameError (e : error).  (* what [newGame] throws *)

(** [getNewPlayersFromUser], lines 2999-3022. *)
Definition getNewPlayersFromUser (ask : Z → prompt_response)
    : setup_error + list string :=
  let players := promptPlayers ask (xrange 1 (MAX_PLAYER_COUNT + 1)) [] in
  if bool_decide (length players < 3 ∨ 7 < length players)%nat
  then inl UnsupportedTable
  else inr players.

(** [getPlayersFromPreviousTable], lines 2752-2766; [previousSheet] is the
    sheet named "Table", when there is one.  The names of the model are
    texts, for which the [!=] of this function and the [!==] of
    [getPlayerCount] agree; a name the sheet kept as the number 0 would be
    blank for [!=] and not for [!==]. *)
Definition getPlayersFromPreviousTable (previousSheet : option table)
    : option (list string) :=
  (λ sheet, filter (λ name, name ≠ "")
              (take (Z.to_nat MAX_PLAYER_COUNT) (playerNames sheet)))
  <$> previousSheet.

(** [OPTIONS.SETUP.SHUFFLE_PLAYERS]: "yes", "no" or "ask". *)
Inductive shuffle_players := ShuffleYes | ShuffleNo | ShuffleAsk.

(** What the user answers while a table is set up. *)
Record setup_answers := {
  (** "Same Players?": Yes *)
  samePlayers : bool;
  (** the name prompts *)
  askName : Z → prompt_response;
  (** "Randomize player order?": Yes *)
  randomizeOrder : bool;
  (** "Choose starting player?" *)
  startAnswer : start_answer;
}.

(** [getPlayersForNewTable], lines 2353-2369: the user is asked about the
    players of the previous table only when there is one. *)
Definition getPlayersForNewTable (previousSheet : option table)
    (answers : setup_answers) : setup_error + list string :=
  match getPlayersFromPreviousTable previousSheet with
  | Some players =>
      if samePlayers answers then inr players
      else getNewPlayersFromUser (askName answers)
  | None => getNewPlayersFromUser (askName answers)
  end.

(** The test before [players = shuffle(players)] in [newTable]. *)
Definition shufflesPlayers (shufflePlayers : shuffle_players)
    (answers : setup_answers) : bool :=
  match shufflePlayers with
  | ShuffleYes => true
  | ShuffleNo => false
  | ShuffleAsk => randomizeOrder answers
  end.

(** The document: the sheet named "Table", when there is one, and the
    document property "deck".  The [deckProperty] of the sheet kept in
    [docTable] is not read: the deck of the document is [docDeck]. *)
Record document := { docTable : option table; docDeck : list Z }.

(** The table the users of the document play at. *)
Definition currentTable (d : document) : option table :=
  with_deckProperty (docDeck d) <$> docTable d.

(** [newTable], lines 2226-2266.  The new sheet replaces the sheet "Table"
    when everything went through; when something throws, the new sheet is
    deleted and the exception goes on, and what [newGame] did to the
    document property stays.  [rnd] serves [shuffle] first and [newGame]
    after it.  An array [shuffle] returns holds no [undefined]
    ([shuffle_Permutation]), so no name is ever the default here.
    [renderPlayerArea] asks the sheet for a range of [players.length] rows,
    which the sheet refuses for no rows. *)
Definition newTable (opts : options) (shufflePlayers : shuffle_players)
    (rnd : nat → Q) (answers : setup_answers) (d : document)
    : (setup_error + unit) * document :=
  match getPlayersForNewTable (docTable d) answers with
  | inl e => (inl e, d)
  | inr players0 =>
      let shuffled := shufflesPlayers shufflePlayers answers in
      let players :=
        if shuffled then default "" <$> shuffle rnd (Some <$> players0)
        else players0 in
      let draws := if shuffled then (length players0 - 1)%nat else 0%nat in
      if bool_decide (players = []) then (inl NoRowsToRender, d)
      else
        match newGame opts (λ k, rnd (draws + k)%nat) (startAnswer answers) players
                (renderNewTable (docDeck d) players) with
        | Done _ s => (inr tt, {| docTable := Some s; docDeck := deckProperty s |})
        | Thrown e s =>
            (inl (GameError e),
             {| docTable := docTable d; docDeck := deckProperty s |})
        end
  end.

(** ** What the users do to a document *)

(** A click on "New Table", with what [Math.random()] returns and what the
    user answers, or an action at the table. *)
Inductive command :=
| NewTable (rnd : nat → Q) (answers : setup_answers)
| Play (a : action).

(** The document after a command, whether the script went through or threw.
    The actions are the hot spots of the sheet "Table": without the sheet
    there is nothing to click. *)
Definition execute (opts : options) (shufflePlayers : shuffle_players)
    (c : command) (d : document) : document :=
  match c with
  | NewTable rnd answers => snd (newTable opts shufflePlayers rnd answers d)
  | Play a =>
      match currentTable d with
      | Some s =>
          let s' := table_after (perform opts a s) in
          {| docTable := Some s'; docDeck := deckProperty s' |}
      | None => d
      end
  end.

Definition command_random (c : command) : Prop :=
  match c with
  | NewTable rnd _ => all_unit rnd
  | Play a => action_random a
  end.

(** The documents of a session: the document without a table and without a
    deck, and every document a command leaves behind.  [reachable] above is
    one game of a session: the tables from a "New Table" that went through
    up to the next click on "New Table". *)
Inductive session (opts : options) (shufflePlayers : shuffle_players)
  : document → Prop :=
| session_start :
    session opts shufflePlayers {| docTable := None; docDeck := [] |}
| session_step d c :
    session opts shufflePlayers d →
    command_random c →
    session opts shufflePlayers (execute opts shufflePlayers c d).

(** ** The final score (lines 2300-2309, 2901-2934) *)

(** [row.indexOf("")] on the 24 values of a card row: the place of the first
    blank cell, [-1] when no cell is blank.  Cells the model does not hold
    are blank. *)
Definition firstBlank (row : list card_cell) : Z :=
  let cells := take CARD_ROW_WIDTH (row ++ replicate CARD_ROW_WIDTH CellBlank) in
  match list_find (λ c, c = CellBlank) cells with
  | Some (i, _) => Z.of_nat i
  | None => -1
  end.

(** [Math.max(...values)]: [None] is [-Infinity], the maximum of no value. *)
Definition maxOf (values : list Z) : option Z :=
  match values with
  | [] => None
  | v :: rest => Some (foldl Z.max v rest)
  end.

(** The card rows [renderFinalScore] reads: those of the first
    [getPlayerCount()] players. *)
Definition scoredRows (s : table) : list (list card_cell) :=
  (λ i, cardRow (playerCardRows s) (Z.of_nat i))
  <$> seq 0 (Z.to_nat (playerCount s)).

(** [maxCards] of [renderFinalScore]: the column, counted from the first
    card column, that receives the score. *)
Definition maxCards (s : table) : option Z := maxOf (firstBlank <$> scoredRows s).

(** [SUM] over cells of a row: numbers count, texts and blank cells do not
    (which is why [addCardToPlayer] writes the cards of a run after the
    first as texts). *)
Definition sumCells (cells : list card_cell) : Z :=
  foldr (λ c total, match c with CellNumber n => n + total | _ => total end)
    0 cells.

(** The value of the formula [renderFinalScore] writes in a row: the sum
    over the [maxCards] cells to the left of the formula, less the tokens of
    the row when the token cell holds a number.  With [maxCards < 1] the
    range of the sum is not a range to the left of the formula; the model
    gives no value then ([None]). *)
Definition scoreOfRow (maxCards : Z) (row : list card_cell)
    (tokens : option Z) : option Z :=
  if bool_decide (1 ≤ maxCards)
  then Some (sumCells (take (Z.to_nat maxCards) row) - default 0 tokens)
  else None.

(** The scores [renderFinalScore] reads back from the sheet, a row a
    player. *)
Definition finalScores (s : table) : option (list Z) :=
  max ← maxCards s;
  mapM (λ i, scoreOfRow max (cardRow (playerCardRows s) (Z.of_nat i))
               (js_get (playerTokenCells s) (Z.of_nat i)))
    (seq 0 (Z.to_nat (playerCount s))).

Definition RANK_MARKERS : list string := ["🏆"; "🥈"; "🥉"; ""; ""; ""; ""].

(** [scores] is an array of rows, each an array of its own, and
    [scores.slice()] holds the same rows: a row here is the pair of its
    place in [scores] and its score.  [sort(intComparator)] orders the rows
    by score and, being stable, keeps rows of the same score in the order
    they had. *)
Fixpoint insertRanked (row : nat * Z) (ranked : list (nat * Z)) : list (nat * Z) :=
  match ranked with
  | [] => [row]
  | next :: rest =>
      if bool_decide (row.2 ≤ next.2) then row :: next :: rest
      else next :: insertRanked row rest
  end.

Definition sortRanked (rows : list (nat * Z)) : list (nat * Z) :=
  foldr insertRanked [] rows.

(** [scoresRanked.indexOf(score)] for the row [i] of [scores]: [indexOf]
    finds the row itself, not a row with the same score. *)
Definition rankOf (scores : list Z) (i : nat) : option nat :=
  fst <$> list_find (λ row, row.1 = i) (sortRanked (imap pair scores)).

(** The markers [renderFinalScore] writes in the marker column;
    [RANK_MARKERS[-1]] and [RANK_MARKERS[7]] are [undefined] ([None]). *)
Definition rankMarkers (scores : list Z) : list (option string) :=
  (λ i, rank ← rankOf scores i; RANK_MARKERS !! rank) <$> seq 0 (length scores).

(** ** More predicates of the proofs *)

(** The cells [addCardToPlayer] writes for a hand of [cards]. *)
Definition renderHand (cards : list Z) : list card_cell :=
  concat (runCells <$> groupConsecutiveRuns cards).

(** The first cards of the runs of a hand. *)
Definition runHeads (cards : list Z) : list Z :=
  omap head (groupConsecutiveRuns cards).

(** The score of the rules of the game: every run counts for its lowest
    card, every token takes a point off. *)
Definition scoreOfHand (cards : list Z) (tokens : Z) : Z :=
  foldr Z.add 0 (runHeads cards) - tokens.

(** A row of [scores] comes before another when its score is lower, or
    the same and the row stood higher in [scores]. *)
Definition before (a b : nat * Z) : Prop :=
  a.2 < b.2 ∨ (a.2 = b.2 ∧ (a.1 < b.1)%nat).

(** What the tables of a game of [players] satisfy besides [game_inv]. *)
Record hands_inv (players : list string) (s : table) : Prop := {
  hi_rendered : Forall (λ row, row = renderHand (handCards row)) (playerCardRows s);
  hi_tokens : ∀ i z, playerTokenCells s !! i = Some (Some z) → 0 ≤ z;
  hi_unused : ∀ i row, (length players ≤ i)%nat →
              playerCardRows s !! i = Some row → row = [];
}.

(** ** A document to try things on *)

(** A document whose table is the finished game above. *)
Definition example_document : document :=
  {| docTable := Some example_finished; docDeck := [] |}.

(** The user keeps the players and lets the script draw the start player. *)
Definition example_answers : setup_answers :=
  {| samePlayers := true;
     askName := λ _, {| selectedButton := ButtonNO; responseText := "" |};
     randomizeOrder := false;
     startAnswer := RandomPick |}.

(** The options with [PICK_START_PLAYER] on. *)
Definition example_pick_options : options :=
  {| REMOVE_TENS := false; PICK_START_PLAYER := true;
     AUTO_REVEAL_NEXT_CARD := false |}.





(** ** Tables with blank names *)









(** * Properties *)

(** ** Doubles *)

Lemma pow2_pos (k : Z) : (0 < pow2 k)%Q.
Proof. by apply Qpower_0_lt. Qed.

Lemma pow2_add (j k : Z) : (pow2 (j + k) == pow2 j * pow2 k)%Q.
Proof. by apply Qpower_plus. Qed.

Lemma pow2_le (j k : Z) : j ≤ k → (pow2 j <= pow2 k)%Q.
Proof. intros Hjk. by apply Qpower_le_compat_l. Qed.

Lemma pow2_Z (k : Z) : 0 ≤ k → (pow2 k == inject_Z (2 ^ k))%Q.
Proof. intros Hk. unfold pow2. by rewrite Zpower_Qpower. Qed.

Lemma pow2_opp (k : Z) : (pow2 (- k) * pow2 k == 1)%Q.
Proof.
  rewrite <- pow2_add. replace (- k + k) with 0 by lia. reflexivity.
Qed.

Lemma binade_spec (q : Q) :
  (0 < q)%Q → (pow2 (binade q) <= q)%Q ∧ (q < pow2 (binade q + 1))%Q.
Proof.
  destruct q as [n d]. intros Hq.
  assert (0 < n) as Hn.
  { unfold Qlt in Hq. simpl in Hq. lia. }
  unfold binade. simpl Qnum. simpl Qden.
  set (a := Z.log2 n). set (b := Z.log2 (Z.pos d)).
  destruct (Z.log2_spec n Hn) as [Ha1 Ha2]. fold a in Ha1, Ha2.
  destruct (Z.log2_spec (Z.pos d) ltac:(lia)) as [Hb1 Hb2]. fold b in Hb1, Hb2.
  assert (0 ≤ a) as Ha0 by apply Z.log2_nonneg.
  assert (0 ≤ b) as Hb0 by apply Z.log2_nonneg.
  assert (n # d == inject_Z n * / inject_Z (Z.pos d))%Q as Hnd by apply Qmake_Qdiv.
  assert (0 < inject_Z (Z.pos d))%Q as Hd by (unfold Qlt; simpl; lia).
  assert (∀ j, j ≤ a → (pow2 (j - b - 1) <= n # d)%Q) as Hlow.
  { intros j Hj. apply Qle_trans with (pow2 (a - b - 1)); [apply pow2_le; lia|].
    assert (pow2 (a - b - 1) * pow2 (b + 1) == pow2 a)%Q as Hmul.
    { rewrite <- pow2_add. by replace (a - b - 1 + (b + 1)) with a by lia. }
    rewrite (pow2_Z (b + 1) ltac:(lia)), (pow2_Z a Ha0) in Hmul.
    assert (0 < inject_Z (2 ^ (b + 1)))%Q as Hpos.
    { rewrite <- pow2_Z by lia. apply pow2_pos. }
    assert (inject_Z (2 ^ a) <= inject_Z n)%Q as H1 by (by rewrite <- Zle_Qle).
    assert (inject_Z (Z.pos d) <= inject_Z (2 ^ (b + 1)))%Q as H2
      by (rewrite <- Zle_Qle; lia).
    rewrite Hnd.
    apply Qle_shift_div_l; [done|].
    (* pow2 (a-b-1) * d <= n *)
    apply Qle_trans with (pow2 (a - b - 1) * inject_Z (2 ^ (b + 1)))%Q.
    - apply Qmult_le_l; [apply pow2_pos | done].
    - by rewrite Hmul. }
  assert (∀ j, a ≤ j → (n # d < pow2 (j - b + 1))%Q) as Hhigh.
  { intros j Hj. apply Qlt_le_trans with (pow2 (a - b + 1)); [|apply pow2_le; lia].
    assert (pow2 (a - b + 1) * pow2 b == pow2 (a + 1))%Q as Hmul.
    { rewrite <- pow2_add. by replace (a - b + 1 + b) with (a + 1) by lia. }
    rewrite (pow2_Z b Hb0), (pow2_Z (a + 1) ltac:(lia)) in Hmul.
    assert (inject_Z n < inject_Z (2 ^ (a + 1)))%Q as H1.
    { rewrite <- Zlt_Qlt. by replace (a + 1) with (Z.succ a) by lia. }
    assert (inject_Z (2 ^ b) <= inject_Z (Z.pos d))%Q as H2 by (by rewrite <- Zle_Qle).
    rewrite Hnd. apply Qlt_shift_div_r; [done|].
    apply Qlt_le_trans with (inject_Z (2 ^ (a + 1))); [done|].
    rewrite <- Hmul. apply Qmult_le_l; [apply pow2_pos | done]. }
  destruct (Qle_bool (pow2 (a - b)) (n # d)) eqn:Htest.
  - apply Qle_bool_iff in Htest. split; [done|]. by apply Hhigh.
  - split.
    + apply (Hlow a). lia.
    + replace (a - b - 1 + 1) with (a - b) by lia.
      apply Qnot_le_lt. intros Hle. apply Qle_bool_iff in Hle. congruence.
Qed.

Lemma roundHalfEven_near (x : Q) :
  (inject_Z (roundHalfEven x) <= x + (1 # 2))%Q
  ∧ (x - (1 # 2) <= inject_Z (roundHalfEven x))%Q.
Proof.
  pose proof (Qfloor_le x) as Hlo. pose proof (Qlt_floor x) as Hhi.
  rewrite inject_Z_plus in Hhi. change (inject_Z 1) with 1%Q in Hhi.
  unfold roundHalfEven. cbv zeta.
  destruct (Qcompare_spec (x - inject_Z (Qfloor x)) (1 # 2)) as [Heq|Hlt|Hgt].
  - destruct (Z.even (Qfloor x)); rewrite ?inject_Z_plus;
      change (inject_Z 1) with 1%Q; split; lra.
  - split; lra.
  - rewrite inject_Z_plus. change (inject_Z 1) with 1%Q. split; lra.
Qed.

(** Rounding never crosses an integer. *)
Lemma roundHalfEven_above (x : Q) (m : Z) :
  (inject_Z m <= x)%Q → m ≤ roundHalfEven x.
Proof.
  intros Hm. assert (m ≤ Qfloor x) as Hf.
  { rewrite <- (Qfloor_Z m). by apply Qfloor_resp_le. }
  unfold roundHalfEven. cbv zeta. repeat case_match; lia.
Qed.

Lemma roundHalfEven_below (x : Q) (m : Z) :
  (x <= inject_Z m)%Q → roundHalfEven x ≤ m.
Proof.
  intros Hm.
  destruct (roundHalfEven_near x) as [_ Hnear].
  pose proof (Qfloor_le x) as Hlo.
  assert (Qfloor x ≤ m) as Hf.
  { rewrite <- (Qfloor_Z m). by apply Qfloor_resp_le. }
  unfold roundHalfEven in *. revert Hnear. cbv zeta.
  destruct (Qcompare_spec (x - inject_Z (Qfloor x)) (1 # 2)) as [Heq|Hlt|Hgt].
  - destruct (Z.even (Qfloor x)); [lia|]. intros _.
    destruct (decide (Qfloor x = m)) as [Hfm|]; [exfalso; rewrite Hfm in *; lra | lia].
  - lia.
  - intros _. destruct (decide (Qfloor x = m)) as [Hfm|]; [exfalso; rewrite Hfm in *; lra | lia].
Qed.

Lemma roundHalfEven_Z (x : Q) (m : Z) : (x == inject_Z m)%Q → roundHalfEven x = m.
Proof.
  intros Hx. apply Z.le_antisymm.
  - apply roundHalfEven_below. rewrite Hx. apply Qle_refl.
  - apply roundHalfEven_above. rewrite Hx. apply Qle_refl.
Qed.

Lemma double_nonneg (q : Q) : (0 <= q)%Q → (0 <= double q)%Q.
Proof.
  intros Hq. unfold double. pose proof (pow2_pos (ulpExponent q)) as Hk.
  apply Qmult_le_0_compat; [|lra].
  change 0%Q with (inject_Z 0). rewrite <- Zle_Qle.
  apply roundHalfEven_above. change (inject_Z 0) with 0%Q.
  apply Qle_shift_div_l; [done | lra].
Qed.

Lemma Qabs_nonneg_eq (q : Q) : (0 <= q)%Q → Qabs q = q.
Proof.
  destruct q as [n d]. unfold Qle, Qabs. simpl. intros Hn.
  by rewrite Z.abs_eq by lia.
Qed.

(** The last bit of the doubles around [q > 0] is worth at most [q / 2^52],
    or the least positive double. *)
Lemma ulp_small (q : Q) :
  (0 < q)%Q →
  (pow2 (ulpExponent q) <= q * pow2 (-52))%Q ∨ ulpExponent q = -1074.
Proof.
  intros Hq. unfold ulpExponent. rewrite Qabs_nonneg_eq by lra.
  destruct (binade_spec q Hq) as [Hlo _].
  destruct (Z.max_spec (binade q - 52) (-1074)) as [[_ ->]|[_ ->]]; [by right|].
  left. replace (binade q - 52) with (binade q + -52) by lia.
  rewrite pow2_add. apply Qmult_le_r; [apply pow2_pos | done].
Qed.

Lemma double_near (q : Q) :
  (double q <= q + pow2 (ulpExponent q) * (1 # 2))%Q
  ∧ (q - pow2 (ulpExponent q) * (1 # 2) <= double q)%Q.
Proof.
  unfold double. set (k := ulpExponent q). pose proof (pow2_pos k) as Hk.
  destruct (roundHalfEven_near (q / pow2 k)) as [Hhi Hlo].
  assert (q / pow2 k * pow2 k == q)%Q as Hq.
  { unfold Qdiv. rewrite <- Qmult_assoc, (Qmult_comm (/ _)), Qmult_inv_r; [ring|lra]. }
  split.
  - apply (Qmult_le_r _ _ (pow2 k)) in Hhi; [|done].
    rewrite Qmult_plus_distr_l, Hq in Hhi. lra.
  - apply (Qmult_le_r _ _ (pow2 k)) in Hlo; [|done].
    assert ((q / pow2 k - (1 # 2)) * pow2 k == q - pow2 k * (1 # 2))%Q as Heq.
    { rewrite <- Hq at 2. ring. }
    rewrite Heq in Hlo. done.
Qed.

Lemma pow2_lt_inv (j k : Z) : (pow2 j < pow2 k)%Q → j < k.
Proof. intros Hlt. by apply (Qpower_lt_compat_l_inv 2). Qed.

Lemma binade_below (q : Q) (k : Z) : (0 < q)%Q → (q < pow2 k)%Q → binade q < k.
Proof.
  intros Hq Hk. destruct (binade_spec q Hq) as [Hlo _].
  apply pow2_lt_inv. by apply Qle_lt_trans with q.
Qed.

Lemma binade_above (q : Q) (k : Z) : (pow2 k <= q)%Q → k ≤ binade q.
Proof.
  intros Hk. assert (0 < q)%Q as Hq.
  { apply Qlt_le_trans with (pow2 k); [apply pow2_pos | done]. }
  destruct (binade_spec q Hq) as [_ Hhi].
  assert (k < binade q + 1); [|lia].
  apply pow2_lt_inv. by apply Qle_lt_trans with q.
Qed.

Lemma double_zero (q : Q) : (q == 0)%Q → (double q == 0)%Q.
Proof.
  intros Hq. unfold double.
  rewrite (roundHalfEven_Z _ 0); [ring|].
  generalize (pow2 (ulpExponent q)). intros p. rewrite Hq. reflexivity.
Qed.

(** A double below 1 is at most [1 - 2^-53]. *)
Lemma double_below_one (u : Q) :
  (0 <= u)%Q → (u < 1)%Q → (double u == u)%Q → (u <= 1 - pow2 (-53))%Q.
Proof.
  intros H0 H1 Hd.
  assert (pow2 (-53) == 1 # 9007199254740992)%Q as H53 by reflexivity.
  assert (pow2 (-1) == 1 # 2)%Q as Hhalf by reflexivity.
  destruct (Qlt_le_dec u (1 # 2)) as [Hlt|Hge]; [lra|].
  assert (binade u = -1) as He.
  { assert (binade u < 0) by (apply binade_below; [lra | by change (pow2 0) with 1%Q]).
    assert (-1 ≤ binade u) by (apply binade_above; lra). lia. }
  assert (ulpExponent u = -53) as Hk.
  { unfold ulpExponent. rewrite Qabs_nonneg_eq by done. rewrite He. reflexivity. }
  unfold double in Hd. rewrite Hk in Hd.
  set (N := roundHalfEven (u / pow2 (-53))) in *.
  assert (N < 2 ^ 53) as HN.
  { rewrite Zlt_Qlt. apply Qmult_lt_r with (pow2 (-53)); [apply pow2_pos|].
    rewrite Hd. rewrite H53.
    assert (inject_Z (2 ^ 53) * (1 # 9007199254740992) == 1)%Q as -> by reflexivity.
    exact H1. }
  assert (inject_Z N <= inject_Z (2 ^ 53 - 1))%Q as HN' by (rewrite <- Zle_Qle; lia).
  rewrite <- Hd. rewrite H53.
  apply Qle_trans with (inject_Z (2 ^ 53 - 1) * (1 # 9007199254740992))%Q.
  - apply Qmult_le_r; [reflexivity | done].
  - apply Qle_lteq. right. reflexivity.
Qed.

(** The double product of a random number and a count stays under the
    count. *)
Lemma double_scaled (u : Q) (n : Z) :
  (0 <= u)%Q → (u < 1)%Q → (double u == u)%Q → 1 ≤ n →
  (0 <= double (u * inject_Z n))%Q ∧ (double (u * inject_Z n) < inject_Z n)%Q.
Proof.
  intros H0 H1 Hd Hn.
  assert (1 <= inject_Z n)%Q as HN.
  { change 1%Q with (inject_Z 1). by rewrite <- Zle_Qle. }
  pose proof (double_below_one u H0 H1 Hd) as Hu.
  assert (pow2 (-53) == 1 # 9007199254740992)%Q as H53 by reflexivity.
  assert (pow2 (-52) == 1 # 4503599627370496)%Q as H52 by reflexivity.
  assert (pow2 (-54) == 1 # 18014398509481984)%Q as H54 by reflexivity.
  rewrite H53 in Hu.
  set (q := (u * inject_Z n)%Q).
  assert (0 <= q)%Q as Hq0 by (apply Qmult_le_0_compat; lra).
  assert (q <= inject_Z n * (1 - (1 # 9007199254740992)))%Q as Hq.
  { unfold q. rewrite (Qmult_comm u). apply Qmult_le_l; lra. }
  split; [by apply double_nonneg|].
  destruct (Qlt_le_dec 0 q) as [Hpos|Hzero].
  - destruct (double_near q) as [Hnear _].
    destruct (ulp_small q Hpos) as [Hulp|Hulp].
    + rewrite H52 in Hulp. lra.
    + rewrite Hulp in Hnear.
      pose proof (pow2_le (-1074) (-54) ltac:(lia)) as Hle. rewrite H54 in Hle. lra.
  - rewrite double_zero; [lra|]. apply Qle_antisym; done.
Qed.

Lemma ulpExponent_small (q : Q) :
  (0 < q)%Q → (q < pow2 53)%Q → ulpExponent q ≤ 0.
Proof.
  intros Hq Hlt. unfold ulpExponent. rewrite Qabs_nonneg_eq by lra.
  pose proof (binade_below q 53 Hq Hlt). lia.
Qed.

(** Below [2^53] rounding to a double never crosses an integer. *)
Lemma double_above (q : Q) (i : Z) :
  (0 < q)%Q → (q < pow2 53)%Q → (inject_Z i <= q)%Q → (inject_Z i <= double q)%Q.
Proof.
  intros Hq Hlt Hi. pose proof (ulpExponent_small q Hq Hlt) as Hk.
  unfold double. set (k := ulpExponent q) in *.
  pose proof (pow2_pos k) as Hpos. pose proof (pow2_opp k) as Hopp.
  pose proof (pow2_Z (- k) ltac:(lia)) as HZ.
  assert (inject_Z (i * 2 ^ (- k)) <= q / pow2 k)%Q as Hscaled.
  { apply Qle_shift_div_l; [done|].
    rewrite inject_Z_mult, <- HZ, <- Qmult_assoc, Hopp, Qmult_1_r. done. }
  apply roundHalfEven_above in Hscaled. rewrite Zle_Qle in Hscaled.
  apply (Qmult_le_r _ _ (pow2 k)) in Hscaled; [|done].
  rewrite inject_Z_mult, <- HZ, <- Qmult_assoc, Hopp, Qmult_1_r in Hscaled. done.
Qed.

(** An integer up to [2^53] in size is a double. *)
Lemma double_Z (z : Z) : Z.abs z ≤ 2 ^ 53 → (double (inject_Z z) == inject_Z z)%Q.
Proof.
  intros Hz. destruct (decide (z = 0)) as [->|Hne]; [reflexivity|].
  assert (Qabs (inject_Z z) = inject_Z (Z.abs z)) as Habs by reflexivity.
  assert (0 < inject_Z (Z.abs z))%Q as Hpos.
  { change 0%Q with (inject_Z 0). rewrite <- Zlt_Qlt. lia. }
  assert (pow2 53 == inject_Z (2 ^ 53))%Q as H53 by (by apply pow2_Z).
  unfold double, ulpExponent. rewrite Habs.
  set (e := binade (inject_Z (Z.abs z))).
  assert (e ≤ 53) as He.
  { assert (e < 54); [|lia]. apply binade_below; [done|].
    apply Qle_lt_trans with (pow2 53).
    - rewrite H53, <- Zle_Qle. done.
    - apply Qpower_lt_compat_l; [lia | reflexivity]. }
  set (k := Z.max (e - 52) (-1074)).
  pose proof (pow2_pos k) as Hk. pose proof (pow2_opp k) as Hopp.
  assert (∃ m, z = m * 2 ^ k ∧ 0 ≤ k ∨ k ≤ 0 ∧ m = z * 2 ^ (- k)) as [m Hm].
  { destruct (decide (k ≤ 0)) as [Hle|Hgt].
    - exists (z * 2 ^ (- k)). by right.
    - assert (e = 53) as He53 by lia. assert (k = 1) as Hk1 by lia. rewrite Hk1.
      assert (pow2 53 <= inject_Z (Z.abs z))%Q as Hlow.
      { destruct (binade_spec _ Hpos) as [Hlo _]. fold e in Hlo. by rewrite He53 in Hlo. }
      rewrite H53, <- Zle_Qle in Hlow.
      exists (z / 2). left. split; [|lia].
      assert (Z.abs z = 2 ^ 53) as Hz53 by lia.
      destruct (Z.abs_spec z) as [[_ Heq]|[_ Heq]]; rewrite Heq in Hz53.
      + rewrite Hz53. reflexivity.
      + replace z with (- 2 ^ 53) by lia. reflexivity. }
  assert (inject_Z z / pow2 k == inject_Z m)%Q as Hdiv.
  { destruct Hm as [[Hzm Hk0]|[Hk0 Hmz]].
    - rewrite Hzm at 1. rewrite inject_Z_mult, <- (pow2_Z k Hk0). field. lra.
    - rewrite Hmz. rewrite inject_Z_mult, <- (pow2_Z (- k)) by lia.
      apply Qmult_inj_r with (pow2 k); [lra|].
      rewrite <- Qmult_assoc, Hopp. field. lra. }
  rewrite (roundHalfEven_Z _ m Hdiv). rewrite <- Hdiv. field. lra.
Qed.

(** Within [2^53], one less than a number is exact, but for [- 2^53]. *)
Lemma minusOne_exact (num : Z) : - 2 ^ 53 < num ≤ 2 ^ 53 → minusOne num = num - 1.
Proof.
  intros Hnum. unfold minusOne.
  rewrite <- (Qfloor_Z (num - 1)) at 2. apply Qfloor_comp, double_Z. lia.
Qed.

(** ** Random integers *)

Lemma Qfloor_bounds (x : Q) (lo hi : Z) :
  (inject_Z lo <= x)%Q → (x < inject_Z hi)%Q → lo ≤ Qfloor x < hi.
Proof.
  intros Hlo Hhi. split.
  - rewrite <- (Qfloor_Z lo). by apply Qfloor_resp_le.
  - rewrite Zlt_Qlt. eapply Qle_lt_trans; [apply Qfloor_le | done].
Qed.

(** A closed number is one [Math.random()] can return. *)
Ltac unit_by_computation :=
  split_and!;
  [ apply Qle_bool_iff; vm_compute; reflexivity
  | apply Qlt_alt; vm_compute; reflexivity
  | apply Qeq_bool_iff; vm_compute; reflexivity ].

Lemma half_unit : unit_interval (1 # 2).
Proof. unit_by_computation. Qed.

Lemma randInt_of_none (u : Q) : randInt u (-1) None = 0.
Proof.
  unfold randInt. change (-1 - 0 + 1) with 0. rewrite Z.add_0_l.
  rewrite <- (Qfloor_Z 0). apply Qfloor_comp, double_zero, Qmult_0_r.
Qed.

Lemma unit_scaled (u : Q) (n : Z) :
  unit_interval u → 0 < n →
  (inject_Z 0 <= double (u * inject_Z n))%Q
  ∧ (double (u * inject_Z n) < inject_Z n)%Q.
Proof.
  intros (H0 & H1 & Hd) Hn. apply double_scaled; [done | done | done | lia].
Qed.

Lemma randInt_range (u : Q) (a : Z) :
  unit_interval u → 0 ≤ a → 0 ≤ randInt u a None ≤ a.
Proof.
  intros Hu Ha. unfold randInt.
  destruct (unit_scaled u (a - 0 + 1) Hu) as [Hlo Hhi]; [lia|].
  pose proof (Qfloor_bounds _ _ _ Hlo Hhi). lia.
Qed.

(** ** Drawing a card *)

Lemma splice1_in_range {A} (l : list A) (i : Z) :
  0 ≤ i < Z.of_nat (length l) → splice1 i l = delete (Z.to_nat i) l.
Proof.
  intros Hi. unfold splice1.
  destruct (Z.ltb_spec i 0); [lia|]. by rewrite Z.min_l by lia.
Qed.

Lemma splice1_past_end {A} (l : list A) (i : Z) :
  Z.of_nat (length l) ≤ i → splice1 i l = l.
Proof.
  intros Hi. unfold splice1.
  destruct (Z.ltb_spec i 0); [lia|]. rewrite Z.min_r by lia.
  rewrite Nat2Z.id. rewrite delete_take_drop, take_ge, drop_ge by lia.
  by rewrite app_nil_r.
Qed.

(** What [drawCard] does on a deck that is not empty. *)
Lemma drawCard_spec (u : Q) (deck : list Z) :
  unit_interval u → deck ≠ [] →
  ∃ (i : nat) (c : Z),
    randInt u (Z.of_nat (length deck) - 1) None = Z.of_nat i
    ∧ deck !! i = Some c
    ∧ card (drawCard u deck) = Some c
    ∧ remainingDeck (drawCard u deck) = delete i deck.
Proof.
  intros Hu Hne.
  assert (0 < length deck)%nat as Hlen by (destruct deck; [done | simpl; lia]).
  pose proof (randInt_range u (Z.of_nat (length deck) - 1) Hu ltac:(lia)) as Hr.
  set (r := randInt u (Z.of_nat (length deck) - 1) None) in *.
  destruct (lookup_lt_is_Some_2 deck (Z.to_nat r)) as [c Hc]; [lia|].
  exists (Z.to_nat r), c. split_and!.
  - lia.
  - done.
  - unfold drawCard, js_index. fold r. simpl.
    destruct (Z.ltb_spec r 0); [lia | done].
  - unfold drawCard. fold r. simpl. apply splice1_in_range. lia.
Qed.

Lemma drawCard_Permutation (u : Q) (deck : list Z) :
  unit_interval u → deck ≠ [] →
  ∃ c, card (drawCard u deck) = Some c
       ∧ deck ≡ₚ c :: remainingDeck (drawCard u deck).
Proof.
  intros Hu Hne. destruct (drawCard_spec u deck Hu Hne) as (i & c & _ & Hi & Hc & Hr).
  exists c. split; [done|]. rewrite Hr. by apply delete_Permutation.
Qed.

Lemma drawCard_length (u : Q) (deck : list Z) :
  unit_interval u → deck ≠ [] →
  S (length (remainingDeck (drawCard u deck))) = length deck.
Proof.
  intros Hu Hne. destruct (drawCard_Permutation u deck Hu Hne) as (c & _ & Hp).
  by apply Permutation_length in Hp.
Qed.

(** ** The new deck *)

Lemma removeCards_spec (rnd : nat → Q) (n k : nat) (deck : list Z) :
  all_unit rnd → (n ≤ length deck)%nat →
  (length (removeCards drawCard n k rnd deck) + n = length deck)%nat
  ∧ removeCards drawCard n k rnd deck `sublist_of` deck.
Proof.
  intros Hrnd. revert k deck. induction n as [|n IH]; intros k deck Hlen;
    cbn [removeCards].
  - split; [lia | done].
  - assert (deck ≠ []) as Hne by (intros ->; simpl in Hlen; lia).
    destruct (drawCard_spec (rnd k) deck (Hrnd k) Hne) as (i & c & _ & _ & _ & Hr).
    pose proof (drawCard_length (rnd k) deck (Hrnd k) Hne) as Hl.
    destruct (IH (S k) (remainingDeck (drawCard (rnd k) deck))) as [IH1 IH2]; [lia|].
    split; [lia|]. etrans; [exact IH2|]. rewrite Hr. apply sublist_delete.
Qed.

Lemma full_range_length : length (xrange MIN_CARD (MAX_CARD + 1)) = 33%nat.
Proof. vm_compute. reflexivity. Qed.

Lemma no_tens_length :
  length (filter (λ card, Z.rem card 10 ≠ 0) (xrange MIN_CARD (MAX_CARD + 1))) = 30%nat.
Proof. vm_compute. reflexivity. Qed.

(** [newDeck] leaves 24 of the 33 cards, in the order of the range. *)
Lemma newDeck_spec (opts : options) (rnd : nat → Q) :
  all_unit rnd →
  length (newDeck opts rnd) = 24%nat
  ∧ newDeck opts rnd `sublist_of` xrange MIN_CARD (MAX_CARD + 1).
Proof.
  intros Hrnd. unfold newDeck. destruct (REMOVE_TENS opts).
  - rewrite no_tens_length.
    match goal with |- context [removeCards _ ?n _ _ ?d] =>
      destruct (removeCards_spec rnd n 0 d Hrnd) as [Hl Hs] end.
    { rewrite no_tens_length. vm_compute. lia. }
    rewrite no_tens_length in Hl. split.
    + change (Z.to_nat (SETUP_CARDS_REMOVED - (MAX_CARD - MIN_CARD + 1 - Z.of_nat 30)))
        with 6%nat in *. lia.
    + etrans; [exact Hs|]. apply sublist_filter.
  - match goal with |- context [removeCards _ ?n _ _ ?d] =>
      destruct (removeCards_spec rnd n 0 d Hrnd) as [Hl Hs] end.
    { rewrite full_range_length. vm_compute. lia. }
    rewrite full_range_length in Hl. split; [|done].
    change (Z.to_nat (SETUP_CARDS_REMOVED - 0)) with 9%nat in *. lia.
Qed.

Lemma newDeck_NoDup (opts : options) (rnd : nat → Q) :
  all_unit rnd → NoDup (newDeck opts rnd).
Proof.
  intros Hrnd. apply (sublist_NoDup _ (xrange MIN_CARD (MAX_CARD + 1))).
  - apply NoDup_seqZ.
  - apply (newDeck_spec opts rnd Hrnd).
Qed.

Lemma newDeck_in_range (opts : options) (rnd : nat → Q) (c : Z) :
  all_unit rnd → c ∈ newDeck opts rnd → MIN_CARD ≤ c ≤ MAX_CARD.
Proof.
  intros Hrnd Hc.
  eapply elem_of_sublist in Hc; [|apply (newDeck_spec opts rnd Hrnd)].
  unfold xrange in Hc. apply elem_of_seqZ in Hc. lia.
Qed.

(** The older wording builds the same deck. *)
Lemma range_cards : range MAX_CARD MIN_CARD = inr (xrange MIN_CARD (MAX_CARD + 1)).
Proof. vm_compute. reflexivity. Qed.

Lemma cardRange_cards : cardRange = xrange MIN_CARD (MAX_CARD + 1).
Proof. unfold cardRange. by rewrite range_cards. Qed.

Lemma Rev1_newDeck_same (rnd : nat → Q) : Rev1.newDeck rnd = newDeck OPTIONS rnd.
Proof.
  unfold Rev1.newDeck, newDeck. rewrite cardRange_cards.
  change (REMOVE_TENS OPTIONS) with false. cbv iota.
  by replace (SETUP_CARDS_REMOVED - 0) with SETUP_CARDS_REMOVED by lia.
Qed.


(** ** Runs of consecutive cards *)

(** Whatever algorithm the JS engine sorts with, the result is this one: a
    list of integers has one ascending arrangement. *)
Lemma sortNumbers_unique (numbers sorted : list Z) :
  Sorted Z.le sorted → sorted ≡ₚ numbers → sortNumbers numbers = sorted.
Proof.
  intros Hs Hp. unfold sortNumbers. apply (Sorted_unique Z.le).
  - apply (Sorted_merge_sort Z.le).
  - done.
  - by rewrite merge_sort_Permutation.
Qed.

Lemma sortNumbers_Permutation (numbers : list Z) : sortNumbers numbers ≡ₚ numbers.
Proof. apply merge_sort_Permutation. Qed.

Lemma sortNumbers_sorted (numbers : list Z) : Sorted Z.le (sortNumbers numbers).
Proof. apply (Sorted_merge_sort Z.le). Qed.

Lemma Sorted_lt_le (numbers : list Z) : Sorted Z.lt numbers → Sorted Z.le numbers.
Proof.
  induction 1 as [|x l Hl IH Hhd]; constructor; [done|].
  destruct Hhd; constructor. lia.
Qed.

Lemma consecutive_snoc (run : list Z) (num : Z) :
  consecutive run → last run = Some (num - 1) → consecutive (run ++ [num]).
Proof.
  induction run as [|x rest IH]; [done|].
  destruct rest as [|y rest'].
  - simpl. intros _ [= ->]. split; [lia | done].
  - intros [Hy Hc] Hl. change ((x :: y :: rest') ++ [num])
      with (x :: (y :: rest') ++ [num]).
    change (consecutive (x :: (y :: rest') ++ [num]))
      with (y = x + 1 ∧ consecutive ((y :: rest') ++ [num])).
    split; [done|]. apply IH; [done|]. by rewrite last_cons_cons in Hl.
Qed.

Lemma not_mergeable_snoc (runs : list (list Z)) (r : list Z) :
  not_mergeable (runs ++ [r]) ↔
  not_mergeable runs ∧ (∀ r0, last runs = Some r0 → gap r0 r).
Proof.
  induction runs as [|r1 rest IH]; [simpl; naive_solver|].
  destruct rest as [|r2 rest'].
  - simpl. split.
    + intros [Hg _]. split; [done|]. by intros r0 [= <-].
    + intros [_ Hg]. split; [|done]. by apply Hg.
  - change (not_mergeable ((r1 :: r2 :: rest') ++ [r]))
      with (gap r1 r2 ∧ not_mergeable ((r2 :: rest') ++ [r])).
    change (not_mergeable (r1 :: r2 :: rest'))
      with (gap r1 r2 ∧ not_mergeable (r2 :: rest')).
    rewrite IH, last_cons_cons. naive_solver.
Qed.

Lemma groupStep_inv (st : runs_state) (num : Z) :
  exact_before num →
  runs_inv st → runs_inv (groupStep st num) ∧ currentRun (groupStep st num) ≠ [].
Proof.
  intros Hexact [H1 H2 H3 H4]. unfold groupStep. rewrite Hexact.
  destruct (currentRun st) as [|x cur] eqn:Hcur.
  - simpl. rewrite (H1 eq_refl). split; [|done].
    split; simpl; [done | constructor | done | done].
  - rewrite bool_decide_eq_true_2 by (simpl; lia). simpl andb.
    case_bool_decide as Hlast.
    + split; [|done]. split; simpl.
      * done.
      * apply Forall_app. split; [done|]. repeat constructor; done.
      * done.
      * apply not_mergeable_snoc. split; [done|].
        intros r0. rewrite last_snoc. intros [= <-] a b Ha [= <-].
        intros ->. apply Hlast. rewrite Ha. f_equal. lia.
    + split; [|by destruct cur].
      split; simpl.
      * done.
      * done.
      * by apply (consecutive_snoc (x :: cur)).
      * apply not_mergeable_snoc in H4 as [H4 H5].
        apply not_mergeable_snoc. split; [done|].
        intros r0 Hr0 a b Ha Hb. by apply (H5 r0 Hr0 a b).
Qed.

Lemma groupStep_concat (st : runs_state) (num : Z) :
  concat (yielded (groupStep st num)) ++ currentRun (groupStep st num)
  = (concat (yielded st) ++ currentRun st) ++ [num].
Proof.
  unfold groupStep. case_match; simpl.
  - by rewrite concat_app, <- !app_assoc; simpl; rewrite app_nil_r.
  - by rewrite app_assoc.
Qed.

Lemma foldl_groupStep (sorted : list Z) (st : runs_state) :
  Forall exact_before sorted →
  runs_inv st →
  runs_inv (foldl groupStep st sorted)
  ∧ concat (yielded (foldl groupStep st sorted)) ++ currentRun (foldl groupStep st sorted)
    = (concat (yielded st) ++ currentRun st) ++ sorted.
Proof.
  intros Hexact. revert st.
  induction Hexact as [|num sorted Hnum _ IH]; intros st Hst; simpl.
  - by rewrite app_nil_r.
  - destruct (groupStep_inv st num Hnum Hst) as [Hst' _].
    destruct (IH _ Hst') as [Hinv Hcat]. split; [done|].
    by rewrite Hcat, groupStep_concat, <- app_assoc.
Qed.

(** The first number opens the first run, whatever its size: the test of
    the loop stops at the empty [currentRun]. *)
Lemma groupStep_first (num : Z) :
  groupStep {| yielded := []; currentRun := [] |} num
  = {| yielded := []; currentRun := [num] |}.
Proof. reflexivity. Qed.

(** The runs of a hand whose numbers, the lowest apart, the engine can take
    one from: each is a run, no two neighbours can be joined, and together
    they are the hand in ascending order. *)
Lemma groupConsecutiveRuns_spec (numbers : list Z) :
  Forall exact_before (tail (sortNumbers numbers)) →
  Forall is_run (groupConsecutiveRuns numbers)
  ∧ not_mergeable (groupConsecutiveRuns numbers)
  ∧ concat (groupConsecutiveRuns numbers) = sortNumbers numbers.
Proof.
  unfold groupConsecutiveRuns. cbv zeta.
  destruct (sortNumbers numbers) as [|first rest]; [done|].
  intros Hexact. cbn [tail foldl] in *. rewrite groupStep_first.
  destruct (foldl_groupStep rest {| yielded := []; currentRun := [first] |} Hexact)
    as [[H1 H2 H3 H4] Hcat].
  { split; simpl; [done | constructor | done | done]. }
  simpl in Hcat. revert H1 H2 H3 H4 Hcat.
  generalize (foldl groupStep {| yielded := []; currentRun := [first] |} rest).
  intros [ys cur]; simpl. intros H1 H2 H3 H4 Hcat.
  destruct cur as [|x cur].
  - rewrite (H1 eq_refl) in *. simpl in *. by rewrite <- Hcat.
  - rewrite bool_decide_eq_true_2 by (simpl; lia). split_and!.
    + apply Forall_app. split; [done|]. repeat constructor; done.
    + done.
    + rewrite concat_app. simpl. by rewrite app_nil_r.
Qed.

(** Numbers above [- 2^53] and up to [2^53] are such numbers. *)
Lemma groupConsecutiveRuns_exact (numbers : list Z) :
  Forall (λ num, - 2 ^ 53 < num ≤ 2 ^ 53) numbers →
  Forall is_run (groupConsecutiveRuns numbers)
  ∧ not_mergeable (groupConsecutiveRuns numbers)
  ∧ concat (groupConsecutiveRuns numbers) = sortNumbers numbers.
Proof.
  intros Hsmall. apply groupConsecutiveRuns_spec.
  rewrite <- (sortNumbers_Permutation numbers) in Hsmall.
  destruct (sortNumbers numbers) as [|first rest]; [done|].
  apply Forall_cons in Hsmall as [_ Hrest]. simpl.
  eapply Forall_impl; [exact Hrest|]. intros num. apply minusOne_exact.
Qed.

Lemma card_texts_exact (cards : list Z) :
  Forall card_text_ok cards → Forall (λ num, - 2 ^ 53 < num ≤ 2 ^ 53) cards.
Proof.
  intros Hok. eapply Forall_impl; [exact Hok|].
  unfold card_text_ok. intros num Hnum. lia.
Qed.

(** ** The shuffle *)

Lemma insert_Permutation_cons {A} (l : list A) (j : nat) (a y : A) :
  l !! j = Some y → y :: <[j := a]> l ≡ₚ a :: l.
Proof.
  revert j. induction l as [|b t IH]; intros [|j] Hj; simplify_eq/=.
  - apply perm_swap.
  - rewrite perm_swap, (IH j Hj). apply perm_swap.
Qed.

(** Writing the element of [j] at [i] and the element of [i] at [j]
    rearranges the list. *)
Lemma insert_swap_Permutation {A} (l : list A) (i j : nat) (x y : A) :
  l !! i = Some x → l !! j = Some y → <[j := x]> (<[i := y]> l) ≡ₚ l.
Proof.
  revert i j. induction l as [|a t IH]; intros [|i] [|j] Hi Hj; simplify_eq/=.
  - done.
  - by apply insert_Permutation_cons.
  - by apply insert_Permutation_cons.
  - by rewrite (IH i j).
Qed.

Lemma js_get_in_range {A} (array : js_array A) (i : Z) (x : option A) :
  0 ≤ i → array !! Z.to_nat i = Some x → js_get array i = x.
Proof.
  intros Hi Hx. unfold js_get. destruct (Z.ltb_spec i 0); [lia|]. by rewrite Hx.
Qed.

Lemma js_set_in_range {A} (array : js_array A) (i : Z) (v : option A) :
  0 ≤ i < Z.of_nat (length array) → js_set i v array = <[Z.to_nat i := v]> array.
Proof.
  intros Hi. unfold js_set. destruct (Z.ltb_spec i 0); [lia|].
  destruct (Nat.ltb_spec (Z.to_nat i) (length array)); [done | lia].
Qed.

Lemma swapWithRandom_Permutation {A} (u : Q) (i : Z) (array : js_array A) :
  unit_interval u → 0 ≤ i < Z.of_nat (length array) →
  swapWithRandom u i array ≡ₚ array.
Proof.
  intros Hu Hi. unfold swapWithRandom.
  pose proof (randInt_range u i Hu ltac:(lia)) as Hr.
  set (r := randInt u i None) in *.
  destruct (lookup_lt_is_Some_2 array (Z.to_nat i)) as [x Hx]; [lia|].
  destruct (lookup_lt_is_Some_2 array (Z.to_nat r)) as [y Hy]; [lia|].
  rewrite (js_get_in_range array i x), (js_get_in_range array r y) by (done || lia).
  rewrite (js_set_in_range array i) by lia.
  rewrite js_set_in_range by (rewrite length_insert; lia).
  by apply insert_swap_Permutation.
Qed.

Lemma shuffle_from_Permutation {A} (rnd : nat → Q) (i k : nat) (array : js_array A) :
  all_unit rnd → (i < length array)%nat → shuffle_from i k rnd array ≡ₚ array.
Proof.
  intros Hrnd. revert k array. induction i as [|i IH]; intros k array Hi;
    cbn [shuffle_from]; [done|].
  pose proof (swapWithRandom_Permutation (rnd k) (Z.of_nat (S i)) array (Hrnd k)
                ltac:(lia)) as Hp.
  rewrite IH; [done|]. apply Permutation_length in Hp. lia.
Qed.

Lemma shuffle_Permutation {A} (rnd : nat → Q) (array : js_array A) :
  all_unit rnd → shuffle rnd array ≡ₚ array.
Proof.
  intros Hrnd. unfold shuffle. destruct array as [|x array]; [done|].
  apply shuffle_from_Permutation; [done | simpl; lia].
Qed.

Lemma Rev4_shuffle_from_Permutation {A} (rnd : nat → Q) (i k : nat)
    (array : js_array A) :
  all_unit rnd → (i ≤ length array)%nat → Rev4.shuffle_from i k rnd array ≡ₚ array.
Proof.
  intros Hrnd. revert k array. induction i as [|i IH]; intros k array Hi;
    cbn [Rev4.shuffle_from]; [done|].
  pose proof (swapWithRandom_Permutation (rnd k) (Z.of_nat (S i) - 1) array (Hrnd k)
                ltac:(lia)) as Hp.
  rewrite IH; [done|]. apply Permutation_length in Hp. lia.
Qed.

Lemma Rev4_shuffle_Permutation {A} (rnd : nat → Q) (array : js_array A) :
  all_unit rnd → Rev4.shuffle rnd array ≡ₚ array.
Proof. intros Hrnd. by apply Rev4_shuffle_from_Permutation. Qed.

(** An array that is a rearrangement of defined elements holds no
    [undefined]. *)
Lemma defined_Permutation {A} (array : js_array A) (l : list A) :
  array ≡ₚ Some <$> l →
  ∃ l', array = Some <$> l' ∧ l' ≡ₚ l.
Proof.
  intros Hp. exists (omap id array). split.
  - assert (Forall is_Some array) as Hall.
    { rewrite Hp. apply Forall_fmap, Forall_true. by eexists. }
    clear Hp. induction Hall as [|x t [a ->] _ IH]; [done|].
    simpl. f_equal. exact IH.
  - rewrite Hp. clear. induction l as [|a l IH]; [done|]. simpl. by rewrite IH.
Qed.

(** ** Rejected actions *)

Lemma revealTopCardImpl_card_out (u : Q) (s : table) (c : Z) :
  cardCell s = Some c → revealTopCardImpl u s = Thrown (CardStillOut c) s.
Proof.
  intros Hc. unfold revealTopCardImpl, bind, getCurrentCard, gets.
  by rewrite Hc.
Qed.

Lemma revealTopCardImpl_deck_empty (u : Q) (s : table) :
  cardCell s = None → deckProperty s = [] →
  revealTopCardImpl u s = Thrown NoMoreCards s.
Proof.
  intros Hc Hd. unfold revealTopCardImpl, bind, getCurrentCard, getDeck, gets.
  by rewrite Hc, Hd.
Qed.

Lemma takeCard_no_card (opts : options) (u : Q) (s : table) :
  cardCell s = None → takeCard opts u s = Thrown NoCardToTake s.
Proof.
  intros Hc. unfold takeCard, singleEntry, bind, getCurrentCard, gets.
  by rewrite Hc.
Qed.

Lemma noThanks_no_card (s : table) :
  cardCell s = None → noThanks s = Thrown NoCardRevealed s.
Proof.
  intros Hc. unfold noThanks, singleEntry, bind, getCurrentCard, gets.
  by rewrite Hc.
Qed.

Lemma getActivePlayer_ok (s : table) (p : Z) :
  markerRow s = Some p → 0 ≤ p < MAX_PLAYER_COUNT → getActivePlayer s = Done p s.
Proof.
  intros Hm Hp. unfold getActivePlayer. rewrite Hm.
  by rewrite bool_decide_eq_true_2.
Qed.

Lemma readPlayerTokens_ok (s : table) (p z : Z) :
  0 ≤ p → playerTokenCells s !! Z.to_nat p = Some (Some z) →
  readPlayerTokens p s = Done (Some z) s.
Proof.
  intros Hp Hz. unfold readPlayerTokens, gets.
  by rewrite (js_get_in_range _ p (Some z)).
Qed.

Lemma noThanks_no_tokens (s : table) (c p : Z) :
  cardCell s = Some c →
  markerRow s = Some p → 0 ≤ p < MAX_PLAYER_COUNT →
  playerTokenCells s !! Z.to_nat p = Some (Some 0) →
  noThanks s = Thrown (NoTokensLeft p) s.
Proof.
  intros Hc Hm Hp Hz.
  unfold noThanks, singleEntry, bind, getCurrentCard, gets. rewrite Hc.
  rewrite (getActivePlayer_ok s p Hm Hp).
  unfold addTokenToPool, bind. by rewrite (readPlayerTokens_ok s p 0) by (lia || done).
Qed.

(** ** Counting tokens and cards *)

Lemma cellsSum_cons (x : option Z) (cells : list (option Z)) :
  cellsSum (x :: cells) = default 0 x + cellsSum cells.
Proof. reflexivity. Qed.

Lemma cellsSum_insert (cells : list (option Z)) (p : nat) (z v : Z) :
  cells !! p = Some (Some z) →
  cellsSum (<[p := Some v]> cells) = cellsSum cells - z + v.
Proof.
  revert p. induction cells as [|x cells IH]; intros [|p] Hp; simplify_eq/=.
  - rewrite !cellsSum_cons. simpl. lia.
  - rewrite !cellsSum_cons, (IH p Hp). lia.
Qed.

Lemma cellsSum_app (c1 c2 : list (option Z)) :
  cellsSum (c1 ++ c2) = cellsSum c1 + cellsSum c2.
Proof.
  induction c1 as [|x c1 IH]; [done|].
  change ((x :: c1) ++ c2) with (x :: (c1 ++ c2)).
  rewrite !cellsSum_cons, IH. lia.
Qed.

Lemma cellsSum_replicate (n : nat) (v : option Z) :
  cellsSum (replicate n v) = Z.of_nat n * default 0 v.
Proof.
  induction n as [|n IH]; [done|].
  change (replicate (S n) v) with (v :: replicate n v).
  rewrite cellsSum_cons, IH. lia.
Qed.

Lemma rowsCards_insert (rows : list (list card_cell)) (p : nat)
    (row row' : list card_cell) (c : Z) :
  rows !! p = Some row →
  handCards row' ≡ₚ c :: handCards row →
  rowsCards (<[p := row']> rows) ≡ₚ c :: rowsCards rows.
Proof.
  unfold rowsCards. revert p.
  induction rows as [|r rows IH]; intros [|p] Hp Hrow; simplify_eq/=.
  - by rewrite Hrow.
  - rewrite (IH p Hp Hrow). by rewrite Permutation_middle.
Qed.

Lemma filled_not_blank (row : list card_cell) :
  Forall cell_filled row → filter (λ c, c ≠ CellBlank) row = row.
Proof.
  induction 1 as [|c row Hc _ IH]; [done|].
  rewrite filter_cons_True, IH; [done|].
  intros ->. by destruct Hc.
Qed.

Lemma handCards_cons (c : card_cell) (row : list card_cell) (v : Z) :
  cardValue c = Some v → handCards (c :: row) = v :: handCards row.
Proof. intros Hv. unfold handCards. simpl. by rewrite Hv. Qed.

Lemma handCards_app (row1 row2 : list card_cell) :
  handCards (row1 ++ row2) = handCards row1 ++ handCards row2.
Proof. apply omap_app. Qed.

Lemma mapM_cons_Some (c : card_cell) (row : list card_cell) (v : Z) (vs : list Z) :
  cardValue c = Some v → mapM cardValue row = Some vs →
  mapM cardValue (c :: row) = Some (v :: vs).
Proof. intros Hv Hvs. simpl. by rewrite Hv, Hvs. Qed.

Lemma filled_mapM (row : list card_cell) :
  Forall cell_filled row → mapM cardValue row = Some (handCards row).
Proof.
  induction 1 as [|c row [v Hv] _ IH]; [done|].
  rewrite (handCards_cons c row v Hv). by apply mapM_cons_Some.
Qed.

Lemma filled_length (row : list card_cell) :
  Forall cell_filled row → length (handCards row) = length row.
Proof.
  induction 1 as [|c row [v Hv] _ IH]; [done|].
  rewrite (handCards_cons c row v Hv). simpl. by rewrite IH.
Qed.


Lemma runCells_cards (run : list Z) :
  run ≠ [] → Forall card_text_ok run →
  handCards (runCells run) = run ∧ Forall cell_filled (runCells run).
Proof.
  destruct run as [|x rest]; [done|]. intros _ Hall.
  apply Forall_cons in Hall as [_ Hall].
  change (runCells (x :: rest)) with (CellNumber x :: (CellText <$> rest)).
  rewrite (handCards_cons (CellNumber x) _ x eq_refl).
  assert (handCards (CellText <$> rest) = rest
          ∧ Forall cell_filled (CellText <$> rest)) as [H1 H2].
  { induction Hall as [|y rest Hy _ [IH1 IH2]]; [done|].
    assert (cardValue (CellText y) = Some y) as Hv.
    { simpl. by rewrite bool_decide_eq_true_2. }
    change (CellText <$> y :: rest) with (CellText y :: (CellText <$> rest)).
    rewrite (handCards_cons _ _ y Hv), IH1. split; [done|].
    constructor; [by exists y | done]. }
  rewrite H1. split; [done|]. constructor; [by exists x | done].
Qed.

Lemma runs_cards (runs : list (list Z)) :
  Forall is_run runs → Forall card_text_ok (concat runs) →
  handCards (concat (runCells <$> runs)) = concat runs
  ∧ Forall cell_filled (concat (runCells <$> runs)).
Proof.
  induction 1 as [|run runs [Hne _] _ IH]; [done|].
  change (concat (runCells <$> run :: runs))
    with (runCells run ++ concat (runCells <$> runs)).
  change (concat (run :: runs)) with (run ++ concat runs).
  rewrite Forall_app. intros [Hrun Hrest].
  destruct (runCells_cards run Hne Hrun) as [H1 H2].
  destruct (IH Hrest) as [H3 H4]. split.
  - by rewrite handCards_app, H1, H3.
  - by apply Forall_app.
Qed.

(** The row [addCardToPlayer] writes holds the cards of the row and the new
    card. *)
Lemma written_row (values : list Z) (c : Z) :
  Forall card_text_ok (values ++ [c]) →
  let written := concat (runCells <$> groupConsecutiveRuns (values ++ [c])) in
  handCards written ≡ₚ c :: values ∧ Forall cell_filled written.
Proof.
  intros Hok written.
  destruct (groupConsecutiveRuns_exact (values ++ [c]) (card_texts_exact _ Hok))
    as (Hruns & _ & Hcat).
  destruct (runs_cards (groupConsecutiveRuns (values ++ [c])) Hruns) as [H1 H2].
  { rewrite Hcat, sortNumbers_Permutation. done. }
  split; [|done]. unfold written. rewrite H1, Hcat, sortNumbers_Permutation.
  by rewrite Permutation_app_comm.
Qed.

Lemma in_range_text_ok (cards : list Z) :
  Forall (λ v, MIN_CARD ≤ v ≤ MAX_CARD) cards → Forall card_text_ok cards.
Proof.
  intros Hall. eapply Forall_impl; [exact Hall|].
  unfold card_text_ok, MIN_CARD, MAX_CARD. intros v Hv. lia.
Qed.

Lemma cardNumberColor_in_range (cardVal : Z) :
  MIN_CARD ≤ cardVal ≤ MAX_CARD → is_Some (cardNumberColor cardVal).
Proof.
  unfold cardNumberColor, MIN_CARD, MAX_CARD. intros Hc.
  repeat case_bool_decide; try done; lia.
Qed.

Lemma cardNumberColor_outside (cardVal : Z) :
  ¬ (MIN_CARD ≤ cardVal ≤ MAX_CARD) → cardNumberColor cardVal = None.
Proof.
  unfold cardNumberColor, MIN_CARD, MAX_CARD. intros Hc.
  repeat case_bool_decide; try done; lia.
Qed.

(** When every run starts with a card that has a colour, the loop of
    [addCardToPlayer] writes all the runs. *)
Lemma renderRuns_colored (runs : list (list Z)) :
  Forall is_run runs →
  Forall (λ v, MIN_CARD ≤ v ≤ MAX_CARD) (concat runs) →
  renderRuns runs = (concat (runCells <$> runs), None).
Proof.
  induction 1 as [|run runs [Hne _] _ IH]; [done|].
  destruct run as [|first rest]; [done|]. intros Hall.
  change (concat ((first :: rest) :: runs)) with (first :: rest ++ concat runs) in Hall.
  apply Forall_cons in Hall as [Hfirst Hall]. apply Forall_app in Hall as [_ Hall].
  cbn [renderRuns head]. simpl mbind.
  destruct (cardNumberColor_in_range first Hfirst) as [color ->].
  by rewrite (IH Hall).
Qed.

(** The row [addCardToPlayer] writes, cell by cell. *)
Lemma addCardToPlayer_written (s : table) (p c : Z) (row : list card_cell) :
  0 ≤ p →
  playerCardRows s !! Z.to_nat p = Some row →
  Forall cell_filled row →
  (length row < CARD_ROW_WIDTH)%nat →
  Forall (λ v, MIN_CARD ≤ v ≤ MAX_CARD) (handCards row ++ [c]) →
  addCardToPlayer p c s
  = Done tt (with_playerCardRows
               (<[Z.to_nat p := renderHand (handCards row ++ [c])]> (playerCardRows s)) s).
Proof.
  intros Hp Hrow Hfilled Hlen Hrange.
  pose proof (in_range_text_ok _ Hrange) as Hok.
  destruct (written_row (handCards row) c Hok) as [Hw1 Hw2].
  destruct (groupConsecutiveRuns_exact _ (card_texts_exact _ Hok))
    as (Hruns & _ & Hcat).
  unfold addCardToPlayer, cardRow, js_index.
  destruct (Z.ltb_spec p 0); [lia|]. rewrite Hrow. simpl.
  rewrite take_ge by lia. rewrite filled_not_blank, filled_mapM by done.
  rewrite renderRuns_colored; [|done|].
  2:{ rewrite Hcat, sortNumbers_Permutation. done. }
  f_equal. f_equal.
  unfold setCardRow. destruct (Z.ltb_spec p 0); [lia|].
  apply lookup_lt_Some in Hrow.
  destruct (Nat.ltb_spec (Z.to_nat p) (length (playerCardRows s))); [|lia].
  f_equal. rewrite drop_ge; [by rewrite app_nil_r|].
  apply Permutation_length in Hw1. rewrite (filled_length _ Hw2) in Hw1.
  rewrite Hw1. simpl. rewrite filled_length by done. lia.
Qed.

Lemma addCardToPlayer_ok (s : table) (p c : Z) (row : list card_cell) :
  0 ≤ p →
  playerCardRows s !! Z.to_nat p = Some row →
  Forall cell_filled row →
  (length row < CARD_ROW_WIDTH)%nat →
  Forall (λ v, MIN_CARD ≤ v ≤ MAX_CARD) (handCards row ++ [c]) →
  ∃ row',
    addCardToPlayer p c s
    = Done tt (with_playerCardRows (<[Z.to_nat p := row']> (playerCardRows s)) s)
    ∧ handCards row' ≡ₚ c :: handCards row
    ∧ Forall cell_filled row'.
Proof.
  intros Hp Hrow Hfilled Hlen Hrange.
  destruct (written_row (handCards row) c (in_range_text_ok _ Hrange)) as [Hw1 Hw2].
  eexists. split; [|split; [exact Hw1 | exact Hw2]].
  by apply addCardToPlayer_written.
Qed.

(** ** Accepted actions, step by step *)

Lemma tablePool_message (m : message) (s : table) :
  tablePool (with_tokenBox (BoxMessage m) s) = 0.
Proof. by destruct m. Qed.

Lemma tablePool_tokens (n : positive) (s : table) :
  tablePool (with_tokenBox (BoxTokens n) s) = Z.pos n.
Proof. done. Qed.

Lemma tablePool_nonneg (s : table) : 0 ≤ tablePool s.
Proof.
  unfold tablePool, getTokensInPool, gets.
  destruct (tokenBox s) as [|[]|]; simpl; lia.
Qed.

Lemma getTokensInPool_pool (s : table) :
  ∃ pool, getTokensInPool s = Done pool s ∧ default 0 pool = tablePool s.
Proof.
  unfold tablePool, getTokensInPool, gets. by eexists.
Qed.

Lemma with_playerTokenCells_same (s : table) :
  with_playerTokenCells (playerTokenCells s) s = s.
Proof. by destruct s. Qed.

Lemma revealTopCardImpl_ok (u : Q) (s : table) :
  unit_interval u → cardCell s = None → deckProperty s ≠ [] →
  Forall (λ v, MIN_CARD ≤ v ≤ MAX_CARD) (deckProperty s) →
  ∃ c, deckProperty s ≡ₚ c :: remainingDeck (drawCard u (deckProperty s))
       ∧ revealTopCardImpl u s
         = Done tt (with_tokenBox (BoxMessage MSG_TURN)
                      (with_deckProperty (remainingDeck (drawCard u (deckProperty s)))
                         (with_cardCell (Some c) s))).
Proof.
  intros Hu Hc Hd Hrange.
  destruct (drawCard_Permutation u (deckProperty s) Hu Hd) as (c & Hcard & Hp).
  exists c. split; [done|].
  assert (is_Some (cardNumberColor c)) as [color Hcolor].
  { apply cardNumberColor_in_range. rewrite Forall_forall in Hrange.
    apply Hrange. rewrite Hp. by left. }
  unfold revealTopCardImpl, bind, getCurrentCard, getDeck, gets. rewrite Hc.
  rewrite bool_decide_eq_false_2 by (destruct (deckProperty s); [done | simpl; lia]).
  rewrite Hcard. unfold setCurrentCard. by rewrite Hcolor.
Qed.

(** A card without a colour cannot be revealed: the deck keeps it. *)
Lemma revealTopCardImpl_no_color (u : Q) (s : table) (c : Z) :
  cardCell s = None → deckProperty s ≠ [] →
  card (drawCard u (deckProperty s)) = Some c →
  ¬ (MIN_CARD ≤ c ≤ MAX_CARD) →
  revealTopCardImpl u s = Thrown (NoColorDefined (Some c)) s.
Proof.
  intros Hc Hd Hcard Hout.
  unfold revealTopCardImpl, bind, getCurrentCard, getDeck, gets. rewrite Hc.
  rewrite bool_decide_eq_false_2 by (destruct (deckProperty s); [done | simpl; lia]).
  rewrite Hcard. unfold setCurrentCard. by rewrite cardNumberColor_outside.
Qed.

Lemma takeTokensFromPool_ok (s : table) (p z : Z) :
  0 ≤ p → playerTokenCells s !! Z.to_nat p = Some (Some z) →
  takeTokensFromPool p s
  = Done tt (with_tokenBox (BoxMessage MSG_TURN)
               (with_playerTokenCells
                  (<[Z.to_nat p := Some (z + tablePool s)]> (playerTokenCells s)) s)).
Proof.
  intros Hp Hz. unfold takeTokensFromPool, bind.
  destruct (getTokensInPool_pool s) as (pool & -> & Hpool). rewrite Hpool.
  case_bool_decide as Hpos.
  - rewrite (readPlayerTokens_ok s p z Hp Hz).
    unfold writePlayerTokens, modify. simpl fmap. rewrite js_set_in_range; [done|].
    apply lookup_lt_Some in Hz. lia.
  - assert (tablePool s = 0) as -> by (pose proof (tablePool_nonneg s); lia).
    rewrite Z.add_0_r, list_insert_id by done.
    by rewrite with_playerTokenCells_same.
Qed.

Lemma setTokensInPool_succ (pool : Z) (s : table) :
  0 ≤ pool →
  setTokensInPool (pool + 1) s
  = Done tt (with_tokenBox (BoxTokens (Z.to_pos (pool + 1))) s).
Proof. intros Hpool. destruct (pool + 1) eqn:E; try lia. done. Qed.

Lemma addTokenToPool_ok (s : table) (p z : Z) :
  0 ≤ p → playerTokenCells s !! Z.to_nat p = Some (Some z) → z ≠ 0 →
  addTokenToPool p s
  = Done tt (with_tokenBox (BoxTokens (Z.to_pos (tablePool s + 1)))
               (with_playerTokenCells
                  (<[Z.to_nat p := Some (z - 1)]> (playerTokenCells s)) s)).
Proof.
  intros Hp Hz Hne. unfold addTokenToPool, bind.
  rewrite (readPlayerTokens_ok s p z Hp Hz).
  rewrite bool_decide_eq_false_2 by congruence.
  unfold writePlayerTokens, modify. simpl fmap. rewrite js_set_in_range
    by (apply lookup_lt_Some in Hz; lia).
  match goal with |- context [getTokensInPool ?s'] =>
    destruct (getTokensInPool_pool s') as (pool & -> & Hpool) end.
  rewrite Hpool. change (tablePool (with_playerTokenCells _ s)) with (tablePool s).
  apply setTokensInPool_succ, tablePool_nonneg.
Qed.

Lemma advanceActivePlayer_ok (s : table) (p : Z) :
  markerRow s = Some p → 0 ≤ p < MAX_PLAYER_COUNT → playerCount s ≠ 0 →
  advanceActivePlayer s
  = Done tt (with_markerRow (Some (Z.rem (p + 1) (playerCount s))) s).
Proof.
  intros Hm Hp Hn. unfold advanceActivePlayer, bind.
  rewrite (getActivePlayer_ok s p Hm Hp). unfold getPlayerCount, gets.
  by rewrite bool_decide_eq_false_2.
Qed.

(** On the sheet of a table the script counts the names that are not empty. *)
Lemma playerCount_names (players : list string) (names : list string) :
  (length players ≤ 7)%nat →
  names = players ++ replicate (Z.to_nat MAX_PLAYER_COUNT - length players) "" →
  length (filter (λ name, name ≠ "") (take (Z.to_nat MAX_PLAYER_COUNT) names))
  = length (filter (λ name, name ≠ "") players).
Proof.
  intros Hlen ->. rewrite take_ge.
  2:{ rewrite length_app, length_replicate.
      change (Z.to_nat MAX_PLAYER_COUNT) with 7%nat. lia. }
  rewrite filter_app. generalize (Z.to_nat MAX_PLAYER_COUNT - length players)%nat.
  intros k. replace (filter (λ name, name ≠ "") (replicate k "")) with (@nil string).
  - by rewrite app_nil_r.
  - induction k as [|k IH]; [done|]. simpl. by rewrite filter_cons_False by naive_solver.
Qed.

Lemma some_name_count (players : list string) :
  some_name players →
  (0 < length (filter (λ name, name ≠ "") players) ≤ length players)%nat.
Proof.
  intros Hex. split; [|apply length_filter].
  apply Exists_exists in Hex as (name & Hin & Hne).
  assert (name ∈ filter (λ name, name ≠ "") players) as Hf
    by by apply list_elem_of_filter.
  destruct (filter _ players); [by apply not_elem_of_nil in Hf | simpl; lia].
Qed.

(** ** What a script leaves alone *)

Lemma preserves_ret {A B} (field : table → B) (a : A) : preserves field (ret a).
Proof. done. Qed.

Lemma preserves_throw {A B} (field : table → B) (e : error) :
  preserves field (throw (A:=A) e).
Proof. done. Qed.

Lemma preserves_gets {A B} (field : table → B) (f : table → A) :
  preserves field (gets f).
Proof. done. Qed.

Lemma preserves_call {A B} (field : table → B) (r : error + A) :
  preserves field (call r).
Proof. by destruct r. Qed.

Lemma preserves_modify {B} (field : table → B) (f : table → table) :
  (∀ s, field (f s) = field s) → preserves field (modify f).
Proof. intros Hf s. apply Hf. Qed.

Lemma preserves_bind {A A' B} (field : table → B) (c : script A) (k : A → script A') :
  preserves field c → (∀ a, preserves field (k a)) → preserves field (bind c k).
Proof.
  intros Hc Hk s. unfold bind. specialize (Hc s).
  destruct (c s) as [a s'|e s']; simpl in *; [|done].
  by rewrite (Hk a s').
Qed.

Ltac preserves_step :=
  first
    [ apply preserves_bind; [|intros ?]
    | apply preserves_ret
    | apply preserves_throw
    | apply preserves_gets
    | apply preserves_call
    | apply preserves_modify; by intros []
    | case_match ].

Lemma getActivePlayer_preserves {B} (field : table → B) :
  preserves field getActivePlayer.
Proof. intros s. unfold getActivePlayer. by repeat case_match. Qed.

Lemma readPlayerTokens_preserves {B} (field : table → B) (p : Z) :
  preserves field (readPlayerTokens p).
Proof. apply preserves_gets. Qed.

Lemma setTokensInPool_marker (tokens : Z) : preserves markerRow (setTokensInPool tokens).
Proof.
  unfold setTokensInPool, setInstructionsMessage. repeat preserves_step.
Qed.

Lemma revealTopCardImpl_marker (u : Q) : preserves markerRow (revealTopCardImpl u).
Proof.
  unfold revealTopCardImpl, getCurrentCard, getDeck, setCurrentCard, setDeck.
  repeat first [ apply setTokensInPool_marker | preserves_step ].
Qed.




Lemma addTokenToPool_preserves {B} (field : table → B) (p : Z) :
  (∀ v s, field (with_playerTokenCells v s) = field s) →
  (∀ v s, field (with_tokenBox v s) = field s) →
  preserves field (addTokenToPool p).
Proof.
  intros Hcells Hbox.
  unfold addTokenToPool, writePlayerTokens, getTokensInPool, setTokensInPool,
    setInstructionsMessage.
  repeat first [ apply readPlayerTokens_preserves
               | apply preserves_modify; intros; by rewrite ?Hcells, ?Hbox
               | preserves_step ].
Qed.

(** No action writes a name. *)
Lemma perform_names (opts : options) (a : action) :
  preserves playerNames (perform opts a).
Proof.
  assert (∀ tokens, preserves playerNames (setTokensInPool tokens)) as Hpool.
  { intros tokens. unfold setTokensInPool, setInstructionsMessage.
    repeat preserves_step. }
  assert (∀ u, preserves playerNames (revealTopCardImpl u)) as Hreveal.
  { intros u. unfold revealTopCardImpl, getCurrentCard, getDeck, setCurrentCard,
      setDeck.
    repeat first [ apply Hpool | preserves_step ]. }
  assert (∀ p c, preserves playerNames (addCardToPlayer p c)) as Hadd.
  { intros p c s. unfold addCardToPlayer. by repeat case_match. }
  assert (∀ p, preserves playerNames (takeTokensFromPool p)) as Htake.
  { intros p. unfold takeTokensFromPool, getTokensInPool, writePlayerTokens.
    repeat first [ apply readPlayerTokens_preserves | apply Hpool | preserves_step ]. }
  destruct a as [u|u|]; simpl.
  - apply Hreveal.
  - unfold takeCard, singleEntry, getCurrentCard, setCurrentCard, getDeck,
      enableDeck, setInstructionsMessage.
    repeat first [ apply getActivePlayer_preserves | apply Hadd | apply Htake
                 | apply Hreveal | preserves_step ].
  - unfold noThanks, singleEntry, getCurrentCard, advanceActivePlayer,
      getPlayerCount, setActivePlayer.
    repeat first [ apply getActivePlayer_preserves
                 | apply addTokenToPool_preserves; done
                 | preserves_step ].
Qed.


(** ** What every table of a game satisfies *)

Section Game.
Context (opts : options) (players : list string) (deck0 : list Z).
Hypothesis players_count : (3 ≤ length players ≤ 7)%nat.
Hypothesis players_named : some_name players.
Hypothesis deck0_range : ∀ c, c ∈ deck0 → MIN_CARD ≤ c ≤ MAX_CARD.
Hypothesis deck0_length : length deck0 = 24%nat.

Lemma inv_playerCount (s : table) :
  game_inv players deck0 s → 0 < playerCount s ≤ Z.of_nat (length players).
Proof.
  intros Hinv. unfold playerCount.
  rewrite (playerCount_names players) by (lia || apply Hinv).
  pose proof (some_name_count players players_named). lia.
Qed.

(** The cards in play are cards with a colour. *)
Lemma inv_deck_range (s : table) :
  game_inv players deck0 s →
  Forall (λ v, MIN_CARD ≤ v ≤ MAX_CARD) (deckProperty s).
Proof.
  intros Hinv. apply Forall_forall. intros v Hv. apply deck0_range.
  rewrite <- (gi_cards _ _ _ Hinv). unfold cardsInPlay. rewrite elem_of_app. auto.
Qed.

Lemma inv_revealed (u : Q) (s : table) :
  unit_interval u → game_inv players deck0 s →
  game_inv players deck0 (table_after (revealTopCardImpl u s)).
Proof.
  intros Hu Hinv. destruct (cardCell s) as [c|] eqn:Hc.
  { by rewrite (revealTopCardImpl_card_out u s c Hc). }
  destruct (decide (deckProperty s = [])) as [Hd|Hd].
  { by rewrite (revealTopCardImpl_deck_empty u s Hc Hd). }
  destruct (revealTopCardImpl_ok u s Hu Hc Hd (inv_deck_range s Hinv))
    as (c & Hp & ->).
  revert Hp. generalize (remainingDeck (drawCard u (deckProperty s))).
  intros rest Hp. simpl.
  destruct Hinv as [H1 H2 H3 H4 H5 H6 H7 H8]. split; simpl; try done.
  - rewrite <- H1. unfold cardsInPlay. simpl. rewrite Hc, Hp. simpl.
    by rewrite Permutation_middle.
  - rewrite <- H4, (H8 Hc), tablePool_message. done.
Qed.

Lemma inv_message (m : message) (s : table) :
  game_inv players deck0 s → tablePool s = 0 →
  game_inv players deck0 (with_tokenBox (BoxMessage m) s).
Proof.
  intros [H1 H2 H3 H4 H5 H6 H7 H8] Hpool. split; simpl; try done.
  - rewrite tablePool_message. rewrite <- H4, Hpool. done.
  - intros _. apply tablePool_message.
Qed.

Lemma inv_enableDeck (u : Q) (s : table) :
  unit_interval u → game_inv players deck0 s → tablePool s = 0 →
  game_inv players deck0 (table_after (enableDeck opts u s)).
Proof.
  intros Hu Hinv Hpool. unfold enableDeck. destruct (AUTO_REVEAL_NEXT_CARD opts).
  - by apply inv_revealed.
  - by apply inv_message.
Qed.

Lemma inv_row (s : table) (p : Z) :
  game_inv players deck0 s → 0 ≤ p < Z.of_nat (length players) →
  ∃ row, playerCardRows s !! Z.to_nat p = Some row
         ∧ Forall cell_filled row
         ∧ (∀ v, v ∈ handCards row → v ∈ deck0)
         ∧ (length row + length (option_list (cardCell s)) ≤ 24)%nat.
Proof.
  intros Hinv Hp.
  destruct (lookup_lt_is_Some_2 (playerCardRows s) (Z.to_nat p)) as [row Hrow].
  { rewrite (gi_rows_length _ _ _ Hinv).
    change (Z.to_nat MAX_PLAYER_COUNT) with 7%nat. lia. }
  exists row. split; [done|].
  assert (Forall cell_filled row) as Hfilled.
  { eapply Forall_lookup_1; [apply (gi_rows _ _ _ Hinv) | done]. }
  assert (∃ c1 c2, rowsCards (playerCardRows s) = c1 ++ handCards row ++ c2)
    as (c1 & c2 & Hsplit).
  { apply list_elem_of_lookup_2 in Hrow.
    apply list_elem_of_split in Hrow as (r1 & r2 & ->).
    exists (rowsCards r1), (rowsCards r2).
    unfold rowsCards. by rewrite fmap_app, concat_app. }
  split; [done|]. split.
  - intros v Hv. rewrite <- (gi_cards _ _ _ Hinv). unfold cardsInPlay.
    rewrite Hsplit, !elem_of_app. auto.
  - pose proof (Permutation_length (gi_cards _ _ _ Hinv)) as Hl.
    unfold cardsInPlay in Hl. rewrite Hsplit, !length_app in Hl.
    rewrite filled_length in Hl by done. lia.
Qed.
(** On a table of a game [takeCard] goes through whenever a card is out. *)
Lemma takeCard_ok (u : Q) (s : table) (c : Z) :
  unit_interval u → game_inv players deck0 s → cardCell s = Some c →
  ∃ s', takeCard opts u s = Done tt s' ∧ game_inv players deck0 s'.
Proof.
  intros Hu Hinv Hc.
  destruct (gi_marker _ _ _ Hinv) as (p & Hm & Hp).
  destruct (gi_cells _ _ _ Hinv (Z.to_nat p)) as [z Hz]; [lia|].
  destruct (inv_row s p Hinv Hp) as (row & Hrow & Hfilled & Hin & Hlen).
  rewrite Hc in Hlen. simpl in Hlen.
  assert (c ∈ deck0) as Hcin.
  { rewrite <- (gi_cards _ _ _ Hinv). unfold cardsInPlay. rewrite Hc.
    rewrite !elem_of_app. right. left. simpl. by left. }
  assert (Forall (λ v, MIN_CARD ≤ v ≤ MAX_CARD) (handCards row ++ [c])) as Hok.
  { apply Forall_app. split.
    - apply Forall_forall. intros v Hv. by apply deck0_range, Hin.
    - repeat constructor; by apply deck0_range. }
  set (s1 := with_cardCell None s).
  destruct (addCardToPlayer_ok s1 p c row) as (row' & Hadd & Hrow' & Hfilled');
    [lia | done | done | unfold CARD_ROW_WIDTH; lia | done |].
  set (s2 := with_playerCardRows (<[Z.to_nat p := row']> (playerCardRows s1)) s1) in *.
  pose proof (takeTokensFromPool_ok s2 p z ltac:(lia) Hz) as Htake.
  set (s3 := with_tokenBox (BoxMessage MSG_TURN)
               (with_playerTokenCells
                  (<[Z.to_nat p := Some (z + tablePool s2)]> (playerTokenCells s2)) s2))
    in *.
  assert (game_inv players deck0 s3) as Hinv3.
  { destruct Hinv as [H1 H2 H3 H4 H5 H6 H7 H8]. split.
    - rewrite <- H1. unfold cardsInPlay. simpl. rewrite Hc. simpl.
      by rewrite (rowsCards_insert _ _ row row' c Hrow Hrow').
    - simpl. apply Forall_insert; done.
    - simpl. by rewrite length_insert.
    - rewrite <- H4. unfold s3. rewrite tablePool_message.
      change (tablePool s2) with (tablePool s).
      unfold tokensHeld. simpl. rewrite (cellsSum_insert _ _ z _ Hz). lia.
    - intros i Hi. simpl. destruct (decide (i = Z.to_nat p)) as [->|Hne].
      + eexists. apply list_lookup_insert_eq. by apply lookup_lt_Some in Hz.
      + rewrite list_lookup_insert_ne by done. by apply H5.
    - by exists p.
    - done.
    - intros _. apply tablePool_message. }
  assert (takeCard opts u s
          = (if bool_decide (0 < length (deckProperty s))%nat
             then enableDeck opts u s3
             else setInstructionsMessage MSG_END_GAME s3)) as ->.
  { unfold takeCard, singleEntry, bind at 1, getCurrentCard, gets. rewrite Hc.
    unfold bind at 1, setCurrentCard, modify. fold s1.
    unfold bind at 1. rewrite (getActivePlayer_ok s1 p Hm) by (unfold MAX_PLAYER_COUNT; lia).
    unfold bind at 1. rewrite Hadd. unfold bind at 1. rewrite Htake.
    unfold bind, getDeck, gets.
    change (deckProperty s3) with (deckProperty s). by case_bool_decide. }
  case_bool_decide as Hdeck.
  - pose proof (inv_enableDeck u s3 Hu Hinv3
                  (tablePool_message _ _)) as Hinv4.
    unfold enableDeck in *. destruct (AUTO_REVEAL_NEXT_CARD opts).
    + destruct (revealTopCardImpl_ok u s3 Hu eq_refl) as (c' & _ & Hr).
      { simpl. destruct (deckProperty s); [simpl in Hdeck; lia | done]. }
      { by apply inv_deck_range. }
      rewrite Hr in *. by eexists.
    + by eexists.
  - eexists. split; [done|]. apply inv_message; [done|]. apply tablePool_message.
Qed.

Lemma inv_taken (u : Q) (s : table) :
  unit_interval u → game_inv players deck0 s →
  game_inv players deck0 (table_after (takeCard opts u s)).
Proof.
  intros Hu Hinv. destruct (cardCell s) as [c|] eqn:Hc.
  - destruct (takeCard_ok u s c Hu Hinv Hc) as (s' & -> & Hinv'). done.
  - by rewrite (takeCard_no_card opts u s Hc).
Qed.

(** On a table of a game [noThanks] goes through whenever a card is out
    and the active player holds a token. *)
Lemma noThanks_ok (s : table) (c p z : Z) :
  game_inv players deck0 s → cardCell s = Some c →
  markerRow s = Some p →
  playerTokenCells s !! Z.to_nat p = Some (Some z) → z ≠ 0 →
  ∃ s', noThanks s = Done tt s' ∧ game_inv players deck0 s'.
Proof.
  intros Hinv Hc Hm Hz Hne.
  destruct (gi_marker _ _ _ Hinv) as (p' & Hm' & Hp).
  assert (p' = p) as -> by congruence.
  assert (0 ≤ p < MAX_PLAYER_COUNT) as Hp7 by (unfold MAX_PLAYER_COUNT; lia).
  pose proof (addTokenToPool_ok s p z ltac:(lia) Hz Hne) as Hadd.
  set (s2 := with_tokenBox (BoxTokens (Z.to_pos (tablePool s + 1)))
               (with_playerTokenCells
                  (<[Z.to_nat p := Some (z - 1)]> (playerTokenCells s)) s)) in *.
  pose proof (inv_playerCount s Hinv) as Hcount.
  pose proof (advanceActivePlayer_ok s2 p Hm Hp7) as Hadv.
  change (playerCount s2) with (playerCount s) in Hadv.
  eexists. split.
  { unfold noThanks, singleEntry, bind at 1, getCurrentCard, gets. rewrite Hc.
    unfold bind at 1. rewrite (getActivePlayer_ok s p Hm Hp7).
    unfold bind. rewrite Hadd. apply Hadv. lia. }
  destruct Hinv as [H1 H2 H3 H4 H5 H6 H7 H8]. split.
  - done.
  - done.
  - done.
  - rewrite <- H4. unfold tokensHeld. simpl.
    rewrite (cellsSum_insert _ _ z _ Hz).
    change (tablePool (with_markerRow _ s2)) with (tablePool s2).
    unfold s2. rewrite tablePool_tokens.
    pose proof (tablePool_nonneg s). lia.
  - intros i Hi. simpl. destruct (decide (i = Z.to_nat p)) as [->|Hneq].
    + eexists. apply list_lookup_insert_eq. by apply lookup_lt_Some in Hz.
    + rewrite list_lookup_insert_ne by done. by apply H5.
  - eexists. split; [done|].
    pose proof (Z.rem_bound_pos (p + 1) (playerCount s)). lia.
  - done.
  - simpl. by rewrite Hc.
Qed.

Lemma inv_declined (s : table) :
  game_inv players deck0 s → game_inv players deck0 (table_after (noThanks s)).
Proof.
  intros Hinv. destruct (cardCell s) as [c|] eqn:Hc.
  2:{ by rewrite (noThanks_no_card s Hc). }
  destruct (gi_marker _ _ _ Hinv) as (p & Hm & Hp).
  destruct (gi_cells _ _ _ Hinv (Z.to_nat p)) as [z Hz]; [lia|].
  destruct (decide (z = 0)) as [->|Hne].
  - rewrite (noThanks_no_tokens s c p Hc Hm) by (done || unfold MAX_PLAYER_COUNT; lia).
    done.
  - destruct (noThanks_ok s c p z Hinv Hc Hm Hz Hne) as (s' & -> & Hinv'). done.
Qed.

(** Every user action keeps the table a table of the game. *)
Lemma inv_action (a : action) (s : table) :
  action_random a → game_inv players deck0 s →
  game_inv players deck0 (table_after (perform opts a s)).
Proof.
  destruct a as [u|u|]; simpl; intros Hu Hinv.
  - by apply inv_revealed.
  - by apply inv_taken.
  - by apply inv_declined.
Qed.
End Game.

(** ** Dealing tokens and starting a game *)

Lemma tokensPerPlayer_outside (n : Z) :
  ¬ (3 ≤ n ≤ 7) → tokensPerPlayer n = inl (UnsupportedPlayerCount n).
Proof.
  intros Hn. unfold tokensPerPlayer. destruct n as [|p|p]; try reflexivity.
  destruct p as [[[p|p|]|[p|p|]|]|[[p|p|]|[p|p|]|]|]; try reflexivity; lia.
Qed.

Lemma tokensPerPlayer_inside (n : Z) :
  3 ≤ n ≤ 7 →
  tokensPerPlayer n = inr (if bool_decide (n ≤ 5) then 11
                           else if bool_decide (n = 6) then 9 else 7).
Proof.
  intros Hn.
  assert (n = 3 ∨ n = 4 ∨ n = 5 ∨ n = 6 ∨ n = 7) as Hcases by lia.
  destruct Hcases as [->|[->|[->|[->| ->]]]]; reflexivity.
Qed.

Lemma dealTokens_outside (n : Z) (s : table) :
  ¬ (3 ≤ n ≤ 7) → dealTokens n s = Thrown (UnsupportedPlayerCount n) s.
Proof.
  intros Hn. unfold dealTokens, bind. by rewrite tokensPerPlayer_outside.
Qed.

Lemma dealTokens_inside (n : Z) (s : table) :
  3 ≤ n ≤ 7 →
  ∃ tokens,
    tokensPerPlayer n = inr tokens
    ∧ dealTokens n s
      = Done tt (with_playerTokenCells
                   (replicate (Z.to_nat n) (Some tokens)
                    ++ drop (Z.to_nat n) (playerTokenCells s)) s).
Proof.
  intros Hn. eexists. split; [by apply tokensPerPlayer_inside|].
  unfold dealTokens, bind. by rewrite tokensPerPlayer_inside.
Qed.

Lemma setStartingPlayer_ok (opts : options) (u : Q) (answer : start_answer)
    (players : list string) (s s' : table) (p : Z) :
  unit_interval u → players ≠ [] →
  setStartingPlayer opts u answer players s = Done p s' →
  s' = s ∧ 0 ≤ p < Z.of_nat (length players).
Proof.
  intros Hu Hne.
  assert (0 ≤ randInt u (Z.of_nat (length players) - 1) None
          < Z.of_nat (length players)) as Hr.
  { pose proof (randInt_range u (Z.of_nat (length players) - 1) Hu) as Hr.
    destruct players; [done|]. simpl in *. lia. }
  unfold setStartingPlayer.
  destruct (PICK_START_PLAYER opts); [destruct answer as [|[n|]]|].
  - intros [= <- <-]. done.
  - simpl. case_bool_decide; [|done]. intros [= <- <-]. done.
  - done.
  - intros [= <- <-]. done.
Qed.

Lemma rowsCards_blank (n : nat) : rowsCards (replicate n []) = [].
Proof. induction n as [|n IH]; [done|]. exact IH. Qed.

(** The table [newGame] leaves is a table of the game. *)
Lemma newGame_inv (opts : options) (rnd : nat → Q) (answer : start_answer)
    (oldDeck : list Z) (players : list string) (s : table) :
  all_unit rnd →
  newGame opts rnd answer players (renderNewTable oldDeck players) = Done tt s →
  (3 ≤ length players ≤ 7)%nat ∧ game_inv players (newDeck opts rnd) s.
Proof.
  intros Hrnd. unfold newGame, bind at 1, setDeck, modify.
  set (s1 := with_deckProperty (newDeck opts rnd) (renderNewTable oldDeck players)).
  unfold bind at 1.
  destruct (decide (3 ≤ Z.of_nat (length players) ≤ 7)) as [Hn|Hn].
  2:{ by rewrite dealTokens_outside. }
  destruct (dealTokens_inside _ s1 Hn) as (tokens & Htokens & ->).
  set (s2 := with_playerTokenCells _ s1).
  unfold bind at 1.
  destruct (setStartingPlayer opts _ answer players s2) as [p s2'|] eqn:Hstart; [|done].
  apply setStartingPlayer_ok in Hstart as [-> Hp];
    [|done|by destruct players].
  unfold bind at 1, setActivePlayer, modify.
  set (s3 := with_markerRow (Some p) s2). intros Hdone.
  split; [lia|].
  assert (game_inv players (newDeck opts rnd) s3) as Hinv3.
  { split.
    - unfold cardsInPlay.
      change (playerCardRows s3)
        with (replicate (Z.to_nat MAX_PLAYER_COUNT) (@nil card_cell)).
      rewrite rowsCards_blank. simpl. by rewrite app_nil_r.
    - simpl. repeat constructor.
    - done.
    - unfold totalTokensDealt. rewrite Htokens. unfold tokensHeld.
      change (tablePool s3) with 0.
      change (playerTokenCells s3)
        with (replicate (Z.to_nat (Z.of_nat (length players))) (Some tokens)
              ++ drop (Z.to_nat (Z.of_nat (length players)))
                   (replicate (Z.to_nat MAX_PLAYER_COUNT) None)).
      rewrite cellsSum_app, cellsSum_replicate, drop_replicate, cellsSum_replicate.
      simpl. lia.
    - intros i Hi. exists tokens.
      change (playerTokenCells s3)
        with (replicate (Z.to_nat (Z.of_nat (length players))) (Some tokens)
              ++ drop (Z.to_nat (Z.of_nat (length players)))
                   (replicate (Z.to_nat MAX_PLAYER_COUNT) None)).
      rewrite lookup_app_l by (rewrite length_replicate; lia).
      apply lookup_replicate_2. lia.
    - by exists p.
    - done.
    - done. }
  assert (game_inv players (newDeck opts rnd) (table_after (Done tt s))) as Hinv;
    [|done].
  rewrite <- Hdone. apply inv_enableDeck; try done.
  intros c. by apply newDeck_in_range.
Qed.

(** Every table of a game is a table of the game in the sense above. *)
Lemma reachable_inv (opts : options) (players : list string) (deck0 : list Z)
    (s : table) :
  some_name players → reachable opts players deck0 s →
  (3 ≤ length players ≤ 7)%nat
  ∧ length deck0 = 24%nat
  ∧ NoDup deck0
  ∧ (∀ c, c ∈ deck0 → MIN_CARD ≤ c ≤ MAX_CARD)
  ∧ game_inv players deck0 s.
Proof.
  intros Hnamed. induction 1 as [rnd answer oldDeck s Hrnd -> Hnew|s a _ IH Ha].
  - destruct (newGame_inv _ _ _ _ _ _ Hrnd Hnew) as [Hn Hinv].
    split; [exact Hn|]. split; [apply (newDeck_spec opts rnd Hrnd)|].
    split; [by apply newDeck_NoDup|].
    split; [intros c; by apply newDeck_in_range | done].
  - destruct IH as (Hn & Hlen & Hnd & Hrange & Hinv).
    repeat (split; [assumption|]). by apply inv_action.
Qed.

(** The names of a game stand on all its tables, and [getPlayerCount]
    counts those that are not blank. *)
Lemma reachable_names (opts : options) (players : list string) (deck0 : list Z)
    (s : table) :
  reachable opts players deck0 s →
  (3 ≤ length players ≤ 7)%nat
  ∧ playerNames s
    = players ++ replicate (Z.to_nat MAX_PLAYER_COUNT - length players) "".
Proof.
  induction 1 as [rnd answer oldDeck s Hrnd -> Hnew|s a _ IH Ha].
  - destruct (newGame_inv _ _ _ _ _ _ Hrnd Hnew) as [Hn Hinv].
    split; [exact Hn | apply Hinv].
  - destruct IH as [Hn Hnames]. split; [exact Hn|]. by rewrite perform_names.
Qed.



(** ** Hands and counts on the tables of a game *)


(** * The properties of the specification *)


Lemma example_rnd_unit : all_unit example_rnd.
Proof. intros k. exact half_unit. Qed.

Lemma example_table_reachable :
  reachable OPTIONS example_players (newDeck OPTIONS example_rnd) example_table.
Proof.
  apply (reachable_newGame OPTIONS example_players _ example_rnd RandomPick []).
  - apply example_rnd_unit.
  - reflexivity.
  - vm_compute. reflexivity.
Qed.

Lemma example_players_named : some_name example_players.
Proof. by left. Qed.







(** C3. [dealTokens] gives each of the players 11 tokens when they are 3, 4
    or 5, 9 tokens when they are 6 and 7 tokens when they are 7; for every
    other player count it throws "Unsupported player count" and writes
    nothing, so [dealTokens(2)] fails. *)
Theorem dealTokens_by_count (n : Z) (s : table) :
  (3 ≤ n ≤ 5 → deals n s 11)
  ∧ (n = 6 → deals n s 9)
  ∧ (n = 7 → deals n s 7)
  ∧ (¬ (3 ≤ n ≤ 7) → dealTokens n s = Thrown (UnsupportedPlayerCount n) s)
  ∧ dealTokens 2 s = Thrown (UnsupportedPlayerCount 2) s.
Proof.
  assert (∀ tokens, 3 ≤ n ≤ 7 →
            tokensPerPlayer n = inr tokens → deals n s tokens) as Hdeals.
  { intros tokens Hn Htokens.
    destruct (dealTokens_inside n s Hn) as (tokens' & Htokens' & Hdeal).
    assert (tokens' = tokens) as -> by congruence.
    eexists. split; [exact Hdeal|]. intros i Hi. simpl.
    apply js_get_in_range; [lia|].
    rewrite lookup_app_l by (rewrite length_replicate; lia).
    apply lookup_replicate_2. lia. }
  split_and!.
  - intros Hn. apply Hdeals; [lia|]. rewrite tokensPerPlayer_inside by lia.
    rewrite bool_decide_eq_true_2 by lia. done.
  - intros ->. by apply Hdeals.
  - intros ->. by apply Hdeals.
  - apply dealTokens_outside.
  - apply dealTokens_outside. lia.
Qed.

Lemma dealTokens_by_count_witness :
  deals 5 (renderNewTable [] example_players) 11
  ∧ deals 6 (renderNewTable [] example_players) 9
  ∧ deals 7 (renderNewTable [] example_players) 7
  ∧ dealTokens 8 (renderNewTable [] example_players)
    = Thrown (UnsupportedPlayerCount 8) (renderNewTable [] example_players).
Proof.
  split_and!.
  - apply (dealTokens_by_count 5). lia.
  - by apply (dealTokens_by_count 6).
  - by apply (dealTokens_by_count 7).
  - apply (dealTokens_by_count 8). lia.
Defined.

(** [drawCard] as all revisions but [Rev2] word it (lines 2418-2429,
    142-153): on a deck of [n >= 1] cards the index is one of [0 .. n-1], the
    card at the index is returned, and the deck that remains is the deck
    without that position, [n - 1] cards long. *)
Lemma drawCard_correct (u : Q) (deck : list Z) :
  unit_interval u → deck ≠ [] →
  ∃ (i : nat) (c : Z),
    (i < length deck)%nat
    ∧ randInt u (Z.of_nat (length deck) - 1) None = Z.of_nat i
    ∧ deck !! i = Some c
    ∧ card (drawCard u deck) = Some c
    ∧ remainingDeck (drawCard u deck) = delete i deck
    ∧ S (length (remainingDeck (drawCard u deck))) = length deck
    ∧ c ∈ deck.
Proof.
  intros Hu Hne.
  destruct (drawCard_spec u deck Hu Hne) as (i & c & Hi & Hc & Hcard & Hrest).
  exists i, c. split_and!; try done.
  - by apply lookup_lt_Some in Hc.
  - by apply drawCard_length.
  - by eapply list_elem_of_lookup_2.
Qed.

(** C4. [drawCard] draws an index of the deck, returns the card there and
    the deck without it: so it is in every revision but one
    ([drawCard_correct]).  The [drawCard] of lines 614-625 asks [randInt] for
    a number up to [deck.length], not [deck.length - 1]: with [Math.random()]
    at 0.9 (the double the literal stands for) and a deck of three cards the
    index is 3, one past the end, the card returned is [undefined] and the
    deck keeps its three cards. *)
Theorem Rev2_drawCard_past_end :
  unit_interval (double (9 # 10))
  ∧ randInt (double (9 # 10)) (Z.of_nat (length [3; 4; 5])) None = 3
  ∧ Rev2.drawCard (double (9 # 10)) [3; 4; 5]
    = {| card := None; remainingDeck := [3; 4; 5] |}.
Proof. split_and!; [unit_by_computation | vm_compute; reflexivity..]. Qed.

(** The same slip for any deck: a random number of the last [1/(n+1)] of the
    unit interval draws nothing. *)
Lemma Rev2_drawCard_slip (u : Q) (deck : list Z) :
  randInt u (Z.of_nat (length deck)) None = Z.of_nat (length deck) →
  Rev2.drawCard u deck = {| card := None; remainingDeck := deck |}.
Proof.
  intros Hr. unfold Rev2.drawCard. rewrite Hr. f_equal.
  - unfold js_index. destruct (Z.ltb_spec (Z.of_nat (length deck)) 0); [done|].
    rewrite Nat2Z.id. by apply lookup_ge_None.
  - by apply splice1_past_end.
Qed.

(** C5. When the active player holds no token and a card is out, [noThanks]
    throws "... doesn't have any tokens left!" and the table it leaves is the
    table it found: token cells, token box, card, deck and marker are as
    before. *)
Theorem noThanks_without_tokens (s : table) (c p : Z) :
  cardCell s = Some c →
  getActivePlayer s = Done p s →
  readPlayerTokens p s = Done (Some 0) s →
  noThanks s = Thrown (NoTokensLeft p) s.
Proof.
  intros Hc Hp Hz.
  unfold noThanks, singleEntry, bind, getCurrentCard, gets. rewrite Hc, Hp.
  unfold addTokenToPool, bind. by rewrite Hz.
Qed.

Lemma noThanks_without_tokens_witness :
  cardCell example_broke = Some 24
  ∧ getActivePlayer example_broke = Done 2 example_broke
  ∧ readPlayerTokens 2 example_broke = Done (Some 0) example_broke
  ∧ noThanks example_broke = Thrown (NoTokensLeft 2) example_broke.
Proof.
  assert (cardCell example_broke = Some 24) as Hc by (vm_compute; reflexivity).
  assert (getActivePlayer example_broke = Done 2 example_broke) as Hp
    by (vm_compute; reflexivity).
  assert (readPlayerTokens 2 example_broke = Done (Some 0) example_broke) as Hz
    by (vm_compute; reflexivity).
  split; [exact Hc|]. split; [exact Hp|]. split; [exact Hz|].
  exact (noThanks_without_tokens example_broke 24 2 Hc Hp Hz).
Defined.




(** C7. On an ascending sequence of distinct integers from [- 2^53] to
    [2^53] [groupConsecutiveRuns] yields runs that are not empty and in which
    every element is the one before plus one; no run can be joined with the
    next (the next does not start one above the end of the run), so the runs
    are maximal; and the runs, one after the other, are the sequence
    itself. *)
Theorem groupConsecutiveRuns_partition (numbers : list Z) :
  Sorted Z.lt numbers →
  Forall (λ num, - 2 ^ 53 ≤ num ≤ 2 ^ 53) numbers →
  Forall is_run (groupConsecutiveRuns numbers)
  ∧ not_mergeable (groupConsecutiveRuns numbers)
  ∧ concat (groupConsecutiveRuns numbers) = numbers.
Proof.
  intros Hsorted Hsmall.
  assert (sortNumbers numbers = numbers) as Hsame
    by (apply sortNumbers_unique; [by apply Sorted_lt_le | done]).
  assert (Forall exact_before (tail (sortNumbers numbers))) as Hexact.
  { rewrite Hsame. apply (Sorted_StronglySorted Z.lt) in Hsorted.
    destruct Hsorted as [|first rest _ Hfirst]; [done|]. simpl.
    apply Forall_cons in Hsmall as [Hlow Hrest].
    rewrite Forall_forall in Hfirst, Hrest. apply Forall_forall.
    intros num Hnum. specialize (Hfirst num Hnum). specialize (Hrest num Hnum).
    unfold exact_before. apply minusOne_exact. lia. }
  destruct (groupConsecutiveRuns_spec numbers Hexact) as (Hruns & Hgaps & Hcat).
  split_and!; [done | done | by rewrite Hcat].
Qed.

Lemma groupConsecutiveRuns_partition_witness :
  Sorted Z.lt [5; 6; 7; 10; 2 ^ 53 - 1; 2 ^ 53]
  ∧ groupConsecutiveRuns [5; 6; 7; 10; 2 ^ 53 - 1; 2 ^ 53]
    = [[5; 6; 7]; [10]; [2 ^ 53 - 1; 2 ^ 53]]
  ∧ Forall is_run (groupConsecutiveRuns [5; 6; 7; 10; 2 ^ 53 - 1; 2 ^ 53])
  ∧ not_mergeable (groupConsecutiveRuns [5; 6; 7; 10; 2 ^ 53 - 1; 2 ^ 53])
  ∧ concat (groupConsecutiveRuns [5; 6; 7; 10; 2 ^ 53 - 1; 2 ^ 53])
    = [5; 6; 7; 10; 2 ^ 53 - 1; 2 ^ 53].
Proof.
  assert (Sorted Z.lt [5; 6; 7; 10; 2 ^ 53 - 1; 2 ^ 53]) as Hsorted
    by (repeat constructor).
  split; [exact Hsorted|]. split; [vm_compute; reflexivity|].
  apply (groupConsecutiveRuns_partition _ Hsorted).
  repeat constructor; vm_compute; discriminate.
Defined.

(** Above [2^53] the doubles are the even numbers, and one less than
    [2^53 + 2] is [2^53] again: the two numbers, which are not neighbours,
    come out as one run. *)
Lemma groupConsecutiveRuns_beyond_exact :
  Sorted Z.lt [2 ^ 53; 2 ^ 53 + 2]
  ∧ (double (inject_Z (2 ^ 53)) == inject_Z (2 ^ 53))%Q
  ∧ (double (inject_Z (2 ^ 53 + 2)) == inject_Z (2 ^ 53 + 2))%Q
  ∧ minusOne (2 ^ 53 + 2) = 2 ^ 53
  ∧ groupConsecutiveRuns [2 ^ 53; 2 ^ 53 + 2] = [[2 ^ 53; 2 ^ 53 + 2]]
  ∧ ¬ Forall is_run (groupConsecutiveRuns [2 ^ 53; 2 ^ 53 + 2]).
Proof.
  assert (groupConsecutiveRuns [2 ^ 53; 2 ^ 53 + 2] = [[2 ^ 53; 2 ^ 53 + 2]])
    as Hruns by (vm_compute; reflexivity).
  split_and!.
  - repeat constructor.
  - apply Qeq_bool_iff. vm_compute. reflexivity.
  - apply Qeq_bool_iff. vm_compute. reflexivity.
  - vm_compute. reflexivity.
  - exact Hruns.
  - rewrite Hruns. intros Hall. apply Forall_cons in Hall as [[_ Hrun] _].
    destruct Hrun as [Hnext _]. vm_compute in Hnext. discriminate.
Qed.

(** C8. When a card is out, [revealTopCard] throws "The card ... is still
    out" and the table it leaves is the table it found: deck, card, token
    box, hands, token cells and marker are as before. *)
Theorem revealTopCard_card_out (u : Q) (s : table) (c : Z) :
  cardCell s = Some c →
  revealTopCard u s = Thrown (CardStillOut c) s.
Proof. apply revealTopCardImpl_card_out. Qed.

Lemma revealTopCard_card_out_witness :
  cardCell example_revealed = Some 24
  ∧ revealTopCard (1 # 3) example_revealed = Thrown (CardStillOut 24) example_revealed.
Proof.
  assert (cardCell example_revealed = Some 24) as Hc by (vm_compute; reflexivity).
  split; [exact Hc|].
  exact (revealTopCard_card_out (1 # 3) example_revealed 24 Hc).
Defined.

(** [newDeck] with the [drawCard] of all revisions but [Rev2] (lines
    2431-2447, 155-165, [src/unnamed/part_000] 265-275): 24 cards, all
    different, all from [MIN_CARD] to [MAX_CARD], whatever the random numbers
    and whether or not the tens are taken out first. *)
Lemma newDeck_correct (opts : options) (rnd : nat → Q) :
  all_unit rnd →
  length (newDeck opts rnd) = 24%nat
  ∧ NoDup (newDeck opts rnd)
  ∧ Forall (λ c, MIN_CARD ≤ c ≤ MAX_CARD) (newDeck opts rnd).
Proof.
  intros Hrnd. split_and!.
  - apply (newDeck_spec opts rnd Hrnd).
  - by apply newDeck_NoDup.
  - apply Forall_forall. intros c. by apply newDeck_in_range.
Qed.

(** C9. [newDeck] over the cards 3 to 35 leaves 24 cards, all different:
    so it is in every revision but one ([newDeck_correct]).  The [newDeck] of
    lines 627-637 draws with the [drawCard] of lines 614-625: with
    [Math.random()] at 0.99 (the double the literal stands for) each of the
    nine draws picks the index one past the end and removes nothing, and the
    deck keeps all 33 cards. *)
Theorem Rev2_newDeck_keeps_all :
  all_unit (λ _, double (99 # 100))
  ∧ Rev2.newDeck (λ _, double (99 # 100)) = xrange MIN_CARD (MAX_CARD + 1)
  ∧ length (Rev2.newDeck (λ _, double (99 # 100))) = 33%nat.
Proof.
  split_and!.
  - intros _. unit_by_computation.
  - vm_compute. reflexivity.
  - vm_compute. reflexivity.
Qed.

(** C10. [shuffle] returns a rearrangement of the array it is given: as many
    elements, each as often as before, none [undefined]; this holds for the
    loop of lines 3145-3154 and for the loop of lines 2109-2118. *)
Theorem shuffle_permutation {A} (rnd : nat → Q) (array : list A) :
  all_unit rnd →
  (∃ shuffled, shuffle rnd (Some <$> array) = Some <$> shuffled
               ∧ shuffled ≡ₚ array
               ∧ length shuffled = length array)
  ∧ (∃ shuffled, Rev4.shuffle rnd (Some <$> array) = Some <$> shuffled
                 ∧ shuffled ≡ₚ array
                 ∧ length shuffled = length array).
Proof.
  intros Hrnd. split.
  - destruct (defined_Permutation _ array (shuffle_Permutation rnd _ Hrnd))
      as (shuffled & Heq & Hp).
    exists shuffled. split_and!; [done | done | by apply Permutation_length].
  - destruct (defined_Permutation _ array (Rev4_shuffle_Permutation rnd _ Hrnd))
      as (shuffled & Heq & Hp).
    exists shuffled. split_and!; [done | done | by apply Permutation_length].
Qed.

Lemma shuffle_permutation_witness :
  all_unit example_rnd
  ∧ shuffle example_rnd (Some <$> example_players)
    = Some <$> ["Ann"; "Di"; "Bob"; "Cy"]
  ∧ ∃ shuffled, shuffle example_rnd (Some <$> example_players) = Some <$> shuffled
                ∧ shuffled ≡ₚ example_players
                ∧ length shuffled = length example_players.
Proof.
  split; [exact example_rnd_unit|]. split; [vm_compute; reflexivity|].
  exact (proj1 (shuffle_permutation example_rnd example_players example_rnd_unit)).
Defined.

(** * Further properties of the engine *)

(** ** Random integers and draws *)

Lemma randInt_between (u : Q) (a b : Z) :
  unit_interval u → a ≤ b → a ≤ randInt u a (Some b) ≤ b.
Proof.
  intros Hu Hab. unfold randInt.
  destruct (unit_scaled u (b - a + 1) Hu) as [Hlo Hhi]; [lia|].
  pose proof (Qfloor_bounds _ _ _ Hlo Hhi). lia.
Qed.

(** The double product is the exact product moved by half a last bit at
    most, so its floor is the floor of the exact product or one more. *)
Lemma randInt_near_exact (u : Q) (a : Z) :
  unit_interval u → 0 ≤ a < 2 ^ 53 →
  Qfloor (u * inject_Z (a + 1)) ≤ randInt u a None
  ≤ Qfloor (u * inject_Z (a + 1)) + 1.
Proof.
  intros Hu Ha. pose proof (randInt_range u a Hu ltac:(lia)) as Hrange.
  destruct Hu as (H0 & H1 & Hd). unfold randInt in *.
  replace (a - 0 + 1) with (a + 1) in * by lia. rewrite Z.add_0_l in *.
  set (q := (u * inject_Z (a + 1))%Q) in *.
  assert (0 < inject_Z (a + 1))%Q as Hn.
  { change 0%Q with (inject_Z 0). rewrite <- Zlt_Qlt. lia. }
  assert (q < inject_Z (a + 1))%Q as Hq.
  { unfold q. rewrite <- (Qmult_1_l (inject_Z (a + 1))) at 2.
    by apply Qmult_lt_r. }
  assert (q < pow2 53)%Q as Hq53.
  { apply Qlt_le_trans with (inject_Z (a + 1)); [done|].
    rewrite pow2_Z by lia. rewrite <- Zle_Qle. lia. }
  pose proof (Qfloor_le q) as Hfloor. pose proof (Qlt_floor q) as Hceil.
  rewrite inject_Z_plus in Hceil. change (inject_Z 1) with 1%Q in Hceil.
  destruct (Qlt_le_dec 0 q) as [Hpos|Hzero].
  - pose proof (double_above q (Qfloor q) Hpos Hq53 Hfloor) as Hlow.
    destruct (double_near q) as [Hnear _].
    pose proof (pow2_le _ 0 (ulpExponent_small q Hpos Hq53)) as Hulp.
    change (pow2 0) with 1%Q in Hulp.
    assert (double q < inject_Z (Qfloor q + 2))%Q as Hhigh.
    { rewrite inject_Z_plus. change (inject_Z 2) with 2%Q.
      clear -Hceil Hnear Hulp. lra. }
    pose proof (Qfloor_bounds _ _ _ Hlow Hhigh). lia.
  - assert (q == 0)%Q as Hq0.
    { apply Qle_antisym; [done|]. apply Qmult_le_0_compat; [done|].
      by apply Qlt_le_weak. }
    rewrite (Qfloor_comp _ _ (double_zero q Hq0)), (Qfloor_comp _ _ Hq0).
    change (Qfloor 0) with 0. lia.
Qed.

(** X1. [randInt] (lines 3139-3143), on integers within [2^53] whose
    difference is below [2^53], stays in its range for every double
    [Math.random()] can return, the rounding of the product included:
    [randInt(a)] is one of [0 .. a] for [a >= 0], and [randInt(a, b)] is one of
    [a .. b] for [a <= b].  The value of [randInt(a)] is the floor of the
    exact product [u * (a + 1)] or, when the double product rounds up to the
    next integer, one more.  [randInt(-1)], which [drawCard] asks for on an
    empty deck, is 0. *)
Theorem randInt_in_range (u : Q) (a b : Z) :
  unit_interval u →
  (0 ≤ a < 2 ^ 53 →
     0 ≤ randInt u a None ≤ a
     ∧ Qfloor (u * inject_Z (a + 1)) ≤ randInt u a None
       ≤ Qfloor (u * inject_Z (a + 1)) + 1)
  ∧ (- 2 ^ 53 ≤ a ≤ b → b ≤ 2 ^ 53 → b - a < 2 ^ 53 →
     a ≤ randInt u a (Some b) ≤ b)
  ∧ randInt u (-1) None = 0.
Proof.
  intros Hu. split_and!.
  - intros Ha. split; [apply randInt_range; [done | lia]|].
    by apply randInt_near_exact.
  - intros Hab _ _. apply randInt_between; [done | lia].
  - apply randInt_of_none.
Qed.

Lemma randInt_in_range_witness :
  unit_interval (3752999689475413 # 4503599627370496)
  ∧ 0 ≤ randInt (3752999689475413 # 4503599627370496) 5 None ≤ 5
  ∧ 3 ≤ randInt (3752999689475413 # 4503599627370496) 3 (Some 7) ≤ 7
  ∧ Qfloor ((3752999689475413 # 4503599627370496) * inject_Z (5 + 1)) = 4
  ∧ randInt (3752999689475413 # 4503599627370496) 5 None = 5.
Proof.
  assert (unit_interval (3752999689475413 # 4503599627370496)) as Hu
    by unit_by_computation.
  destruct (randInt_in_range (3752999689475413 # 4503599627370496) 5 7 Hu)
    as (H1 & _ & _).
  destruct (randInt_in_range (3752999689475413 # 4503599627370496) 3 7 Hu)
    as (_ & H2 & _).
  split; [exact Hu|]. split; [apply H1; lia|]. split; [apply H2; lia|].
  split; vm_compute; reflexivity.
Defined.

(** X2. On a deck that is not empty [drawCard] (lines 2418-2429) returns a
    card of the deck; the remaining deck is the deck without one copy of that
    card, one card shorter, with the other cards in the order they had. *)
Theorem drawCard_takes_one (u : Q) (deck : list Z) :
  unit_interval u → deck ≠ [] →
  ∃ c, card (drawCard u deck) = Some c
       ∧ c ∈ deck
       ∧ deck ≡ₚ c :: remainingDeck (drawCard u deck)
       ∧ remainingDeck (drawCard u deck) `sublist_of` deck
       ∧ S (length (remainingDeck (drawCard u deck))) = length deck.
Proof.
  intros Hu Hne.
  destruct (drawCard_spec u deck Hu Hne) as (i & c & _ & Hc & Hcard & Hrest).
  exists c. split_and!.
  - done.
  - by eapply list_elem_of_lookup_2.
  - rewrite Hrest. by apply delete_Permutation.
  - rewrite Hrest. apply sublist_delete.
  - by apply drawCard_length.
Qed.

Lemma drawCard_takes_one_witness :
  unit_interval (1 # 2)
  ∧ drawCard (1 # 2) [3; 4; 5; 6] = {| card := Some 5; remainingDeck := [3; 4; 6] |}
  ∧ ∃ c, card (drawCard (1 # 2) [3; 4; 5; 6]) = Some c
         ∧ c ∈ [3; 4; 5; 6]
         ∧ [3; 4; 5; 6] ≡ₚ c :: remainingDeck (drawCard (1 # 2) [3; 4; 5; 6])
         ∧ remainingDeck (drawCard (1 # 2) [3; 4; 5; 6]) `sublist_of` [3; 4; 5; 6]
         ∧ S (length (remainingDeck (drawCard (1 # 2) [3; 4; 5; 6]))) = length [3; 4; 5; 6].
Proof.
  pose proof half_unit as Hu.
  split; [exact Hu|]. split; [vm_compute; reflexivity|].
  apply (drawCard_takes_one (1 # 2) [3; 4; 5; 6] Hu). discriminate.
Defined.

Lemma drawCard_empty (u : Q) : drawCard u [] = {| card := None; remainingDeck := [] |}.
Proof.
  unfold drawCard. change (Z.of_nat (length []) - 1) with (-1).
  by rewrite randInt_of_none.
Qed.

(** ** The new deck *)

Lemma sublist_StronglySorted {A} (R : relation A) (l1 l2 : list A) :
  l1 `sublist_of` l2 → StronglySorted R l2 → StronglySorted R l1.
Proof.
  induction 1 as [|x l1 l2 Hsub IH|x l1 l2 Hsub IH]; intros Hsorted.
  - constructor.
  - apply StronglySorted_inv in Hsorted as [Hrest Hall]. constructor; [by apply IH|].
    apply Forall_forall. intros y Hy. rewrite Forall_forall in Hall.
    apply Hall. by eapply elem_of_sublist.
  - apply StronglySorted_inv in Hsorted as [Hrest _]. by apply IH.
Qed.

Lemma full_range_sorted : StronglySorted Z.lt (xrange MIN_CARD (MAX_CARD + 1)).
Proof.
  apply Sorted_StronglySorted; [apply _|].
  refine (bool_decide_unpack (Sorted Z.lt (xrange MIN_CARD (MAX_CARD + 1))) _).
  vm_compute. exact I.
Qed.

Lemma newDeck_no_tens (rnd : nat → Q) (opts : options) (c : Z) :
  all_unit rnd → REMOVE_TENS opts = true → c ∈ newDeck opts rnd → Z.rem c 10 ≠ 0.
Proof.
  intros Hrnd Htens Hc. unfold newDeck in Hc. rewrite Htens in Hc.
  rewrite no_tens_length in Hc.
  destruct (removeCards_spec rnd 6 0
              (filter (λ card, Z.rem card 10 ≠ 0) (xrange MIN_CARD (MAX_CARD + 1)))
              Hrnd) as [_ Hsub].
  { rewrite no_tens_length. lia. }
  eapply elem_of_sublist in Hc; [|exact Hsub].
  by apply list_elem_of_filter in Hc as [? _].
Qed.

(** X3. [newDeck] (lines 2431-2447) returns 24 cards for every run of
    [Math.random()] and both settings of [REMOVE_TENS]: all different, all
    from [MIN_CARD] to [MAX_CARD], in ascending order (the deck is not
    mixed; the draw is random); with [REMOVE_TENS] no card of the deck is a
    multiple of ten. *)
Theorem newDeck_is_a_deck (opts : options) (rnd : nat → Q) :
  all_unit rnd →
  length (newDeck opts rnd) = 24%nat
  ∧ NoDup (newDeck opts rnd)
  ∧ Forall (λ c, MIN_CARD ≤ c ≤ MAX_CARD) (newDeck opts rnd)
  ∧ Sorted Z.lt (newDeck opts rnd)
  ∧ (REMOVE_TENS opts = true → Forall (λ c, Z.rem c 10 ≠ 0) (newDeck opts rnd)).
Proof.
  intros Hrnd. destruct (newDeck_spec opts rnd Hrnd) as [Hlen Hsub]. split_and!.
  - done.
  - by apply newDeck_NoDup.
  - apply Forall_forall. intros c. by apply newDeck_in_range.
  - apply StronglySorted_Sorted.
    eapply sublist_StronglySorted; [exact Hsub | apply full_range_sorted].
  - intros Htens. apply Forall_forall. intros c. by apply newDeck_no_tens.
Qed.

Lemma newDeck_is_a_deck_witness :
  all_unit example_rnd
  ∧ newDeck OPTIONS example_rnd = xrange 3 15 ++ xrange 24 36
  ∧ length (newDeck OPTIONS example_rnd) = 24%nat
  ∧ NoDup (newDeck OPTIONS example_rnd)
  ∧ Forall (λ c, MIN_CARD ≤ c ≤ MAX_CARD) (newDeck OPTIONS example_rnd)
  ∧ Sorted Z.lt (newDeck OPTIONS example_rnd)
  ∧ (REMOVE_TENS OPTIONS = true → Forall (λ c, Z.rem c 10 ≠ 0) (newDeck OPTIONS example_rnd)).
Proof.
  split; [exact example_rnd_unit|]. split; [vm_compute; reflexivity|].
  exact (newDeck_is_a_deck OPTIONS example_rnd example_rnd_unit).
Defined.

(** ** Runs of any list of numbers *)

(** X4. [groupConsecutiveRuns] (lines 2704-2729) on any list of integers
    above [- 2^53] and up to [2^53], in any order and with repetitions: the
    runs, one after the other, are the numbers in ascending order; every run
    is not empty and climbs by one from card to card (so a number that comes
    twice ends a run); no run can be joined with the next; and there is no
    run exactly when there is no number. *)
Theorem groupConsecutiveRuns_any_order (numbers : list Z) :
  Forall (λ num, - 2 ^ 53 < num ≤ 2 ^ 53) numbers →
  concat (groupConsecutiveRuns numbers) ≡ₚ numbers
  ∧ Sorted Z.le (concat (groupConsecutiveRuns numbers))
  ∧ Forall is_run (groupConsecutiveRuns numbers)
  ∧ not_mergeable (groupConsecutiveRuns numbers)
  ∧ (groupConsecutiveRuns numbers = [] ↔ numbers = []).
Proof.
  intros Hsmall.
  destruct (groupConsecutiveRuns_exact numbers Hsmall) as (Hruns & Hgaps & Hcat).
  split_and!; try done.
  - rewrite Hcat. apply sortNumbers_Permutation.
  - rewrite Hcat. apply sortNumbers_sorted.
  - split.
    + intros Hnil. rewrite Hnil in Hcat. simpl in Hcat.
      symmetry. apply Permutation_nil_l. rewrite Hcat. apply sortNumbers_Permutation.
    + intros ->. reflexivity.
Qed.

Lemma groupConsecutiveRuns_any_order_witness :
  Forall (λ num, - 2 ^ 53 < num ≤ 2 ^ 53) [7; 5; 30; 6; 5]
  ∧ groupConsecutiveRuns [7; 5; 30; 6; 5] = [[5]; [5; 6; 7]; [30]]
  ∧ concat (groupConsecutiveRuns [7; 5; 30; 6; 5]) ≡ₚ [7; 5; 30; 6; 5]
  ∧ Sorted Z.le (concat (groupConsecutiveRuns [7; 5; 30; 6; 5]))
  ∧ Forall is_run (groupConsecutiveRuns [7; 5; 30; 6; 5])
  ∧ not_mergeable (groupConsecutiveRuns [7; 5; 30; 6; 5]).
Proof.
  assert (Forall (λ num, - 2 ^ 53 < num ≤ 2 ^ 53) [7; 5; 30; 6; 5]) as Hsmall
    by (repeat constructor; vm_compute; try reflexivity; discriminate).
  destruct (groupConsecutiveRuns_any_order [7; 5; 30; 6; 5] Hsmall)
    as (H1 & H2 & H3 & H4 & _).
  split; [exact Hsmall|]. split; [vm_compute; reflexivity|].
  split; [exact H1|]. split; [exact H2|]. split; [exact H3 | exact H4].
Defined.

(** ** Colours and sizes *)

(** X5. [cardNumberColor] (lines 3024-3034) has a colour for the cards from
    [MIN_CARD] to [MAX_CARD] and for no other number, where it throws: blue
    for 3 to 13, orange for 14 to 24, red for 25 to 35.  So a card of a deck
    can always be shown. *)
Theorem cardNumberColor_of_cards (cardVal : Z) :
  (MIN_CARD ≤ cardVal ≤ MAX_CARD ↔ is_Some (cardNumberColor cardVal))
  ∧ (3 ≤ cardVal ≤ 13 → cardNumberColor cardVal = Some "#0586ff")
  ∧ (14 ≤ cardVal ≤ 24 → cardNumberColor cardVal = Some "#ff9d14")
  ∧ (25 ≤ cardVal ≤ 35 → cardNumberColor cardVal = Some "#d11500")
  ∧ (∀ opts rnd, all_unit rnd → cardVal ∈ newDeck opts rnd →
       is_Some (cardNumberColor cardVal)).
Proof.
  assert (MIN_CARD ≤ cardVal ≤ MAX_CARD → is_Some (cardNumberColor cardVal)) as Hin.
  { unfold cardNumberColor, MIN_CARD, MAX_CARD. intros Hc.
    repeat case_bool_decide; try done; lia. }
  unfold cardNumberColor, MIN_CARD, MAX_CARD in *. split_and!.
  - split; [exact Hin|]. intros [color Hcolor].
    repeat case_bool_decide; try done; lia.
  - intros Hc. by rewrite bool_decide_eq_true_2.
  - intros Hc. rewrite bool_decide_eq_false_2 by lia. by rewrite bool_decide_eq_true_2.
  - intros Hc. rewrite !bool_decide_eq_false_2 by lia.
    by rewrite bool_decide_eq_true_2 by lia.
  - intros opts rnd Hrnd Hc. apply Hin.
    apply (newDeck_in_range opts rnd cardVal Hrnd Hc).
Qed.

Lemma cardNumberColor_of_cards_witness :
  cardNumberColor 13 = Some "#0586ff"
  ∧ cardNumberColor 14 = Some "#ff9d14"
  ∧ cardNumberColor 25 = Some "#d11500"
  ∧ cardNumberColor 36 = None.
Proof.
  destruct (cardNumberColor_of_cards 13) as (_ & H13 & _).
  destruct (cardNumberColor_of_cards 14) as (_ & _ & H14 & _).
  destruct (cardNumberColor_of_cards 25) as (_ & _ & _ & H25 & _).
  split; [apply H13; lia|]. split; [apply H14; lia|]. split; [apply H25; lia|].
  reflexivity.
Defined.

Lemma BORDER_COLORS_NoDup : NoDup BORDER_COLORS.
Proof. refine (bool_decide_unpack (NoDup BORDER_COLORS) _). vm_compute. exact I. Qed.

Lemma BORDER_COLORS_defined (hex : string) : hex ∈ BORDER_COLORS → hex ≠ "undefined".
Proof.
  intros Hin ->. revert Hin.
  refine (bool_decide_unpack (¬ "undefined" ∈ BORDER_COLORS) _). vm_compute. exact I.
Qed.

Lemma cardBorderColor_inside (cardVal : Z) :
  MIN_CARD ≤ cardVal ≤ MAX_CARD →
  ∃ hex, BORDER_COLORS !! Z.to_nat (cardVal - MIN_CARD) = Some hex
         ∧ cardBorderColor cardVal = "#" +:+ hex.
Proof.
  unfold MIN_CARD, MAX_CARD. intros Hc.
  destruct (lookup_lt_is_Some_2 BORDER_COLORS (Z.to_nat (cardVal - 3))) as [hex Hhex].
  { change (length BORDER_COLORS) with 33%nat. lia. }
  exists hex. split; [done|]. unfold cardBorderColor, js_index.
  destruct (Z.ltb_spec (cardVal - 3) 0); [lia|]. by rewrite Hhex.
Qed.

(** X6. [cardBorderColor] (lines 3036-3075) has one colour for each card
    from [MIN_CARD] to [MAX_CARD], and no two cards share one; for any other
    number the text it returns is "#undefined". *)
Theorem cardBorderColor_of_cards (c1 c2 : Z) :
  MIN_CARD ≤ c1 ≤ MAX_CARD →
  (∃ hex, hex ∈ BORDER_COLORS ∧ cardBorderColor c1 = "#" +:+ hex)
  ∧ cardBorderColor c1 ≠ "#undefined"
  ∧ (MIN_CARD ≤ c2 ≤ MAX_CARD → cardBorderColor c1 = cardBorderColor c2 → c1 = c2)
  ∧ (¬ (MIN_CARD ≤ c2 ≤ MAX_CARD) → cardBorderColor c2 = "#undefined").
Proof.
  intros H1. destruct (cardBorderColor_inside c1 H1) as (hex1 & Hhex1 & Hc1).
  split_and!.
  - exists hex1. split; [by eapply list_elem_of_lookup_2 | done].
  - rewrite Hc1. cbv [String.append]. intros [= Heq].
    by apply (BORDER_COLORS_defined hex1); [eapply list_elem_of_lookup_2|].
  - intros H2 Heq. destruct (cardBorderColor_inside c2 H2) as (hex2 & Hhex2 & Hc2).
    rewrite Hc1, Hc2 in Heq. cbv [String.append] in Heq. injection Heq as ->.
    pose proof (NoDup_lookup _ _ _ _ BORDER_COLORS_NoDup Hhex1 Hhex2).
    unfold MIN_CARD in *. lia.
  - unfold MIN_CARD, MAX_CARD, cardBorderColor, js_index. intros H2.
    destruct (Z.ltb_spec (c2 - 3) 0); [done|].
    rewrite lookup_ge_None_2; [done|].
    change (length BORDER_COLORS) with 33%nat. lia.
Qed.

Lemma cardBorderColor_of_cards_witness :
  cardBorderColor 3 = "#FFE541"
  ∧ cardBorderColor 35 = "#010094"
  ∧ cardBorderColor 3 ≠ "#undefined"
  ∧ cardBorderColor 36 = "#undefined".
Proof.
  destruct (cardBorderColor_of_cards 3 36) as (_ & Hdef & _ & Hout);
    [unfold MIN_CARD, MAX_CARD; lia|].
  split; [reflexivity|]. split; [reflexivity|]. split; [exact Hdef|].
  apply Hout. unfold MIN_CARD, MAX_CARD. lia.
Defined.

(** X7. The font size [setTokensInPool] picks (lines 2613-2638) is 12 for
    no token, where the box shows a message.  For a number of tokens other
    than 0 it never grows with the number and stays between 21 and 39: it is
    39 up to 16 tokens, 25 from 25 to 39 tokens and 21 from 40 on. *)
Theorem tokensFontSize_shrinks (t1 t2 : Z) :
  t1 ≤ t2 → t1 ≠ 0 → t2 ≠ 0 →
  tokensFontSize 0 = 12
  ∧ tokensFontSize t2 ≤ tokensFontSize t1
  ∧ 21 ≤ tokensFontSize t1 ≤ 39
  ∧ (t1 ≤ 16 → tokensFontSize t1 = 39)
  ∧ (25 ≤ t1 ≤ 39 → tokensFontSize t1 = 25)
  ∧ (40 ≤ t1 → tokensFontSize t1 = 21).
Proof.
  intros Hle H1 H2. unfold tokensFontSize, ceilHalf.
  split_and!; intros; repeat case_bool_decide;
    Z.to_euclidean_division_equations; lia.
Qed.

Lemma tokensFontSize_shrinks_witness :
  tokensFontSize 0 = 12
  ∧ tokensFontSize 24 ≤ tokensFontSize 17
  ∧ tokensFontSize 1 = 39
  ∧ tokensFontSize 17 = 36
  ∧ tokensFontSize 24 = 27
  ∧ 21 ≤ tokensFontSize 17 ≤ 39.
Proof.
  destruct (tokensFontSize_shrinks 17 24) as (Hzero & Hle & Hb & _); [lia..|].
  split; [exact Hzero|]. split; [exact Hle|]. split; [reflexivity|].
  split; [reflexivity|]. split; [reflexivity|]. exact Hb.
Defined.

(** ** The text of the token box *)

Lemma token_first (rest : string) :
  TOKEN_REPR +:+ rest
  = String (Ascii.ascii_of_nat 240)
      (String (Ascii.ascii_of_nat 159)
         (String (Ascii.ascii_of_nat 140) (String (Ascii.ascii_of_nat 145) rest))).
Proof. reflexivity. Qed.

Lemma stripPrefix_token (rest : string) :
  stripPrefix TOKEN_REPR (TOKEN_REPR +:+ rest) = Some rest.
Proof. rewrite token_first. reflexivity. Qed.

Lemma repeatString_length (n : nat) :
  String.length (repeatString TOKEN_REPR n) = (4 * n)%nat.
Proof.
  induction n as [|n IH]; [done|].
  cbn [repeatString]. rewrite token_first. cbn [String.length]. rewrite IH. lia.
Qed.

Lemma copiesOf_repeat (n fuel : nat) :
  (n < fuel)%nat → copiesOf fuel TOKEN_REPR (repeatString TOKEN_REPR (S n)) = true.
Proof.
  revert fuel. induction n as [|n IH]; intros [|fuel] Hfuel; try lia.
  - cbn [repeatString copiesOf]. by rewrite stripPrefix_token.
  - change (repeatString TOKEN_REPR (S (S n)))
      with (TOKEN_REPR +:+ repeatString TOKEN_REPR (S n)).
    cbn [copiesOf]. rewrite stripPrefix_token.
    destruct (repeatString TOKEN_REPR (S n)) eqn:Hrest; [done|].
    apply IH. lia.
Qed.

Lemma tokensInText_tokens (n : nat) :
  tokensInText (repeatString TOKEN_REPR (S n)) = Some (Z.of_nat (S n)).
Proof.
  unfold tokensInText.
  destruct (decide (repeatString TOKEN_REPR (S n) = "")) as [Heq|_].
  { cbn [repeatString] in Heq. rewrite token_first in Heq. discriminate. }
  destruct (decide (repeatString TOKEN_REPR (S n) = messageText MSG_TURN)) as [Heq|_].
  { cbn [repeatString] in Heq. rewrite token_first in Heq. discriminate. }
  unfold matchesTokens. rewrite copiesOf_repeat
    by (rewrite repeatString_length; lia).
  rewrite repeatString_length. change (String.length TOKEN_REPR) with 4%nat.
  f_equal. rewrite Nat2Z.inj_mul. change (Z.of_nat 4) with 4.
  rewrite Z.mul_comm. by apply Z.div_mul.
Qed.

Lemma tokensInText_box (box : token_box) :
  tokensInText (boxText box)
  = match box with
    | BoxMessage MSG_TURN => Some 0
    | BoxTokens n => Some (Z.pos n)
    | _ => None
    end.
Proof.
  destruct box as [|m|n].
  - reflexivity.
  - destruct m; vm_compute; reflexivity.
  - cbn [boxText]. destruct (Pos2Nat.is_succ n) as [k Hk]. rewrite Hk.
    rewrite tokensInText_tokens, <- Hk. f_equal. lia.
Qed.

(** X8. The count [setTokensInPool] writes into the token box is the count
    [getTokensInPool] reads from its text (lines 2593-2631): a row of [n]
    token signs for [n >= 1], the turn message for 0.  For every content of
    the box, reading its text gives what [getTokensInPool] returns; the
    messages "Click DECK ..." and "Game Over! ..." and the blank box read as
    [null]. *)
Theorem tokens_text_round_trip (tokens : Z) (s : table) :
  0 ≤ tokens →
  (∃ s', setTokensInPool tokens s = Done tt s'
         ∧ tokensInText (boxText (tokenBox s')) = Some tokens
         ∧ getTokensInPool s' = Done (Some tokens) s')
  ∧ getTokensInPool s = Done (tokensInText (boxText (tokenBox s))) s
  ∧ tokensInText (messageText MSG_REVEAL) = None
  ∧ tokensInText (messageText MSG_END_GAME) = None
  ∧ tokensInText "" = None.
Proof.
  intros Htokens. split_and!.
  - destruct tokens as [|n|n]; [| |lia].
    + eexists. split; [reflexivity|]. split; [|reflexivity].
      exact (tokensInText_box (BoxMessage MSG_TURN)).
    + eexists. split; [reflexivity|]. split; [|reflexivity].
      exact (tokensInText_box (BoxTokens n)).
  - rewrite tokensInText_box. unfold getTokensInPool, gets.
    by destruct (tokenBox s) as [|[]|].
  - exact (tokensInText_box (BoxMessage MSG_REVEAL)).
  - exact (tokensInText_box (BoxMessage MSG_END_GAME)).
  - reflexivity.
Qed.

Lemma tokens_text_round_trip_witness :
  boxText (BoxTokens 3) = "🌑🌑🌑"
  ∧ tokensInText "🌑🌑🌑" = Some 3
  ∧ ∃ s', setTokensInPool 3 example_revealed = Done tt s'
          ∧ tokensInText (boxText (tokenBox s')) = Some 3
          ∧ getTokensInPool s' = Done (Some 3) s'.
Proof.
  split; [reflexivity|]. split; [vm_compute; reflexivity|].
  apply (tokens_text_round_trip 3 example_revealed). lia.
Defined.

(** ** What the actions change *)

Lemma setTokensInPool_keeps (tokens : Z) :
  preserves playerCardRows (setTokensInPool tokens)
  ∧ preserves playerTokenCells (setTokensInPool tokens)
  ∧ preserves playerNames (setTokensInPool tokens)
  ∧ preserves cardCell (setTokensInPool tokens)
  ∧ preserves deckProperty (setTokensInPool tokens).
Proof.
  unfold setTokensInPool, setInstructionsMessage.
  split_and!; repeat preserves_step.
Qed.

Lemma revealTopCardImpl_keeps (u : Q) :
  preserves playerCardRows (revealTopCardImpl u)
  ∧ preserves playerTokenCells (revealTopCardImpl u)
  ∧ preserves playerNames (revealTopCardImpl u).
Proof.
  destruct (setTokensInPool_keeps 0) as (Hrows & Hcells & Hnames & _).
  unfold revealTopCardImpl, getCurrentCard, getDeck, setCurrentCard, setDeck.
  split_and!; repeat first [ assumption | preserves_step ].
Qed.

Lemma enableDeck_keeps (opts : options) (u : Q) :
  preserves playerCardRows (enableDeck opts u)
  ∧ preserves playerTokenCells (enableDeck opts u)
  ∧ preserves playerNames (enableDeck opts u)
  ∧ preserves markerRow (enableDeck opts u).
Proof.
  destruct (revealTopCardImpl_keeps u) as (Hrows & Hcells & Hnames).
  pose proof (revealTopCardImpl_marker u) as Hmarker.
  unfold enableDeck, setInstructionsMessage.
  split_and!; repeat first [ assumption | preserves_step ].
Qed.

Lemma sortNumbers_again (numbers : list Z) :
  sortNumbers (sortNumbers numbers) = sortNumbers numbers.
Proof.
  apply sortNumbers_unique; [apply sortNumbers_sorted | done].
Qed.

Lemma groupConsecutiveRuns_sorted (numbers : list Z) :
  groupConsecutiveRuns (sortNumbers numbers) = groupConsecutiveRuns numbers.
Proof. unfold groupConsecutiveRuns. by rewrite sortNumbers_again. Qed.

(** The cards a rendered hand shows are the cards of the hand in ascending
    order, and rendering them again gives the same cells. *)
Lemma renderHand_cards (cards : list Z) :
  Forall card_text_ok cards →
  handCards (renderHand cards) = sortNumbers cards
  ∧ Forall cell_filled (renderHand cards)
  ∧ renderHand (handCards (renderHand cards)) = renderHand cards.
Proof.
  intros Hok. unfold renderHand.
  destruct (groupConsecutiveRuns_exact cards (card_texts_exact _ Hok))
    as (Hruns & _ & Hcat).
  destruct (runs_cards (groupConsecutiveRuns cards) Hruns) as [H1 H2].
  { rewrite Hcat, sortNumbers_Permutation. done. }
  split_and!; [by rewrite H1 | done |].
  by rewrite H1, Hcat, groupConsecutiveRuns_sorted.
Qed.

Section Play.
Context (opts : options) (players : list string) (deck0 : list Z).
Hypothesis players_count : (3 ≤ length players ≤ 7)%nat.
Hypothesis players_named : some_name players.
Hypothesis deck0_range : ∀ c, c ∈ deck0 → MIN_CARD ≤ c ≤ MAX_CARD.
Hypothesis deck0_length : length deck0 = 24%nat.

(** The hand of the active player can take the card that is out. *)
Lemma active_hand (s : table) (c p : Z) :
  game_inv players deck0 s → cardCell s = Some c → markerRow s = Some p →
  0 ≤ p < Z.of_nat (length players)
  ∧ ∃ row z,
      playerCardRows s !! Z.to_nat p = Some row
      ∧ playerTokenCells s !! Z.to_nat p = Some (Some z)
      ∧ Forall cell_filled row
      ∧ (length row < CARD_ROW_WIDTH)%nat
      ∧ Forall (λ v, MIN_CARD ≤ v ≤ MAX_CARD) (handCards row ++ [c]).
Proof.
  intros Hinv Hc Hm.
  destruct (gi_marker _ _ _ Hinv) as (p' & Hm' & Hp).
  assert (p' = p) as -> by congruence. split; [done|].
  destruct (gi_cells _ _ _ Hinv (Z.to_nat p)) as [z Hz]; [lia|].
  destruct (inv_row players deck0 players_count deck0_length s p Hinv Hp)
    as (row & Hrow & Hfilled & Hin & Hlen).
  rewrite Hc in Hlen. simpl in Hlen.
  assert (c ∈ deck0) as Hcin.
  { rewrite <- (gi_cards _ _ _ Hinv). unfold cardsInPlay. rewrite Hc.
    rewrite !elem_of_app. right. left. simpl. by left. }
  exists row, z. split_and!; try done.
  - unfold CARD_ROW_WIDTH. lia.
  - apply Forall_app. split.
    + apply Forall_forall. intros v Hv. by apply deck0_range, Hin.
    + repeat constructor; by apply deck0_range.
Qed.

(** [takeCard] on a table of a game, step by step: the card leaves the card
    cell for the row of the active player, the pool goes to that player,
    and the deck is enabled again or the game is over. *)
Lemma takeCard_step (u : Q) (s : table) (c p z : Z) (row : list card_cell) :
  game_inv players deck0 s → cardCell s = Some c → markerRow s = Some p →
  playerCardRows s !! Z.to_nat p = Some row →
  playerTokenCells s !! Z.to_nat p = Some (Some z) →
  takeCard opts u s
  = (let taken :=
       with_tokenBox (BoxMessage MSG_TURN)
         (with_playerTokenCells
            (<[Z.to_nat p := Some (z + tablePool s)]> (playerTokenCells s))
            (with_playerCardRows
               (<[Z.to_nat p := renderHand (handCards row ++ [c])]> (playerCardRows s))
               (with_cardCell None s))) in
     if bool_decide (0 < length (deckProperty s))%nat then enableDeck opts u taken
     else setInstructionsMessage MSG_END_GAME taken).
Proof.
  intros Hinv Hc Hm Hrow Hz.
  destruct (active_hand s c p Hinv Hc Hm)
    as (Hp & row' & z' & Hrow' & Hz' & Hfilled & Hlen & Hok).
  assert (row' = row) as -> by congruence. assert (z' = z) as -> by congruence.
  set (s1 := with_cardCell None s).
  pose proof (addCardToPlayer_written s1 p c row ltac:(lia) Hrow Hfilled Hlen Hok)
    as Hadd.
  set (s2 := with_playerCardRows _ s1) in Hadd.
  pose proof (takeTokensFromPool_ok s2 p z ltac:(lia) Hz) as Htake.
  change (tablePool s2) with (tablePool s) in Htake.
  change (playerTokenCells s2) with (playerTokenCells s) in Htake.
  cbv zeta.
  unfold takeCard, singleEntry, bind at 1, getCurrentCard, gets. rewrite Hc.
  unfold bind at 1, setCurrentCard, modify. fold s1.
  unfold bind at 1.
  rewrite (getActivePlayer_ok s1 p Hm) by (unfold MAX_PLAYER_COUNT; lia).
  unfold bind at 1. rewrite Hadd. unfold bind at 1. rewrite Htake.
  unfold bind, getDeck, gets.
  match goal with |- context [deckProperty (with_tokenBox ?m ?t)] =>
    change (deckProperty (with_tokenBox m t)) with (deckProperty s) end.
  by case_bool_decide.
Qed.

(** [noThanks] on a table of a game when the active player has a token:
    the token goes to the pool and the marker to the next player. *)
Lemma noThanks_step (s : table) (c p z : Z) :
  game_inv players deck0 s → cardCell s = Some c → markerRow s = Some p →
  playerTokenCells s !! Z.to_nat p = Some (Some z) → z ≠ 0 →
  noThanks s
  = Done tt
      (with_markerRow (Some (Z.rem (p + 1) (playerCount s)))
         (with_tokenBox (BoxTokens (Z.to_pos (tablePool s + 1)))
            (with_playerTokenCells
               (<[Z.to_nat p := Some (z - 1)]> (playerTokenCells s)) s))).
Proof.
  intros Hinv Hc Hm Hz Hne.
  destruct (gi_marker _ _ _ Hinv) as (p' & Hm' & Hp).
  assert (p' = p) as -> by congruence.
  assert (0 ≤ p < MAX_PLAYER_COUNT) as Hp7 by (unfold MAX_PLAYER_COUNT; lia).
  pose proof (addTokenToPool_ok s p z ltac:(lia) Hz Hne) as Hadd.
  set (s2 := with_tokenBox _ _) in Hadd.
  pose proof (inv_playerCount players deck0 players_count players_named
                deck0_length s Hinv) as Hcount.
  pose proof (advanceActivePlayer_ok s2 p Hm Hp7) as Hadv.
  change (playerCount s2) with (playerCount s) in Hadv.
  unfold noThanks, singleEntry, bind at 1, getCurrentCard, gets. rewrite Hc.
  unfold bind at 1. rewrite (getActivePlayer_ok s p Hm Hp7).
  unfold bind. rewrite Hadd. apply Hadv. lia.
Qed.

Lemma hands_revealed (u : Q) (s : table) :
  hands_inv players s → hands_inv players (table_after (revealTopCardImpl u s)).
Proof.
  destruct (revealTopCardImpl_keeps u) as (Hrows & Hcells & _).
  intros [H1 H2 H3]. split; rewrite ?Hrows, ?Hcells; done.
Qed.

Lemma hands_taken (u : Q) (s : table) :
  game_inv players deck0 s → hands_inv players s →
  hands_inv players (table_after (takeCard opts u s)).
Proof.
  intros Hinv Hhands. destruct (cardCell s) as [c|] eqn:Hc.
  2:{ by rewrite (takeCard_no_card opts u s Hc). }
  destruct (gi_marker _ _ _ Hinv) as (p & Hm & Hp).
  destruct (active_hand s c p Hinv Hc Hm)
    as (_ & row & z & Hrow & Hz & Hfilled & Hlen & Hok).
  rewrite (takeCard_step u s c p z row Hinv Hc Hm Hrow Hz). cbv zeta.
  set (taken := with_tokenBox _ _).
  assert (hands_inv players taken) as Htaken.
  { destruct Hhands as [H1 H2 H3]. split.
    - simpl. apply Forall_insert; [done|]. symmetry.
      by apply renderHand_cards, in_range_text_ok.
    - simpl. intros i z' Hi. destruct (decide (i = Z.to_nat p)) as [->|Hne].
      + rewrite list_lookup_insert_eq in Hi by (by apply lookup_lt_Some in Hz).
        injection Hi as <-. pose proof (H2 _ _ Hz). pose proof (tablePool_nonneg s).
        lia.
      + rewrite list_lookup_insert_ne in Hi by done. by eapply H2.
    - simpl. intros i r Hi Hr. rewrite list_lookup_insert_ne in Hr by lia.
      by eapply H3. }
  destruct (enableDeck_keeps opts u) as (Hrows & Hcells & _).
  destruct Htaken as [H1 H2 H3].
  case_bool_decide; split; rewrite ?Hrows, ?Hcells; done.
Qed.

Lemma hands_declined (s : table) :
  game_inv players deck0 s → hands_inv players s →
  hands_inv players (table_after (noThanks s)).
Proof.
  intros Hinv Hhands. destruct (cardCell s) as [c|] eqn:Hc.
  2:{ by rewrite (noThanks_no_card s Hc). }
  destruct (gi_marker _ _ _ Hinv) as (p & Hm & Hp).
  destruct (gi_cells _ _ _ Hinv (Z.to_nat p)) as [z Hz]; [lia|].
  destruct (decide (z = 0)) as [->|Hne].
  { rewrite (noThanks_no_tokens s c p Hc Hm) by (done || unfold MAX_PLAYER_COUNT; lia).
    done. }
  rewrite (noThanks_step s c p z Hinv Hc Hm Hz Hne).
  destruct Hhands as [H1 H2 H3]. split; simpl; [done| |done].
  intros i z' Hi. destruct (decide (i = Z.to_nat p)) as [->|Hneq].
  - rewrite list_lookup_insert_eq in Hi by (by apply lookup_lt_Some in Hz).
    injection Hi as <-. pose proof (H2 _ _ Hz). lia.
  - rewrite list_lookup_insert_ne in Hi by done. by eapply H2.
Qed.

Lemma hands_action (a : action) (s : table) :
  game_inv players deck0 s → hands_inv players s →
  hands_inv players (table_after (perform opts a s)).
Proof.
  destruct a as [u|u|]; simpl; intros Hinv Hhands.
  - by apply hands_revealed.
  - by apply hands_taken.
  - by apply hands_declined.
Qed.
End Play.

(** The table [newGame] leaves on a fresh sheet, field by field. *)
Lemma newGame_table (opts : options) (rnd : nat → Q) (answer : start_answer)
    (oldDeck : list Z) (players : list string) (s : table) :
  all_unit rnd →
  newGame opts rnd answer players (renderNewTable oldDeck players) = Done tt s →
  ∃ tokens p,
    tokensPerPlayer (Z.of_nat (length players)) = inr tokens
    ∧ 0 ≤ p < Z.of_nat (length players)
    ∧ markerRow s = Some p
    ∧ playerCardRows s = replicate 7 []
    ∧ playerTokenCells s
      = replicate (length players) (Some tokens) ++ replicate (7 - length players) None
    ∧ playerNames s = players ++ replicate (7 - length players) "".
Proof.
  intros Hrnd. unfold newGame, bind at 1, setDeck, modify.
  set (s1 := with_deckProperty (newDeck opts rnd) (renderNewTable oldDeck players)).
  unfold bind at 1.
  destruct (decide (3 ≤ Z.of_nat (length players) ≤ 7)) as [Hn|Hn].
  2:{ by rewrite dealTokens_outside. }
  destruct (dealTokens_inside _ s1 Hn) as (tokens & Htokens & ->).
  set (s2 := with_playerTokenCells _ s1).
  unfold bind at 1.
  destruct (setStartingPlayer opts _ answer players s2) as [p s2'|] eqn:Hstart; [|done].
  apply setStartingPlayer_ok in Hstart as [-> Hp];
    [|done|by destruct players].
  unfold bind at 1, setActivePlayer, modify.
  set (s3 := with_markerRow (Some p) s2). intros Hdone.
  destruct (enableDeck_keeps opts
              (rnd (newDeck_draws opts + setStartingPlayer_draws opts answer)%nat))
    as (Hrows & Hcells & Hnames & Hmarker).
  specialize (Hrows s3). specialize (Hcells s3). specialize (Hnames s3).
  specialize (Hmarker s3). rewrite Hdone in Hrows, Hcells, Hnames, Hmarker.
  simpl in Hrows, Hcells, Hnames, Hmarker.
  exists tokens, p. split_and!; try done; try lia.
  rewrite Hcells, Nat2Z.id. f_equal.
  change [None; None; None; None; None; None; None] with (replicate 7 (@None Z)).
  by rewrite drop_replicate.
Qed.

Lemma tokensPerPlayer_dealt (n tokens : Z) :
  tokensPerPlayer n = inr tokens → 3 ≤ n ≤ 7 ∧ 7 ≤ tokens ≤ 11.
Proof.
  intros Htokens. destruct (decide (3 ≤ n ≤ 7)) as [Hn|Hn].
  - split; [done|]. rewrite tokensPerPlayer_inside in Htokens by done.
    injection Htokens as <-. repeat case_bool_decide; lia.
  - by rewrite tokensPerPlayer_outside in Htokens.
Qed.

(** Every table of a game keeps the hands as [addCardToPlayer] renders
    them and the token counts at zero or above. *)
Lemma reachable_hands (opts : options) (players : list string) (deck0 : list Z)
    (s : table) :
  some_name players → reachable opts players deck0 s → hands_inv players s.
Proof.
  intros Hnamed Hreach.
  induction Hreach as [rnd answer oldDeck s Hrnd -> Hnew|s a Hreach IH Ha].
  - destruct (newGame_table _ _ _ _ _ _ Hrnd Hnew)
      as (tokens & p & Htokens & Hp & Hm & Hrows & Hcells & Hnames).
    apply tokensPerPlayer_dealt in Htokens as [_ Htokens]. split.
    + rewrite Hrows. repeat constructor.
    + rewrite Hcells. intros i z Hi.
      apply lookup_app_Some in Hi as [Hi|[_ Hi]];
        apply lookup_replicate in Hi as [Heq _]; [|done].
      injection Heq as <-. lia.
    + rewrite Hrows. intros i row _ Hi. by apply lookup_replicate in Hi as [-> _].
  - destruct (reachable_inv _ _ _ _ Hnamed Hreach) as (Hn & Hlen & Hnd & Hrange & Hinv).
    by apply (hands_action opts players deck0 Hn Hnamed Hrange Hlen).
Qed.

Lemma reachable_reveal (opts : options) (players : list string) (deck0 : list Z)
    (u : Q) (s : table) :
  unit_interval u → reachable opts players deck0 s →
  reachable opts players deck0 (table_after (revealTopCard u s)).
Proof. intros Hu Hreach. exact (reachable_action _ _ _ s (Reveal u) Hreach Hu). Qed.

Lemma reachable_take (opts : options) (players : list string) (deck0 : list Z)
    (u : Q) (s : table) :
  unit_interval u → reachable opts players deck0 s →
  reachable opts players deck0 (table_after (takeCard opts u s)).
Proof. intros Hu Hreach. exact (reachable_action _ _ _ s (Take u) Hreach Hu). Qed.

Lemma reachable_decline (opts : options) (players : list string) (deck0 : list Z)
    (s : table) :
  reachable opts players deck0 s →
  reachable opts players deck0 (table_after (noThanks s)).
Proof. intros Hreach. exact (reachable_action _ _ _ s Decline Hreach I). Qed.

Lemma example_taken_reachable (n : nat) :
  reachable OPTIONS example_players (newDeck OPTIONS example_rnd) (example_taken n).
Proof.
  induction n as [|n IH]; [apply example_table_reachable|].
  cbn [example_taken].
  apply reachable_take; [exact half_unit|].
  apply reachable_reveal; [exact half_unit|]. exact IH.
Qed.

Lemma example_finished_reachable :
  reachable OPTIONS example_players (newDeck OPTIONS example_rnd) example_finished.
Proof.
  unfold example_finished.
  apply reachable_take; [exact half_unit|]. apply reachable_decline.
  apply reachable_reveal; [exact half_unit|]. apply example_taken_reachable.
Qed.

(** ** Revealing, taking, declining *)

(** X9. With no card out and a deck that is not empty, [revealTopCard]
    (lines 2268-2272, 2326-2351) draws a card.  When every card of the deck
    is from [MIN_CARD] to [MAX_CARD] it goes through: a card of the deck is
    now in the card cell, the deck is the old deck without it, the pool
    reads 0, and marker, names, token cells and hands are as before.  When
    the card drawn is a number outside [MIN_CARD] to [MAX_CARD],
    [cardNumberColor] (lines 3024-3034) throws "No color defined for card
    value ..." before the card is written: the card cell stays empty and
    the deck keeps the card. *)
Theorem revealTopCard_reveals (u : Q) (s : table) :
  unit_interval u → cardCell s = None → deckProperty s ≠ [] →
  (Forall (λ v, MIN_CARD ≤ v ≤ MAX_CARD) (deckProperty s) →
   ∃ c s',
     revealTopCard u s = Done tt s'
     ∧ cardCell s' = Some c
     ∧ c ∈ deckProperty s
     ∧ deckProperty s ≡ₚ c :: deckProperty s'
     ∧ getTokensInPool s' = Done (Some 0) s'
     ∧ markerRow s' = markerRow s
     ∧ playerNames s' = playerNames s
     ∧ playerTokenCells s' = playerTokenCells s
     ∧ playerCardRows s' = playerCardRows s)
  ∧ (∀ c, card (drawCard u (deckProperty s)) = Some c →
          ¬ (MIN_CARD ≤ c ≤ MAX_CARD) →
          revealTopCard u s = Thrown (NoColorDefined (Some c)) s).
Proof.
  intros Hu Hc Hd. split.
  - intros Hrange.
    destruct (revealTopCardImpl_ok u s Hu Hc Hd Hrange) as (c & Hp & Hr).
    exists c. eexists. split; [exact Hr|]. split_and!; try done.
    rewrite Hp. by left.
  - intros c Hcard Hout. by apply revealTopCardImpl_no_color.
Qed.

Lemma revealTopCard_reveals_witness :
  unit_interval (1 # 2)
  ∧ cardCell example_table = None
  ∧ deckProperty example_table ≠ []
  ∧ Forall (λ v, MIN_CARD ≤ v ≤ MAX_CARD) (deckProperty example_table)
  ∧ cardCell (table_after (revealTopCard (1 # 2) example_table)) = Some 24
  ∧ (∃ c s',
       revealTopCard (1 # 2) example_table = Done tt s'
       ∧ cardCell s' = Some c
       ∧ c ∈ deckProperty example_table
       ∧ deckProperty example_table ≡ₚ c :: deckProperty s'
       ∧ getTokensInPool s' = Done (Some 0) s'
       ∧ markerRow s' = markerRow example_table
       ∧ playerNames s' = playerNames example_table
       ∧ playerTokenCells s' = playerTokenCells example_table
       ∧ playerCardRows s' = playerCardRows example_table)
  ∧ revealTopCard (1 # 2) (with_deckProperty [36] example_table)
    = Thrown (NoColorDefined (Some 36)) (with_deckProperty [36] example_table).
Proof.
  assert (cardCell example_table = None) as Hc by (vm_compute; reflexivity).
  assert (deckProperty example_table ≠ []) as Hd by (vm_compute; discriminate).
  assert (Forall (λ v, MIN_CARD ≤ v ≤ MAX_CARD) (deckProperty example_table))
    as Hrange by (apply (bool_decide_unpack _); vm_compute; exact I).
  split; [exact half_unit|]. split; [exact Hc|]. split; [exact Hd|].
  split; [exact Hrange|]. split; [vm_compute; reflexivity|]. split.
  - exact (proj1 (revealTopCard_reveals (1 # 2) example_table half_unit Hc Hd)
             Hrange).
  - apply (proj2 (revealTopCard_reveals (1 # 2) (with_deckProperty [36] example_table)
                    half_unit Hc ltac:(discriminate)) 36).
    + vm_compute. reflexivity.
    + unfold MIN_CARD, MAX_CARD. lia.
Defined.

(** X10. When the deck is empty and no card is out (the game is over),
    every action is refused and leaves the table as it is: [revealTopCard]
    throws "No more cards in the deck!", [takeCard] "No card revealed yet
    to take" and [noThanks] "No card revealed yet!".  [drawCard] itself
    would not throw on the empty deck: it returns [undefined] as the card. *)
Theorem game_over_refuses (opts : options) (u : Q) (s : table) :
  cardCell s = None → deckProperty s = [] →
  revealTopCard u s = Thrown NoMoreCards s
  ∧ takeCard opts u s = Thrown NoCardToTake s
  ∧ noThanks s = Thrown NoCardRevealed s
  ∧ (∀ a, table_after (perform opts a s) = s)
  ∧ drawCard u (deckProperty s) = {| card := None; remainingDeck := [] |}.
Proof.
  intros Hc Hd.
  pose proof (revealTopCardImpl_deck_empty u s Hc Hd) as Hreveal.
  pose proof (takeCard_no_card opts u s Hc) as Htake.
  pose proof (noThanks_no_card s Hc) as Hdecline.
  split_and!; try done.
  - intros [u'|u'|]; simpl.
    + unfold revealTopCard, singleEntry.
      by rewrite (revealTopCardImpl_deck_empty u' s Hc Hd).
    + by rewrite (takeCard_no_card opts u' s Hc).
    + by rewrite Hdecline.
  - rewrite Hd. apply drawCard_empty.
Qed.

Lemma game_over_refuses_witness :
  cardCell example_finished = None
  ∧ deckProperty example_finished = []
  ∧ reachable OPTIONS example_players (newDeck OPTIONS example_rnd) example_finished
  ∧ revealTopCard (1 # 2) example_finished = Thrown NoMoreCards example_finished
  ∧ takeCard OPTIONS (1 # 2) example_finished = Thrown NoCardToTake example_finished
  ∧ noThanks example_finished = Thrown NoCardRevealed example_finished.
Proof.
  assert (cardCell example_finished = None) as Hc by (vm_compute; reflexivity).
  assert (deckProperty example_finished = []) as Hd by (vm_compute; reflexivity).
  destruct (game_over_refuses OPTIONS (1 # 2) example_finished Hc Hd)
    as (H1 & H2 & H3 & _).
  split; [exact Hc|]. split; [exact Hd|].
  split; [exact example_finished_reachable|]. by repeat split.
Defined.

(** X11. In a game in which at least one player has a name that is not
    blank, [takeCard] (lines 2274-2298) goes through whenever a card is out.
    The card joins the hand of the player at the marker, whose
    row is rendered anew; the tokens of the pool go to that player and the
    pool is empty afterwards; the marker stays; the other rows and token
    cells are not touched.  The card cell is blank and the deck as before,
    with the message "Click DECK ..." or, when the deck is empty, "Game
    Over! ..."; with [AUTO_REVEAL_NEXT_CARD] and cards left, the next card
    is revealed at once. *)
Theorem takeCard_moves_the_card (opts : options) (players : list string)
    (deck0 : list Z) (u : Q) (s : table) (c p : Z) :
  some_name players → reachable opts players deck0 s → unit_interval u →
  cardCell s = Some c → markerRow s = Some p →
  ∃ row z s',
    playerCardRows s !! Z.to_nat p = Some row
    ∧ playerTokenCells s !! Z.to_nat p = Some (Some z)
    ∧ takeCard opts u s = Done tt s'
    ∧ playerCardRows s'
      = <[Z.to_nat p := renderHand (handCards row ++ [c])]> (playerCardRows s)
    ∧ handCards (renderHand (handCards row ++ [c])) ≡ₚ c :: handCards row
    ∧ playerTokenCells s'
      = <[Z.to_nat p := Some (z + tablePool s)]> (playerTokenCells s)
    ∧ tablePool s' = 0
    ∧ markerRow s' = Some p
    ∧ (AUTO_REVEAL_NEXT_CARD opts = false ∨ deckProperty s = [] →
       cardCell s' = None
       ∧ deckProperty s' = deckProperty s
       ∧ tokenBox s' = BoxMessage (if bool_decide (deckProperty s = [])
                                   then MSG_END_GAME else MSG_REVEAL))
    ∧ (AUTO_REVEAL_NEXT_CARD opts = true → deckProperty s ≠ [] →
       ∃ c', cardCell s' = Some c' ∧ deckProperty s ≡ₚ c' :: deckProperty s').
Proof.
  intros Hnamed Hreach Hu Hc Hm.
  destruct (reachable_inv _ _ _ _ Hnamed Hreach) as (Hn & Hlen & Hnd & Hrange & Hinv).
  destruct (active_hand players deck0 Hn Hrange Hlen s c p Hinv Hc Hm)
    as (Hp & row & z & Hrow & Hz & Hfilled & Hrowlen & Hok).
  pose proof (takeCard_step opts players deck0 Hn Hrange Hlen u s c p z row
                Hinv Hc Hm Hrow Hz) as Hstep.
  cbv zeta in Hstep. set (taken := with_tokenBox _ _) in Hstep.
  destruct (renderHand_cards _ (in_range_text_ok _ Hok)) as (Hcards & _ & _).
  assert (handCards (renderHand (handCards row ++ [c])) ≡ₚ c :: handCards row)
    as Hperm.
  { rewrite Hcards, sortNumbers_Permutation. by rewrite Permutation_app_comm. }
  exists row, z. rewrite Hstep.
  destruct (decide (deckProperty s = [])) as [Hd|Hd].
  - rewrite bool_decide_eq_false_2 by (rewrite Hd; simpl; lia).
    eexists. split_and!; try done.
    intros _. by rewrite bool_decide_eq_true_2.
  - rewrite bool_decide_eq_true_2 by (destruct (deckProperty s); [done | simpl; lia]).
    unfold enableDeck. destruct (AUTO_REVEAL_NEXT_CARD opts) eqn:Hauto.
    + destruct (revealTopCardImpl_ok u taken Hu eq_refl Hd
                  (inv_deck_range players deck0 Hrange s Hinv)) as (c' & Hp' & ->).
      eexists. split_and!; try done.
      * intros [?|?]; done.
      * intros _ _. by exists c'.
    + eexists. split_and!; try done.
      intros _. by rewrite bool_decide_eq_false_2.
Qed.

Lemma takeCard_moves_the_card_witness :
  some_name example_players
  ∧ reachable OPTIONS example_players (newDeck OPTIONS example_rnd) example_declined
  ∧ cardCell example_declined = Some 24
  ∧ markerRow example_declined = Some 3
  ∧ playerCardRows (table_after (takeCard OPTIONS (1 # 2) example_declined))
    = [[]; []; []; [CellNumber 24]; []; []; []]
  ∧ playerTokenCells (table_after (takeCard OPTIONS (1 # 2) example_declined))
    = [Some 11; Some 11; Some 10; Some 12; None; None; None]
  ∧ ∃ row z s',
      playerCardRows example_declined !! Z.to_nat 3 = Some row
      ∧ playerTokenCells example_declined !! Z.to_nat 3 = Some (Some z)
      ∧ takeCard OPTIONS (1 # 2) example_declined = Done tt s'
      ∧ playerCardRows s'
        = <[Z.to_nat 3 := renderHand (handCards row ++ [24])]>
            (playerCardRows example_declined)
      ∧ handCards (renderHand (handCards row ++ [24])) ≡ₚ 24 :: handCards row
      ∧ playerTokenCells s'
        = <[Z.to_nat 3 := Some (z + tablePool example_declined)]>
            (playerTokenCells example_declined)
      ∧ tablePool s' = 0
      ∧ markerRow s' = Some 3.
Proof.
  assert (reachable OPTIONS example_players (newDeck OPTIONS example_rnd)
            example_declined) as Hreach.
  { apply reachable_decline. apply reachable_reveal; [exact half_unit|].
    apply example_table_reachable. }
  assert (cardCell example_declined = Some 24) as Hc by (vm_compute; reflexivity).
  assert (markerRow example_declined = Some 3) as Hm by (vm_compute; reflexivity).
  split; [exact example_players_named|]. split; [exact Hreach|].
  split; [exact Hc|]. split; [exact Hm|].
  split; [vm_compute; reflexivity|]. split; [vm_compute; reflexivity|].
  destruct (takeCard_moves_the_card OPTIONS example_players _ (1 # 2)
              example_declined 24 3 example_players_named Hreach half_unit Hc Hm)
    as (row & z & s' & H1 & H2 & H3 & H4 & H5 & H6 & H7 & H8 & _).
  exists row, z, s'. by repeat split.
Defined.

(** X12. In a game in which at least one player has a name that is not
    blank, when a card is out and the player at the marker holds [z >= 1]
    tokens, [noThanks] (lines 2311-2322, 2479-2492) goes through:
    that player has [z - 1] tokens, the pool one more, and the card, the
    deck, the hands and the other token cells are as before. *)
Theorem noThanks_pays_a_token (opts : options) (players : list string)
    (deck0 : list Z) (s : table) (c p z : Z) :
  some_name players → reachable opts players deck0 s →
  cardCell s = Some c → markerRow s = Some p →
  playerTokenCells s !! Z.to_nat p = Some (Some z) → z ≠ 0 →
  ∃ s',
    noThanks s = Done tt s'
    ∧ 1 ≤ z
    ∧ playerTokenCells s' = <[Z.to_nat p := Some (z - 1)]> (playerTokenCells s)
    ∧ tablePool s' = tablePool s + 1
    ∧ cardCell s' = Some c
    ∧ deckProperty s' = deckProperty s
    ∧ playerCardRows s' = playerCardRows s
    ∧ playerNames s' = playerNames s.
Proof.
  intros Hnamed Hreach Hc Hm Hz Hne.
  destruct (reachable_inv _ _ _ _ Hnamed Hreach) as (Hn & Hlen & Hnd & Hrange & Hinv).
  pose proof (hi_tokens _ _ (reachable_hands _ _ _ _ Hnamed Hreach) _ _ Hz) as Hpos.
  rewrite (noThanks_step players deck0 Hn Hnamed Hlen s c p z Hinv Hc Hm Hz Hne).
  eexists. split_and!; try done; [lia|].
  change (tablePool (with_markerRow ?m ?t)) with (tablePool t).
  rewrite tablePool_tokens. pose proof (tablePool_nonneg s). lia.
Qed.

Lemma noThanks_pays_a_token_witness :
  some_name example_players
  ∧ reachable OPTIONS example_players (newDeck OPTIONS example_rnd) example_revealed
  ∧ cardCell example_revealed = Some 24
  ∧ markerRow example_revealed = Some 2
  ∧ playerTokenCells example_revealed !! Z.to_nat 2 = Some (Some 11)
  ∧ ∃ s',
      noThanks example_revealed = Done tt s'
      ∧ 1 ≤ 11
      ∧ playerTokenCells s'
        = <[Z.to_nat 2 := Some (11 - 1)]> (playerTokenCells example_revealed)
      ∧ tablePool s' = tablePool example_revealed + 1
      ∧ cardCell s' = Some 24
      ∧ deckProperty s' = deckProperty example_revealed
      ∧ playerCardRows s' = playerCardRows example_revealed
      ∧ playerNames s' = playerNames example_revealed.
Proof.
  assert (reachable OPTIONS example_players (newDeck OPTIONS example_rnd)
            example_revealed) as Hreach.
  { apply reachable_reveal; [exact half_unit|]. apply example_table_reachable. }
  assert (cardCell example_revealed = Some 24) as Hc by (vm_compute; reflexivity).
  assert (markerRow example_revealed = Some 2) as Hm by (vm_compute; reflexivity).
  assert (playerTokenCells example_revealed !! Z.to_nat 2 = Some (Some 11)) as Hz
    by (vm_compute; reflexivity).
  split; [exact example_players_named|]. split; [exact Hreach|].
  split; [exact Hc|]. split; [exact Hm|]. split; [exact Hz|].
  apply (noThanks_pays_a_token OPTIONS example_players _ example_revealed 24 2 11
           example_players_named Hreach Hc Hm Hz). discriminate.
Defined.

(** ** Hands and tokens on the tables of a game *)

Lemma Sorted_le_NoDup (numbers : list Z) :
  Sorted Z.le numbers → NoDup numbers → Sorted Z.lt numbers.
Proof.
  intros Hsorted Hnd. apply StronglySorted_Sorted.
  apply (Sorted_StronglySorted Z.le) in Hsorted.
  induction Hsorted as [|x l Hl IH Hall]; [constructor|].
  apply NoDup_cons in Hnd as [Hx Hnd]. constructor; [by apply IH|].
  apply Forall_forall. intros y Hy. rewrite Forall_forall in Hall.
  specialize (Hall y Hy). assert (x ≠ y) by (by intros ->). lia.
Qed.

Lemma cellsSum_nonneg (cells : list (option Z)) :
  (∀ j v, cells !! j = Some (Some v) → 0 ≤ v) → 0 ≤ cellsSum cells.
Proof.
  induction cells as [|x cells IH]; intros Hpos; [done|].
  rewrite cellsSum_cons.
  assert (0 ≤ default 0 x) as Hx.
  { destruct x as [v|]; [|done]. by apply (Hpos 0%nat v). }
  assert (0 ≤ cellsSum cells); [|lia].
  apply IH. intros j v Hj. by apply (Hpos (S j)).
Qed.

Lemma cellsSum_bound (cells : list (option Z)) (i : nat) (z : Z) :
  (∀ j v, cells !! j = Some (Some v) → 0 ≤ v) →
  cells !! i = Some (Some z) →
  z ≤ cellsSum cells.
Proof.
  revert i. induction cells as [|x cells IH]; intros i Hpos Hi; [done|].
  rewrite cellsSum_cons.
  assert (∀ j v, cells !! j = Some (Some v) → 0 ≤ v) as Hpos'.
  { intros j v Hj. by apply (Hpos (S j)). }
  pose proof (cellsSum_nonneg cells Hpos') as Hrest.
  destruct i as [|i].
  - simpl in Hi. injection Hi as ->. simpl. lia.
  - assert (0 ≤ default 0 x) as Hx.
    { destruct x as [v|]; [|done]. by apply (Hpos 0%nat v). }
    pose proof (IH i Hpos' Hi). lia.
Qed.

Lemma hand_in_rows (rows : list (list card_cell)) (i : nat) (row : list card_cell) :
  rows !! i = Some row →
  ∃ before after, rowsCards rows = before ++ handCards row ++ after.
Proof.
  intros Hrow. apply list_elem_of_lookup_2 in Hrow.
  apply list_elem_of_split in Hrow as (r1 & r2 & ->).
  exists (rowsCards r1), (rowsCards r2).
  unfold rowsCards. by rewrite fmap_app, concat_app.
Qed.

(** The cards of a hand are cards of the deck the game began with. *)
Lemma reachable_hand_range (opts : options) (players : list string)
    (deck0 : list Z) (s : table) (i : nat) (row : list card_cell) :
  some_name players → reachable opts players deck0 s →
  playerCardRows s !! i = Some row →
  Forall (λ v, v ∈ deck0) (handCards row)
  ∧ Forall (λ v, MIN_CARD ≤ v ≤ MAX_CARD) (handCards row)
  ∧ Forall card_text_ok (handCards row).
Proof.
  intros Hnamed Hreach Hrow.
  destruct (reachable_inv _ _ _ _ Hnamed Hreach) as (_ & _ & _ & Hrange & Hinv).
  destruct (hand_in_rows _ _ _ Hrow) as (before & after & Hsplit).
  pose proof (gi_cards _ _ _ Hinv) as Hcards. unfold cardsInPlay in Hcards.
  rewrite Hsplit in Hcards.
  assert (Forall (λ v, v ∈ deck0) (handCards row)) as Hin.
  { apply Forall_forall. intros v Hv. rewrite <- Hcards, !elem_of_app. auto. }
  split_and!; [done | |]; (eapply Forall_impl; [exact Hin|]);
    intros v Hv; apply Hrange in Hv;
    unfold card_text_ok, MIN_CARD, MAX_CARD in *; lia.
Qed.

(** X13. On every table of a game in which at least one player has a
    name that is not blank, the row of a player is what [addCardToPlayer] (lines 2676-2702) renders for the cards of the row:
    the cards stand in ascending order without repetition, every card is a
    card of the deck the game began with, no cell is lost or left over, and
    the rows below the players stay empty. *)
Theorem hands_stay_rendered (opts : options) (players : list string)
    (deck0 : list Z) (s : table) (i : nat) (row : list card_cell) :
  some_name players → reachable opts players deck0 s →
  playerCardRows s !! i = Some row →
  row = renderHand (handCards row)
  ∧ Sorted Z.lt (handCards row)
  ∧ Forall (λ v, v ∈ deck0) (handCards row)
  ∧ length (handCards row) = length row
  ∧ ((length players ≤ i)%nat → row = []).
Proof.
  intros Hnamed Hreach Hrow.
  destruct (reachable_inv _ _ _ _ Hnamed Hreach) as (Hn & Hlen & Hnd & Hrange & Hinv).
  pose proof (reachable_hands _ _ _ _ Hnamed Hreach) as [Hrendered _ Hunused].
  assert (row = renderHand (handCards row)) as Heq.
  { eapply Forall_lookup_1 in Hrendered; [|exact Hrow]. done. }
  assert (Forall cell_filled row) as Hfilled.
  { eapply Forall_lookup_1; [apply (gi_rows _ _ _ Hinv) | done]. }
  destruct (hand_in_rows _ _ _ Hrow) as (before & after & Hsplit).
  pose proof (gi_cards _ _ _ Hinv) as Hcards. unfold cardsInPlay in Hcards.
  rewrite Hsplit in Hcards.
  assert (Forall (λ v, v ∈ deck0) (handCards row)) as Hin.
  { apply Forall_forall. intros v Hv. rewrite <- Hcards, !elem_of_app. auto. }
  assert (NoDup (handCards row)) as Hnodup.
  { rewrite <- Hcards in Hnd.
    apply NoDup_app in Hnd as (_ & _ & Hnd).
    apply NoDup_app in Hnd as (_ & _ & Hnd).
    apply NoDup_app in Hnd as (_ & _ & Hnd).
    by apply NoDup_app in Hnd as (Hnd & _). }
  assert (Forall card_text_ok (handCards row)) as Hok.
  { eapply Forall_impl; [exact Hin|]. intros v Hv. apply Hrange in Hv.
    unfold card_text_ok, MIN_CARD, MAX_CARD in *. lia. }
  split_and!; try done.
  - apply Sorted_le_NoDup; [|done].
    destruct (renderHand_cards _ Hok) as (Hsorted & _ & _).
    rewrite <- Heq in Hsorted. rewrite Hsorted. apply sortNumbers_sorted.
  - by apply filled_length.
  - intros Hi. by eapply Hunused.
Qed.

Lemma hands_stay_rendered_witness :
  some_name example_players
  ∧ reachable OPTIONS example_players (newDeck OPTIONS example_rnd) example_finished
  ∧ playerCardRows example_finished !! 3%nat = Some [CellNumber 3]
  ∧ handCards [CellNumber 3] = [3]
  ∧ [CellNumber 3] = renderHand (handCards [CellNumber 3])
  ∧ Sorted Z.lt (handCards [CellNumber 3])
  ∧ Forall (λ v, v ∈ newDeck OPTIONS example_rnd) (handCards [CellNumber 3]).
Proof.
  assert (playerCardRows example_finished !! 3%nat = Some [CellNumber 3]) as Hrow
    by (vm_compute; reflexivity).
  destruct (hands_stay_rendered OPTIONS example_players _ example_finished 3
              [CellNumber 3] example_players_named example_finished_reachable Hrow)
    as (H1 & H2 & H3 & _).
  split; [exact example_players_named|].
  split; [exact example_finished_reachable|]. split; [exact Hrow|].
  split; [reflexivity|]. by repeat split.
Defined.

(** X14. On every table of a game in which at least one player has a
    name that is not blank, each player holds a number of tokens that is not
    negative and not more than all the tokens dealt:
    [addTokenToPool] (lines 2479-2492) never takes a token from a player who
    has none. *)
Theorem tokens_stay_in_bounds (opts : options) (players : list string)
    (deck0 : list Z) (s : table) (i : nat) :
  some_name players → reachable opts players deck0 s →
  (i < length players)%nat →
  ∃ z tokens,
    playerTokenCells s !! i = Some (Some z)
    ∧ readPlayerTokens (Z.of_nat i) s = Done (Some z) s
    ∧ tokensPerPlayer (Z.of_nat (length players)) = inr tokens
    ∧ 0 ≤ z ≤ Z.of_nat (length players) * tokens.
Proof.
  intros Hnamed Hreach Hi.
  destruct (reachable_inv _ _ _ _ Hnamed Hreach) as (Hn & Hlen & Hnd & Hrange & Hinv).
  pose proof (reachable_hands _ _ _ _ Hnamed Hreach) as [_ Hpos _].
  destruct (gi_cells _ _ _ Hinv i Hi) as [z Hz].
  pose proof (gi_tokens _ _ _ Hinv) as Htotal. unfold totalTokensDealt in Htotal.
  destruct (tokensPerPlayer (Z.of_nat (length players))) as [e|tokens] eqn:Htokens.
  { rewrite tokensPerPlayer_inside in Htokens by lia. done. }
  exists z, tokens. split; [done|]. split.
  { apply readPlayerTokens_ok; [lia|]. by rewrite Nat2Z.id. }
  split; [done|].
  pose proof (cellsSum_bound _ i z Hpos Hz) as Hle.
  pose proof (tablePool_nonneg s). pose proof (Hpos _ _ Hz).
  unfold tokensHeld in Htotal. lia.
Qed.

Lemma tokens_stay_in_bounds_witness :
  some_name example_players
  ∧ reachable OPTIONS example_players (newDeck OPTIONS example_rnd) example_finished
  ∧ playerTokenCells example_finished = [Some 11; Some 11; Some 10; Some 12; None; None; None]
  ∧ ∃ z tokens,
      playerTokenCells example_finished !! 3%nat = Some (Some z)
      ∧ readPlayerTokens (Z.of_nat 3) example_finished = Done (Some z) example_finished
      ∧ tokensPerPlayer (Z.of_nat (length example_players)) = inr tokens
      ∧ 0 ≤ z ≤ Z.of_nat (length example_players) * tokens.
Proof.
  split; [exact example_players_named|].
  split; [exact example_finished_reachable|]. split; [vm_compute; reflexivity|].
  apply (tokens_stay_in_bounds OPTIONS example_players _ example_finished 3
           example_players_named example_finished_reachable).
  simpl. lia.
Defined.

(** ** Turns around the table *)

Lemma playerCount_bounds (s : table) : 0 ≤ playerCount s ≤ MAX_PLAYER_COUNT.
Proof.
  unfold playerCount. split; [lia|].
  pose proof (length_filter (λ name, name ≠ "")
                (take (Z.to_nat MAX_PLAYER_COUNT) (playerNames s))) as Hle.
  rewrite length_take in Hle. unfold MAX_PLAYER_COUNT in *. lia.
Qed.

Lemma advance_rounds (s : table) (p : Z) (k : nat) :
  markerRow s = Some p → 0 ≤ p < playerCount s →
  Nat.iter k (λ t, table_after (advanceActivePlayer t)) s
  = with_markerRow (Some ((p + Z.of_nat k) `mod` playerCount s)) s.
Proof.
  intros Hm Hp. pose proof (playerCount_bounds s) as Hn.
  induction k as [|k IH].
  - simpl. rewrite Z.add_0_r, Z.mod_small by done.
    destruct s. simpl in *. by rewrite Hm.
  - rewrite Nat.iter_succ, IH.
    set (m := (p + Z.of_nat k) `mod` playerCount s).
    assert (0 ≤ m < playerCount s) as Hmb by (apply Z.mod_pos_bound; lia).
    rewrite (advanceActivePlayer_ok (with_markerRow (Some m) s) m);
      [|done|lia|change (playerCount s ≠ 0); lia].
    change (playerCount (with_markerRow (Some m) s)) with (playerCount s).
    simpl. unfold with_markerRow at 1. simpl. unfold with_markerRow. do 2 f_equal.
    rewrite Z.rem_mod_nonneg by lia. unfold m.
    rewrite Zplus_mod_idemp_l. f_equal. lia.
Qed.

(** X15. [advanceActivePlayer] (lines 2449-2454) takes the marker around
    the table: from a player [p] it stands after [k] advances at
    [(p + k) mod playerCount], so it is back at [p] after [playerCount]
    advances, having stopped once at every player; nothing else on the
    table changes. *)
Theorem advanceActivePlayer_goes_round (s : table) (p : Z) (k : nat) :
  markerRow s = Some p → 0 ≤ p < playerCount s →
  Nat.iter k (λ t, table_after (advanceActivePlayer t)) s
  = with_markerRow (Some ((p + Z.of_nat k) `mod` playerCount s)) s
  ∧ Nat.iter (Z.to_nat (playerCount s)) (λ t, table_after (advanceActivePlayer t)) s = s
  ∧ (∀ q, 0 ≤ q < playerCount s →
       ∃ j, (j < Z.to_nat (playerCount s))%nat
            ∧ markerRow (Nat.iter j (λ t, table_after (advanceActivePlayer t)) s)
              = Some q).
Proof.
  intros Hm Hp. split_and!.
  - by apply advance_rounds.
  - rewrite (advance_rounds s p _ Hm Hp). rewrite Z2Nat.id by lia.
    rewrite <- (Z.mul_1_l (playerCount s)) at 1.
    rewrite Z.mod_add, Z.mod_small by lia.
    destruct s. simpl in *. by rewrite Hm.
  - intros q Hq. exists (Z.to_nat ((q - p) `mod` playerCount s)).
    pose proof (Z.mod_pos_bound (q - p) (playerCount s) ltac:(lia)).
    split; [lia|]. rewrite (advance_rounds s p _ Hm Hp). simpl. f_equal.
    rewrite Z2Nat.id by lia. rewrite Zplus_mod_idemp_r.
    replace (p + (q - p)) with q by lia. by apply Z.mod_small.
Qed.

Lemma advanceActivePlayer_goes_round_witness :
  markerRow example_revealed = Some 2
  ∧ playerCount example_revealed = 4
  ∧ markerRow (Nat.iter 3 (λ t, table_after (advanceActivePlayer t)) example_revealed)
    = Some 1
  ∧ Nat.iter (Z.to_nat (playerCount example_revealed))
      (λ t, table_after (advanceActivePlayer t)) example_revealed
    = example_revealed.
Proof.
  assert (markerRow example_revealed = Some 2) as Hm by (vm_compute; reflexivity).
  assert (playerCount example_revealed = 4) as Hn by (vm_compute; reflexivity).
  destruct (advanceActivePlayer_goes_round example_revealed 2 3 Hm) as (H1 & H2 & _);
    [rewrite Hn; lia|].
  split; [exact Hm|]. split; [exact Hn|]. split; [|exact H2].
  rewrite H1, Hn. reflexivity.
Defined.

(** ** Starting a game *)

Lemma setStartingPlayer_random (opts : options) (u : Q) (answer : start_answer)
    (players : list string) (s : table) :
  unit_interval u → players ≠ [] →
  PICK_START_PLAYER opts = false ∨ answer = RandomPick →
  ∃ p, setStartingPlayer opts u answer players s = Done p s
       ∧ 0 ≤ p < Z.of_nat (length players).
Proof.
  intros Hu Hne Hrandom.
  assert (setStartingPlayer opts u answer players s
          = Done (randInt u (Z.of_nat (length players) - 1) None) s) as Hs.
  { unfold setStartingPlayer.
    destruct Hrandom as [-> | ->]; [done|]. by destruct (PICK_START_PLAYER opts). }
  eexists. split; [exact Hs|].
  pose proof (randInt_range u (Z.of_nat (length players) - 1) Hu) as Hr.
  destruct players; [done|]. simpl in *. lia.
Qed.

(** X16. [setStartingPlayer] (lines 2383-2407) reads and changes nothing
    on the table.  When the user is asked and enters a number, the numbers
    1 to [players.length] are accepted and give the player one less; any
    other number, and a text that is no number, throw "Invalid start player
    value"; without an entry the player is drawn among all the players. *)
Theorem setStartingPlayer_checks (opts : options) (u : Q) (players : list string)
    (s : table) (n : Z) :
  unit_interval u → players ≠ [] →
  (PICK_START_PLAYER opts = true →
     (1 ≤ n ≤ Z.of_nat (length players) →
        setStartingPlayer opts u (Entered (Some n)) players s = Done (n - 1) s)
     ∧ (¬ (1 ≤ n ≤ Z.of_nat (length players)) →
        setStartingPlayer opts u (Entered (Some n)) players s
        = Thrown (InvalidStartPlayer (Some (n - 1))) s)
     ∧ setStartingPlayer opts u (Entered None) players s
       = Thrown (InvalidStartPlayer None) s)
  ∧ (∀ answer, PICK_START_PLAYER opts = false ∨ answer = RandomPick →
       ∃ p, setStartingPlayer opts u answer players s = Done p s
            ∧ 0 ≤ p < Z.of_nat (length players)).
Proof.
  intros Hu Hne. split.
  - intros Hpick. unfold setStartingPlayer. rewrite Hpick. simpl. split_and!.
    + intros Hn. by rewrite bool_decide_eq_true_2 by lia.
    + intros Hn. by rewrite bool_decide_eq_false_2 by lia.
    + done.
  - intros answer Hrandom. by apply setStartingPlayer_random.
Qed.

Lemma setStartingPlayer_checks_witness :
  unit_interval (1 # 2)
  ∧ setStartingPlayer
      {| REMOVE_TENS := false; PICK_START_PLAYER := true;
         AUTO_REVEAL_NEXT_CARD := false |}
      (1 # 2) (Entered (Some 4)) example_players example_table
    = Done 3 example_table
  ∧ setStartingPlayer
      {| REMOVE_TENS := false; PICK_START_PLAYER := true;
         AUTO_REVEAL_NEXT_CARD := false |}
      (1 # 2) (Entered (Some 5)) example_players example_table
    = Thrown (InvalidStartPlayer (Some 4)) example_table
  ∧ ∃ p, setStartingPlayer OPTIONS (1 # 2) RandomPick example_players example_table
         = Done p example_table
         ∧ 0 ≤ p < Z.of_nat (length example_players).
Proof.
  split; [exact half_unit|].
  destruct (setStartingPlayer_checks
              {| REMOVE_TENS := false; PICK_START_PLAYER := true;
                 AUTO_REVEAL_NEXT_CARD := false |}
              (1 # 2) example_players example_table 4 half_unit) as [H4 _];
    [discriminate|].
  destruct (setStartingPlayer_checks
              {| REMOVE_TENS := false; PICK_START_PLAYER := true;
                 AUTO_REVEAL_NEXT_CARD := false |}
              (1 # 2) example_players example_table 5 half_unit) as [H5 _];
    [discriminate|].
  destruct (setStartingPlayer_checks OPTIONS (1 # 2) example_players example_table 0
              half_unit) as [_ Hr]; [discriminate|].
  split; [apply (proj1 (H4 eq_refl)); simpl; lia|].
  split; [apply (proj1 (proj2 (H5 eq_refl))); simpl; lia|].
  apply Hr. by right.
Defined.

(** X17. [newGame] (lines 2371-2381) on the sheet [renderNewTable] left for
    3 to 7 players, with a random start player, goes through: every player
    has the tokens of [tokensPerPlayer], the marker is at one of the
    players, no hand holds a card, the names stand as given, and deck and
    card cell hold the cards of [newDeck] between them; unless the first
    card is revealed at once, the deck is [newDeck]'s and the message is
    "Click DECK ...". *)
Theorem newGame_sets_the_table (opts : options) (rnd : nat → Q)
    (answer : start_answer) (oldDeck : list Z) (players : list string) :
  all_unit rnd → (3 ≤ length players ≤ 7)%nat →
  PICK_START_PLAYER opts = false ∨ answer = RandomPick →
  ∃ s tokens p,
    newGame opts rnd answer players (renderNewTable oldDeck players) = Done tt s
    ∧ tokensPerPlayer (Z.of_nat (length players)) = inr tokens
    ∧ markerRow s = Some p ∧ 0 ≤ p < Z.of_nat (length players)
    ∧ playerTokenCells s
      = replicate (length players) (Some tokens) ++ replicate (7 - length players) None
    ∧ playerCardRows s = replicate 7 []
    ∧ playerNames s = players ++ replicate (7 - length players) ""
    ∧ deckProperty s ++ option_list (cardCell s) ≡ₚ newDeck opts rnd
    ∧ (AUTO_REVEAL_NEXT_CARD opts = false →
       deckProperty s = newDeck opts rnd ∧ cardCell s = None
       ∧ tokenBox s = BoxMessage MSG_REVEAL).
Proof.
  intros Hrnd Hn Hrandom.
  assert (∃ s, newGame opts rnd answer players (renderNewTable oldDeck players)
               = Done tt s
               ∧ (AUTO_REVEAL_NEXT_CARD opts = false →
                  deckProperty s = newDeck opts rnd ∧ cardCell s = None
                  ∧ tokenBox s = BoxMessage MSG_REVEAL)) as (s & Hs & Hplain).
  { unfold newGame, bind at 1, setDeck, modify.
    set (s1 := with_deckProperty (newDeck opts rnd) (renderNewTable oldDeck players)).
    unfold bind at 1.
    destruct (dealTokens_inside (Z.of_nat (length players)) s1 ltac:(lia))
      as (tokens & Htokens & ->).
    set (s2 := with_playerTokenCells _ s1). unfold bind at 1.
    destruct (setStartingPlayer_random opts (rnd (newDeck_draws opts)) answer players
                s2 (Hrnd _)) as (p & -> & Hp); [by destruct players | done |].
    unfold bind at 1, setActivePlayer, modify.
    set (s3 := with_markerRow (Some p) s2).
    unfold enableDeck. destruct (AUTO_REVEAL_NEXT_CARD opts).
    - destruct (revealTopCardImpl_ok
                  (rnd (newDeck_draws opts + setStartingPlayer_draws opts answer)%nat)
                  s3 (Hrnd _) eq_refl) as (c & _ & ->).
      { pose proof (proj1 (newDeck_spec opts rnd Hrnd)) as Hlen. simpl.
        by destruct (newDeck opts rnd). }
      { apply Forall_forall. intros c. by apply newDeck_in_range. }
      by eexists.
    - by eexists. }
  destruct (newGame_table opts rnd answer oldDeck players s Hrnd Hs)
    as (tokens & p & Htokens & Hp & Hm & Hrows & Hcells & Hnames).
  destruct (newGame_inv opts rnd answer oldDeck players s Hrnd Hs) as [_ Hinv].
  exists s, tokens, p. split_and!; try done; try lia.
  pose proof (gi_cards _ _ _ Hinv) as Hcards. unfold cardsInPlay in Hcards.
  rewrite Hrows in Hcards.
  change (rowsCards (replicate 7 [])) with (@nil Z) in Hcards.
  by rewrite app_nil_r in Hcards.
Qed.

Lemma newGame_sets_the_table_witness :
  all_unit example_rnd
  ∧ (3 ≤ length example_players ≤ 7)%nat
  ∧ playerTokenCells example_table
    = [Some 11; Some 11; Some 11; Some 11; None; None; None]
  ∧ ∃ s tokens p,
      newGame OPTIONS example_rnd RandomPick example_players
        (renderNewTable [] example_players) = Done tt s
      ∧ tokensPerPlayer (Z.of_nat (length example_players)) = inr tokens
      ∧ markerRow s = Some p ∧ 0 ≤ p < Z.of_nat (length example_players)
      ∧ playerTokenCells s
        = replicate (length example_players) (Some tokens)
          ++ replicate (7 - length example_players) None
      ∧ playerCardRows s = replicate 7 []
      ∧ playerNames s = example_players ++ replicate (7 - length example_players) ""
      ∧ deckProperty s ++ option_list (cardCell s) ≡ₚ newDeck OPTIONS example_rnd
      ∧ (AUTO_REVEAL_NEXT_CARD OPTIONS = false →
         deckProperty s = newDeck OPTIONS example_rnd ∧ cardCell s = None
         ∧ tokenBox s = BoxMessage MSG_REVEAL).
Proof.
  split; [exact example_rnd_unit|]. split; [simpl; lia|].
  split; [vm_compute; reflexivity|].
  apply (newGame_sets_the_table OPTIONS example_rnd RandomPick [] example_players
           example_rnd_unit); [simpl; lia | by right].
Defined.

(** X18. A [newGame] that throws has already replaced the deck of the
    document: for a number of players outside 3 to 7 it throws "Unsupported
    player count" with the new deck stored and nothing else changed; for a
    start player the user entered wrongly it throws "Invalid start player
    value" with the new deck stored and the tokens dealt. *)
Theorem newGame_throws_after_the_deck (opts : options) (rnd : nat → Q)
    (answer : start_answer) (players : list string) (s : table) :
  (¬ (3 ≤ length players ≤ 7)%nat →
     newGame opts rnd answer players s
     = Thrown (UnsupportedPlayerCount (Z.of_nat (length players)))
         (with_deckProperty (newDeck opts rnd) s))
  ∧ ((3 ≤ length players ≤ 7)%nat → PICK_START_PLAYER opts = true →
     ∀ n, answer = Entered (Some n) → ¬ (1 ≤ n ≤ Z.of_nat (length players)) →
     ∃ tokens,
       tokensPerPlayer (Z.of_nat (length players)) = inr tokens
       ∧ newGame opts rnd answer players s
         = Thrown (InvalidStartPlayer (Some (n - 1)))
             (with_playerTokenCells
                (replicate (length players) (Some tokens)
                 ++ drop (length players) (playerTokenCells s))
                (with_deckProperty (newDeck opts rnd) s))).
Proof.
  split.
  - intros Hn. unfold newGame, bind at 1, setDeck, modify. unfold bind at 1.
    by rewrite dealTokens_outside by lia.
  - intros Hn Hpick n -> Hbad.
    unfold newGame, bind at 1, setDeck, modify. unfold bind at 1.
    destruct (dealTokens_inside (Z.of_nat (length players))
                (with_deckProperty (newDeck opts rnd) s) ltac:(lia))
      as (tokens & Htokens & ->).
    exists tokens. split; [done|]. unfold bind at 1.
    unfold setStartingPlayer. rewrite Hpick.
    change ((λ n0, n0 - 1) <$> Some n) with (Some (n - 1)). cbv iota beta.
    case_bool_decide; [lia|]. unfold throw. by rewrite Nat2Z.id.
Qed.

Lemma newGame_throws_after_the_deck_witness :
  ¬ (3 ≤ length ["Ann"; "Bob"] ≤ 7)%nat
  ∧ newGame OPTIONS example_rnd RandomPick ["Ann"; "Bob"] example_finished
    = Thrown (UnsupportedPlayerCount 2)
        (with_deckProperty (newDeck OPTIONS example_rnd) example_finished)
  ∧ length (deckProperty
              (table_after (newGame OPTIONS example_rnd RandomPick ["Ann"; "Bob"]
                              example_finished))) = 24%nat
  ∧ ∃ tokens,
      tokensPerPlayer (Z.of_nat (length example_players)) = inr tokens
      ∧ newGame {| REMOVE_TENS := false; PICK_START_PLAYER := true;
                   AUTO_REVEAL_NEXT_CARD := false |}
          example_rnd (Entered (Some 9)) example_players example_finished
        = Thrown (InvalidStartPlayer (Some (9 - 1)))
            (with_playerTokenCells
               (replicate (length example_players) (Some tokens)
                ++ drop (length example_players) (playerTokenCells example_finished))
               (with_deckProperty
                  (newDeck {| REMOVE_TENS := false; PICK_START_PLAYER := true;
                              AUTO_REVEAL_NEXT_CARD := false |} example_rnd)
                  example_finished)).
Proof.
  assert (¬ (3 ≤ length ["Ann"; "Bob"] ≤ 7)%nat) as Hn by (simpl; lia).
  split; [exact Hn|].
  pose proof (proj1 (newGame_throws_after_the_deck OPTIONS example_rnd RandomPick
                       ["Ann"; "Bob"] example_finished) Hn) as Hthrown.
  split; [exact Hthrown|]. split; [rewrite Hthrown; vm_compute; reflexivity|].
  apply (proj2 (newGame_throws_after_the_deck
                  {| REMOVE_TENS := false; PICK_START_PLAYER := true;
                     AUTO_REVEAL_NEXT_CARD := false |}
                  example_rnd (Entered (Some 9)) example_players example_finished));
    [simpl; lia | reflexivity | reflexivity | simpl; lia].
Defined.

(** ** The players of a new table *)

Lemma promptPlayers_spec (ask : Z → prompt_response) (indices : list Z)
    (players : list string) :
  ∃ k, (k ≤ length indices)%nat
       ∧ promptPlayers ask indices players
         = players ++ ((λ i, responseText (ask i)) <$> take k indices)
       ∧ Forall (λ i, selectedButton (ask i) ≠ ButtonNO) (take k indices)
       ∧ ((k < length indices)%nat →
          ∃ i, indices !! k = Some i ∧ selectedButton (ask i) = ButtonNO).
Proof.
  revert players. induction indices as [|i indices IH]; intros players.
  - exists 0%nat. simpl. rewrite app_nil_r. split_and!; [lia | done | done | lia].
  - cbn [promptPlayers]. cbv zeta.
    destruct (decide (selectedButton (ask i) = ButtonNO)) as [Hno|Hyes].
    + exists 0%nat. simpl. rewrite app_nil_r. split_and!; [lia | done | done |].
      intros _. by exists i.
    + destruct (IH (players ++ [responseText (ask i)])) as (k & Hk & Heq & Hall & Hstop).
      exists (S k). simpl. split_and!.
      * lia.
      * by rewrite Heq, <- app_assoc.
      * by constructor.
      * intros Hlt. apply Hstop. lia.
Qed.

Lemma take_xrange (k : nat) (n : Z) :
  Z.of_nat k ≤ n → take k (xrange 1 (n + 1)) = xrange 1 (Z.of_nat k + 1).
Proof.
  intros Hk. unfold xrange.
  replace (n + 1 - 1) with (Z.of_nat k + (n - Z.of_nat k)) by lia.
  rewrite seqZ_app by lia.
  replace (Z.of_nat k + 1 - 1) with (Z.of_nat k) by lia.
  rewrite take_app_length'; [done|]. rewrite length_seqZ. lia.
Qed.

(** X19. [getNewPlayersFromUser] (lines 2999-3022) returns between 3 and 7
    names: the texts of the prompts for the players 1 to [n], in that
    order, where the prompt for player [n + 1] is the first answered with
    "No" (or [n] is 7, after which nobody is asked).  Such a list is one
    [tokensPerPlayer] deals for.  It throws exactly when one of the first
    three prompts is answered with "No"; more than 7 names never come up. *)
Theorem getNewPlayersFromUser_asks (ask : Z → prompt_response) :
  (∀ players, getNewPlayersFromUser ask = inr players →
     (3 ≤ length players ≤ 7)%nat
     ∧ players = (λ i, responseText (ask i))
                 <$> xrange 1 (Z.of_nat (length players) + 1)
     ∧ (∀ i, 1 ≤ i ≤ Z.of_nat (length players) → selectedButton (ask i) ≠ ButtonNO)
     ∧ ((length players < 7)%nat →
        selectedButton (ask (Z.of_nat (length players) + 1)) = ButtonNO)
     ∧ ∃ tokens, tokensPerPlayer (Z.of_nat (length players)) = inr tokens)
  ∧ ((∃ i, 1 ≤ i ≤ 3 ∧ selectedButton (ask i) = ButtonNO)
     ↔ getNewPlayersFromUser ask = inl UnsupportedTable)
  ∧ (length (promptPlayers ask (xrange 1 (MAX_PLAYER_COUNT + 1)) []) ≤ 7)%nat.
Proof.
  destruct (promptPlayers_spec ask (xrange 1 (MAX_PLAYER_COUNT + 1)) [])
    as (k & Hk & Heq & Hall & Hstop).
  assert (length (xrange 1 (MAX_PLAYER_COUNT + 1)) = 7%nat) as Hseven by done.
  rewrite Hseven in Hk, Hstop.
  rewrite take_xrange in Heq, Hall by (unfold MAX_PLAYER_COUNT; lia).
  rewrite app_nil_l in Heq.
  assert (length (promptPlayers ask (xrange 1 (MAX_PLAYER_COUNT + 1)) []) = k) as Hlen.
  { rewrite Heq, length_fmap. unfold xrange. rewrite length_seqZ. lia. }
  assert (∀ i, 1 ≤ i ≤ Z.of_nat k → selectedButton (ask i) ≠ ButtonNO) as Hyes.
  { intros i Hi. rewrite Forall_forall in Hall. apply Hall.
    unfold xrange. apply elem_of_seqZ. lia. }
  assert ((k < 7)%nat → selectedButton (ask (Z.of_nat k + 1)) = ButtonNO) as Hno.
  { intros Hlt. destruct (Hstop Hlt) as (i & Hi & Hbutton).
    unfold xrange in Hi. apply lookup_seqZ in Hi as [-> _].
    by rewrite Z.add_comm. }
  unfold getNewPlayersFromUser. cbv zeta. rewrite Hlen. split_and!.
  - intros players. case_bool_decide as Hbad; [done|]. intros Hp.
    assert (players = promptPlayers ask (xrange 1 (MAX_PLAYER_COUNT + 1)) []) as ->
      by congruence.
    rewrite Hlen. split_and!; try done; try lia.
    eexists. apply tokensPerPlayer_inside. lia.
  - split.
    + intros (i & Hi & Hbutton). rewrite bool_decide_eq_true_2; [done|].
      left. destruct (decide (k < 3)%nat) as [|Hge]; [done|].
      exfalso. apply (Hyes i); [lia | done].
    + case_bool_decide as Hbad; [|done]. intros _.
      destruct Hbad as [Hlt|Hgt]; [|lia].
      exists (Z.of_nat k + 1). split; [lia|]. apply Hno. lia.
  - lia.
Qed.

Lemma getNewPlayersFromUser_asks_witness :
  getNewPlayersFromUser
    (λ i, {| selectedButton := if bool_decide (i ≤ 4) then ButtonYES else ButtonNO;
             responseText := if bool_decide (i = 1) then "Ann" else "Bob" |})
  = inr ["Ann"; "Bob"; "Bob"; "Bob"]
  ∧ (3 ≤ length ["Ann"; "Bob"; "Bob"; "Bob"] ≤ 7)%nat
  ∧ ∃ tokens, tokensPerPlayer (Z.of_nat (length ["Ann"; "Bob"; "Bob"; "Bob"]))
              = inr tokens.
Proof.
  assert (getNewPlayersFromUser
            (λ i, {| selectedButton := if bool_decide (i ≤ 4) then ButtonYES
                                       else ButtonNO;
                     responseText := if bool_decide (i = 1) then "Ann" else "Bob" |})
          = inr ["Ann"; "Bob"; "Bob"; "Bob"]) as Hplayers
    by (vm_compute; reflexivity).
  split; [exact Hplayers|].
  destruct (getNewPlayersFromUser_asks
              (λ i, {| selectedButton := if bool_decide (i ≤ 4) then ButtonYES
                                         else ButtonNO;
                       responseText := if bool_decide (i = 1) then "Ann"
                                       else "Bob" |})) as (Hok & _).
  destruct (Hok _ Hplayers) as (Hn & _ & _ & _ & Htokens).
  split; [exact Hn | exact Htokens].
Defined.

Lemma names_on_the_sheet (players : list string) :
  (length players ≤ 7)%nat →
  filter (λ name, name ≠ "")
    (take (Z.to_nat MAX_PLAYER_COUNT)
       (players ++ replicate (Z.to_nat MAX_PLAYER_COUNT - length players) ""))
  = filter (λ name, name ≠ "") players.
Proof.
  intros Hlen. rewrite take_ge.
  2:{ rewrite length_app, length_replicate. unfold MAX_PLAYER_COUNT. lia. }
  rewrite filter_app.
  assert (∀ n, filter (λ name : string, name ≠ "") (replicate n "") = []) as Hblank.
  { induction n as [|n IH]; [done|]. simpl. by rewrite filter_cons_False by auto. }
  by rewrite Hblank, app_nil_r.
Qed.

(** X20. The names [renderPlayerArea] wrote, where the sheet keeps them as
    the texts they are, are the names [getPlayersFromPreviousTable] (lines
    2752-2766) reads back from any table of the game, without the blank
    ones, and as many as [getPlayerCount] counts; [getPlayersForNewTable]
    (lines 2353-2369) hands them on as they are when the user keeps the
    players. *)
Theorem previous_players_read_back (opts : options) (players : list string)
    (deck0 : list Z) (s : table) (answers : setup_answers) :
  reachable opts players deck0 s →
  getPlayersFromPreviousTable (Some s) = Some (filter (λ name, name ≠ "") players)
  ∧ playerCount s = Z.of_nat (length (filter (λ name, name ≠ "") players))
  ∧ (Forall (λ name, name ≠ "") players →
     getPlayersFromPreviousTable (Some s) = Some players
     ∧ playerCount s = Z.of_nat (length players))
  ∧ (samePlayers answers = true →
     getPlayersForNewTable (Some s) answers
     = inr (filter (λ name, name ≠ "") players))
  ∧ getPlayersFromPreviousTable None = None.
Proof.
  intros Hreach.
  destruct (reachable_names _ _ _ _ Hreach) as [Hn Hsheet].
  assert (filter (λ name, name ≠ "")
            (take (Z.to_nat MAX_PLAYER_COUNT) (playerNames s))
          = filter (λ name, name ≠ "") players) as Hnames.
  { rewrite Hsheet. apply names_on_the_sheet. lia. }
  assert (Forall (λ name, name ≠ "") players →
          filter (λ name, name ≠ "") players = players) as Hall.
  { clear. induction 1 as [|name names Hname _ IH]; [done|].
    by rewrite filter_cons_True, IH. }
  unfold getPlayersForNewTable, getPlayersFromPreviousTable, playerCount.
  simpl. rewrite Hnames. split_and!; try done.
  - intros Hfull. by rewrite (Hall Hfull).
  - by intros ->.
Qed.

Lemma previous_players_read_back_witness :
  reachable OPTIONS example_players (newDeck OPTIONS example_rnd) example_finished
  ∧ getPlayersFromPreviousTable (Some example_finished) = Some example_players
  ∧ playerCount example_finished = 4.
Proof.
  destruct (previous_players_read_back OPTIONS example_players _ example_finished
              {| samePlayers := true; askName := λ _, {| selectedButton := ButtonNO;
                                                         responseText := "" |};
                 randomizeOrder := false; startAnswer := RandomPick |}
              example_finished_reachable)
    as (_ & _ & Hfull & _).
  destruct Hfull as [Hprev Hcount]; [by repeat constructor|].
  split; [exact example_finished_reachable|]. split; [exact Hprev | exact Hcount].
Defined.

(** ** A new table *)

Lemma revealTopCardImpl_thrown (u : Q) (s s' : table) (e : error) :
  revealTopCardImpl u s = Thrown e s' → s' = s.
Proof.
  destruct (cardCell s) as [c|] eqn:Hc.
  { rewrite (revealTopCardImpl_card_out u s c Hc). by intros [= _ <-]. }
  unfold revealTopCardImpl, bind, getCurrentCard, getDeck, gets. rewrite Hc.
  case_bool_decide; [by intros [= _ <-]|].
  unfold setCurrentCard, setDeck, setTokensInPool, setInstructionsMessage.
  destruct (card (drawCard u (deckProperty s))) as [c|]; [|done].
  destruct (cardNumberColor c); [done|]. by intros [= _ <-].
Qed.

(** Whatever [newGame] throws on a sheet without a card, the deck it leaves
    in the document is the new one. *)
Lemma newGame_thrown_deck (opts : options) (rnd : nat → Q) (answer : start_answer)
    (players : list string) (s s' : table) (e : error) :
  newGame opts rnd answer players s = Thrown e s' →
  deckProperty s' = newDeck opts rnd.
Proof.
  unfold newGame, bind at 1, setDeck, modify. unfold bind at 1.
  set (s1 := with_deckProperty (newDeck opts rnd) s).
  destruct (decide (3 ≤ Z.of_nat (length players) ≤ 7)) as [Hn|Hn].
  2:{ rewrite dealTokens_outside by done. by intros [= _ <-]. }
  destruct (dealTokens_inside _ s1 Hn) as (tokens & _ & ->).
  set (s2 := with_playerTokenCells _ s1). unfold bind at 1.
  assert (∀ o, setStartingPlayer opts (rnd (newDeck_draws opts)) answer players s2 = o →
               table_after o = s2) as Hstart.
  { intros o <-. unfold setStartingPlayer.
    destruct (PICK_START_PLAYER opts); [destruct answer as [|[n|]]|]; try done.
    simpl. by case_bool_decide. }
  destruct (setStartingPlayer opts _ answer players s2) as [p s2'|e2 s2'] eqn:Hs.
  2:{ specialize (Hstart _ eq_refl). simpl in Hstart. subst s2'. by intros [= _ <-]. }
  specialize (Hstart _ eq_refl). simpl in Hstart. subst s2'.
  unfold bind, setActivePlayer, modify, enableDeck.
  destruct (AUTO_REVEAL_NEXT_CARD opts); [|done].
  intros Hthrown. by apply revealTopCardImpl_thrown in Hthrown as ->.
Qed.

Lemma shuffled_names (rnd : nat → Q) (names : list string) :
  all_unit rnd →
  default "" <$> shuffle rnd (Some <$> names) ≡ₚ names.
Proof.
  intros Hrnd.
  destruct (defined_Permutation _ names (shuffle_Permutation rnd _ Hrnd))
    as (shuffled & -> & Hp).
  rewrite <- list_fmap_compose, <- Hp.
  assert ((default "" ∘ Some) <$> shuffled = shuffled) as ->; [|done].
  clear. induction shuffled as [|name shuffled IH]; [done|]. simpl. by f_equal.
Qed.

(** Every table of a game is the table of a document of a session: the
    players give their names one after the other, and the actions follow. *)
Lemma reachable_in_session (opts : options) (players : list string)
    (deck0 : list Z) (s : table) :
  reachable opts players deck0 s →
  ∃ d, session opts ShuffleNo d ∧ currentTable d = Some s.
Proof.
  induction 1 as [rnd answer oldDeck s Hrnd -> Hnew|s a _ IH Ha].
  - destruct (newGame_inv _ _ _ _ _ _ Hrnd Hnew) as [Hn _].
    set (answers :=
           {| samePlayers := false;
              askName := λ i,
                {| selectedButton :=
                     if bool_decide (i ≤ Z.of_nat (length players)) then ButtonOK
                     else ButtonNO;
                   responseText := default "" (players !! Z.to_nat (i - 1)) |};
              randomizeOrder := false;
              startAnswer := answer |}).
    assert (getNewPlayersFromUser (askName answers) = inr players) as Hasked.
    { destruct players as [|n1 [|n2 [|n3 [|n4 [|n5 [|n6 [|n7 [|n8 rest]]]]]]]];
        simpl in Hn; try lia; reflexivity. }
    exists (execute opts ShuffleNo (NewTable rnd answers)
              {| docTable := None; docDeck := [] |}).
    split; [apply session_step; [apply session_start | exact Hrnd]|].
    assert (newGame opts rnd answer players (renderNewTable [] players) = Done tt s)
      as Hfresh by exact Hnew.
    unfold execute, newTable. simpl docTable. simpl docDeck.
    unfold getPlayersForNewTable. simpl getPlayersFromPreviousTable. cbv iota beta.
    rewrite Hasked. cbv zeta. simpl shufflesPlayers. cbv iota.
    rewrite bool_decide_eq_false_2 by (by destruct players).
    change (λ k : nat, rnd (0 + k)%nat) with rnd. simpl startAnswer.
    rewrite Hfresh. simpl. unfold currentTable. simpl. by destruct s.
  - destruct IH as (d & Hsession & Htable).
    exists (execute opts ShuffleNo (Play a) d).
    split; [by apply session_step|].
    unfold execute. rewrite Htable. cbv zeta. unfold currentTable. simpl.
    by destruct (table_after (perform opts a s)).
Qed.

(** X21. A [newTable] (lines 2226-2266) that goes through leaves the table
    [newGame] leaves on a fresh sheet for the players chosen, in their order
    or, when the order is mixed, in the order [shuffle] gave them, with the
    random numbers that come after those of the shuffle.  There are 3 to 7
    players; on the table every player has the tokens of [tokensPerPlayer],
    the marker is at one of the players, no hand holds a card and the names
    stand as chosen.  The new sheet is the sheet "Table" of the document,
    the deck of the document is the deck of that table, of 24 cards or of
    23 with the first card out, and the table is the first of a game. *)
Theorem newTable_starts_a_game (opts : options) (shufflePlayers : shuffle_players)
    (rnd : nat → Q) (answers : setup_answers) (d d' : document) :
  all_unit rnd →
  newTable opts shufflePlayers rnd answers d = (inr tt, d') →
  ∃ chosen players deck0 s tokens p,
    getPlayersForNewTable (docTable d) answers = inr chosen
    ∧ players = (if shufflesPlayers shufflePlayers answers
                 then default "" <$> shuffle rnd (Some <$> chosen) else chosen)
    ∧ players ≡ₚ chosen
    ∧ (shufflesPlayers shufflePlayers answers = false → players = chosen)
    ∧ (3 ≤ length players ≤ 7)%nat
    ∧ (∃ draws,
         draws = (if shufflesPlayers shufflePlayers answers
                  then (length chosen - 1)%nat else 0%nat)
         ∧ deck0 = newDeck opts (λ k, rnd (draws + k)%nat)
         ∧ newGame opts (λ k, rnd (draws + k)%nat) (startAnswer answers) players
             (renderNewTable (docDeck d) players) = Done tt s)
    ∧ d' = {| docTable := Some s; docDeck := deckProperty s |}
    ∧ docTable d' = Some s
    ∧ currentTable d' = Some s
    ∧ tokensPerPlayer (Z.of_nat (length players)) = inr tokens
    ∧ playerTokenCells s
      = replicate (length players) (Some tokens) ++ replicate (7 - length players) None
    ∧ markerRow s = Some p ∧ 0 ≤ p < Z.of_nat (length players)
    ∧ playerCardRows s = replicate 7 []
    ∧ playerNames s = players ++ replicate (7 - length players) ""
    ∧ deckProperty s ++ option_list (cardCell s) ≡ₚ deck0
    ∧ reachable opts players deck0 s
    ∧ length deck0 = 24%nat.
Proof.
  intros Hrnd. unfold newTable.
  destruct (getPlayersForNewTable (docTable d) answers) as [e|chosen] eqn:Hchosen;
    [done|]. cbv zeta.
  set (players := if shufflesPlayers shufflePlayers answers
                  then default "" <$> shuffle rnd (Some <$> chosen) else chosen).
  set (draws := if shufflesPlayers shufflePlayers answers
                then (length chosen - 1)%nat else 0%nat).
  case_bool_decide as Hnone; [done|].
  destruct (newGame opts _ (startAnswer answers) players
              (renderNewTable (docDeck d) players)) as [[] s|e s] eqn:Hgame; [|done].
  intros [= <-].
  assert (all_unit (λ k, rnd (draws + k)%nat)) as Hrnd' by (intros k; apply Hrnd).
  destruct (newGame_inv _ _ _ _ _ _ Hrnd' Hgame) as [Hn Hinv].
  destruct (newGame_table _ _ _ _ _ _ Hrnd' Hgame)
    as (tokens & p & Htokens & Hp & Hm & Hrows & Hcells & Hnames).
  exists chosen, players, (newDeck opts (λ k, rnd (draws + k)%nat)), s, tokens, p.
  split_and!; try done; try lia.
  - unfold players. destruct (shufflesPlayers shufflePlayers answers); [|done].
    by apply shuffled_names.
  - intros Hoff. unfold players. rewrite Hoff. reflexivity.
  - by exists draws.
  - unfold currentTable. simpl. by destruct s.
  - pose proof (gi_cards _ _ _ Hinv) as Hcards. unfold cardsInPlay in Hcards.
    rewrite Hrows in Hcards.
    change (rowsCards (replicate 7 [])) with (@nil Z) in Hcards.
    by rewrite app_nil_r in Hcards.
  - by eapply reachable_newGame.
  - apply (newDeck_spec opts _ Hrnd').
Qed.

Lemma newTable_starts_a_game_witness :
  all_unit example_rnd
  ∧ newTable OPTIONS ShuffleYes example_rnd example_answers example_document
    = (inr tt, snd (newTable OPTIONS ShuffleYes example_rnd example_answers
                      example_document))
  ∧ playerNames <$> docTable
      (snd (newTable OPTIONS ShuffleYes example_rnd example_answers example_document))
    = Some ["Ann"; "Di"; "Bob"; "Cy"; ""; ""; ""]
  ∧ ∃ chosen players deck0 s,
      getPlayersForNewTable (docTable example_document) example_answers = inr chosen
      ∧ players ≡ₚ chosen
      ∧ (3 ≤ length players ≤ 7)%nat
      ∧ snd (newTable OPTIONS ShuffleYes example_rnd example_answers example_document)
        = {| docTable := Some s; docDeck := deckProperty s |}
      ∧ playerCardRows s = replicate 7 []
      ∧ reachable OPTIONS players deck0 s
      ∧ length deck0 = 24%nat.
Proof.
  assert (newTable OPTIONS ShuffleYes example_rnd example_answers example_document
          = (inr tt, snd (newTable OPTIONS ShuffleYes example_rnd example_answers
                            example_document))) as Hnew
    by (vm_compute; reflexivity).
  split; [exact example_rnd_unit|]. split; [exact Hnew|].
  split; [vm_compute; reflexivity|].
  destruct (newTable_starts_a_game OPTIONS ShuffleYes example_rnd example_answers
              example_document _ example_rnd_unit Hnew)
    as (chosen & players & deck0 & s & tokens & p & H1 & _ & H2 & _ & H4 & _ & H5
        & _ & _ & _ & _ & _ & _ & H6 & _ & _ & H7 & H8).
  exists chosen, players, deck0, s.
  split; [exact H1|]. split; [exact H2|]. split; [exact H4|].
  split; [exact H5|]. split; [exact H6|]. split; [exact H7 | exact H8].
Defined.

(** X22. A [newTable] that throws leaves the sheet "Table" of the document
    as it was.  When the players are refused the whole document is as
    before.  When [newGame] throws, the deck of the document is already the
    new deck of 24 cards, so the table that stays is played on with a deck
    that was not dealt for it: the cards of the new deck come on top of
    the cards already out and in the hands. *)
Theorem newTable_throws_over_the_deck (opts : options)
    (shufflePlayers : shuffle_players) (rnd : nat → Q) (answers : setup_answers)
    (d d' : document) (e : setup_error) :
  all_unit rnd →
  newTable opts shufflePlayers rnd answers d = (inl e, d') →
  docTable d' = docTable d
  ∧ (e = UnsupportedTable ∨ e = NoRowsToRender → d' = d)
  ∧ (∀ g, e = GameError g →
       length (docDeck d') = 24%nat
       ∧ Forall (λ c, MIN_CARD ≤ c ≤ MAX_CARD) (docDeck d')
       ∧ ∀ s, docTable d = Some s →
           ∃ s', currentTable d' = Some s'
                 ∧ length (cardsInPlay s')
                   = (24 + length (option_list (cardCell s))
                      + length (rowsCards (playerCardRows s)))%nat).
Proof.
  intros Hrnd. unfold newTable.
  destruct (getPlayersForNewTable (docTable d) answers) as [e0|chosen] eqn:Hchosen.
  { intros [= <- <-]. split_and!; try done.
    intros g ->. exfalso. revert Hchosen.
    unfold getPlayersForNewTable, getNewPlayersFromUser.
    destruct (getPlayersFromPreviousTable (docTable d));
      [destruct (samePlayers answers)|]; cbv zeta; try case_bool_decide; done. }
  cbv zeta.
  set (players := if shufflesPlayers shufflePlayers answers
                  then default "" <$> shuffle rnd (Some <$> chosen) else chosen).
  set (draws := if shufflesPlayers shufflePlayers answers
                then (length chosen - 1)%nat else 0%nat).
  case_bool_decide as Hnone.
  { intros [= <- <-]. split_and!; done. }
  destruct (newGame opts _ (startAnswer answers) players
              (renderNewTable (docDeck d) players)) as [[] s0|g s0] eqn:Hgame; [done|].
  intros [= <- <-]. simpl.
  assert (all_unit (λ k, rnd (draws + k)%nat)) as Hrnd' by (intros k; apply Hrnd).
  apply newGame_thrown_deck in Hgame.
  split_and!; try done.
  - by intros [|].
  - intros g' _. rewrite Hgame.
    pose proof (proj1 (newDeck_spec opts _ Hrnd')) as Hlen.
    assert (Forall (λ c, MIN_CARD ≤ c ≤ MAX_CARD)
              (newDeck opts (λ k, rnd (draws + k)%nat))) as Hrange.
    { apply Forall_forall. intros c. by apply newDeck_in_range. }
    split_and!; try done.
    intros s ->. eexists. split; [reflexivity|].
    unfold cardsInPlay. simpl. rewrite !length_app, Hlen. lia.
Qed.

Lemma newTable_throws_over_the_deck_witness :
  all_unit example_rnd
  ∧ fst (newTable example_pick_options ShuffleNo example_rnd
           {| samePlayers := true; askName := askName example_answers;
              randomizeOrder := false; startAnswer := Entered (Some 9) |}
           {| docTable := Some example_declined;
              docDeck := deckProperty example_declined |})
    = inl (GameError (InvalidStartPlayer (Some 8)))
  ∧ length (cardsInPlay example_declined) = 24%nat
  ∧ ∃ s', currentTable
            (snd (newTable example_pick_options ShuffleNo example_rnd
                    {| samePlayers := true; askName := askName example_answers;
                       randomizeOrder := false; startAnswer := Entered (Some 9) |}
                    {| docTable := Some example_declined;
                       docDeck := deckProperty example_declined |}))
          = Some s'
          ∧ length (cardsInPlay s') = 25%nat.
Proof.
  split; [exact example_rnd_unit|]. split; [vm_compute; reflexivity|].
  split; [vm_compute; reflexivity|].
  destruct (newTable_throws_over_the_deck example_pick_options ShuffleNo example_rnd
              {| samePlayers := true; askName := askName example_answers;
                 randomizeOrder := false; startAnswer := Entered (Some 9) |}
              {| docTable := Some example_declined;
                 docDeck := deckProperty example_declined |}
              (snd (newTable example_pick_options ShuffleNo example_rnd
                      {| samePlayers := true; askName := askName example_answers;
                         randomizeOrder := false; startAnswer := Entered (Some 9) |}
                      {| docTable := Some example_declined;
                         docDeck := deckProperty example_declined |}))
              (GameError (InvalidStartPlayer (Some 8))) example_rnd_unit)
    as (_ & _ & Hgame); [vm_compute; reflexivity|].
  destruct (Hgame _ eq_refl) as (_ & _ & Hplay).
  destruct (Hplay example_declined eq_refl) as (s' & Hs' & Hlen).
  exists s'. split; [exact Hs'|]. rewrite Hlen. vm_compute. reflexivity.
Defined.

(** ** The final score *)

Lemma filled_is_not_blank (c : card_cell) : cell_filled c → c ≠ CellBlank.
Proof. intros [v Hv] ->. done. Qed.

Lemma firstBlank_filled (row : list card_cell) :
  Forall cell_filled row → (length row < CARD_ROW_WIDTH)%nat →
  firstBlank row = Z.of_nat (length row).
Proof.
  intros Hfilled Hlen. unfold firstBlank. cbv zeta.
  assert (list_find (λ c, c = CellBlank)
            (take CARD_ROW_WIDTH (row ++ replicate CARD_ROW_WIDTH CellBlank))
          = Some (length row, CellBlank)) as ->; [|done].
  apply list_find_Some. split_and!.
  - rewrite lookup_take_lt by done. rewrite lookup_app_r by lia.
    by rewrite Nat.sub_diag.
  - done.
  - intros j y Hj Hlt. rewrite lookup_take_lt in Hj by lia.
    rewrite lookup_app_l in Hj by done. apply filled_is_not_blank.
    by eapply Forall_lookup_1 in Hfilled.
Qed.

Lemma firstBlank_full (row : list card_cell) :
  Forall cell_filled row → length row = CARD_ROW_WIDTH → firstBlank row = -1.
Proof.
  intros Hfilled Hlen. unfold firstBlank. cbv zeta.
  rewrite take_app_length' by done.
  assert (list_find (λ c, c = CellBlank) row = None) as ->; [|done].
  apply list_find_None. eapply Forall_impl; [exact Hfilled|].
  intros c. apply filled_is_not_blank.
Qed.

Lemma foldl_max_spec (v : Z) (rest : list Z) :
  Forall (λ x, x ≤ foldl Z.max v rest) (v :: rest)
  ∧ foldl Z.max v rest ∈ v :: rest.
Proof.
  revert v. induction rest as [|x rest IH]; intros v; simpl.
  - split; [repeat constructor; lia | by left].
  - destruct (IH (Z.max v x)) as [Hall Hin].
    apply Forall_cons in Hall as [Hmax Hall]. split.
    + repeat constructor; [lia | lia | done].
    + apply elem_of_cons in Hin as [Heq|Hin]; [|by do 2 right].
      rewrite Heq. destruct (Z.max_spec v x) as [[_ ->]|[_ ->]];
        [right; left | left].
Qed.

Lemma sumCells_cons (c : card_cell) (cells : list card_cell) :
  sumCells (c :: cells)
  = match c with CellNumber n => n | _ => 0 end + sumCells cells.
Proof. destruct c; reflexivity. Qed.

Lemma sumCells_app (c1 c2 : list card_cell) :
  sumCells (c1 ++ c2) = sumCells c1 + sumCells c2.
Proof.
  induction c1 as [|c c1 IH]; [done|].
  change ((c :: c1) ++ c2) with (c :: (c1 ++ c2)). rewrite !sumCells_cons, IH. lia.
Qed.

Lemma sumCells_texts (cards : list Z) : sumCells (CellText <$> cards) = 0.
Proof.
  induction cards as [|v cards IH]; [done|].
  change (CellText <$> v :: cards) with (CellText v :: (CellText <$> cards)).
  by rewrite sumCells_cons, IH.
Qed.

(** On a rendered hand the sum of the sheet counts the first card of every
    run and nothing else. *)
Lemma sumCells_runs (runs : list (list Z)) :
  Forall is_run runs →
  sumCells (concat (runCells <$> runs)) = foldr Z.add 0 (omap head runs).
Proof.
  induction 1 as [|run runs [Hne _] _ IH]; [done|].
  destruct run as [|first rest]; [done|].
  change (concat (runCells <$> (first :: rest) :: runs))
    with ((CellNumber first :: (CellText <$> rest)) ++ concat (runCells <$> runs)).
  change (omap head ((first :: rest) :: runs)) with (first :: omap head runs).
  rewrite sumCells_app, sumCells_cons, sumCells_texts, IH. simpl. lia.
Qed.

Lemma sumCells_rendered (cards : list Z) (tokens : Z) :
  Forall card_text_ok cards →
  sumCells (renderHand cards) - tokens = scoreOfHand cards tokens.
Proof.
  intros Hok. unfold scoreOfHand, runHeads, renderHand.
  destruct (groupConsecutiveRuns_exact cards (card_texts_exact _ Hok))
    as (Hruns & _ & _).
  by rewrite sumCells_runs.
Qed.

Lemma mapM_all_Some {A B} (f : A → option B) (g : A → B) (l : list A) :
  (∀ x, x ∈ l → f x = Some (g x)) → mapM f l = Some (g <$> l).
Proof.
  intros Hall. apply mapM_Some_2. induction l as [|x l IH]; [constructor|].
  constructor.
  - apply Hall. by left.
  - apply IH. intros y Hy. apply Hall. by right.
Qed.

Lemma cards_in_some_row (rows : list (list card_cell)) :
  rowsCards rows ≠ [] → ∃ i row, rows !! i = Some row ∧ row ≠ [].
Proof.
  induction rows as [|row rows IH]; [done|].
  destruct row as [|c row].
  - intros Hne. destruct (IH Hne) as (i & row' & Hrow' & Hne').
    by exists (S i), row'.
  - intros _. by exists 0%nat, (c :: row).
Qed.

Lemma reachable_count (opts : options) (players : list string) (deck0 : list Z)
    (s : table) :
  reachable opts players deck0 s → (3 ≤ length players ≤ 7)%nat.
Proof.
  induction 1 as [rnd answer oldDeck s Hrnd -> Hnew|]; [|done].
  by destruct (newGame_inv _ _ _ _ _ _ Hrnd Hnew).
Qed.

Lemma all_named (players : list string) :
  (3 ≤ length players)%nat → Forall (λ name, name ≠ "") players → some_name players.
Proof.
  intros Hlen Hall. destruct players as [|name players]; [simpl in Hlen; lia|].
  apply Forall_cons in Hall as [Hname _]. by left.
Qed.

Lemma filter_all_named (players : list string) :
  Forall (λ name, name ≠ "") players → filter (λ name, name ≠ "") players = players.
Proof.
  induction 1 as [|name names Hname _ IH]; [done|].
  by rewrite filter_cons_True, IH.
Qed.

Lemma cardRow_lookup (rows : list (list card_cell)) (i : nat) (row : list card_cell) :
  rows !! i = Some row → cardRow rows (Z.of_nat i) = row.
Proof.
  intros Hrow. unfold cardRow, js_index.
  destruct (Z.ltb_spec (Z.of_nat i) 0); [lia|]. by rewrite Nat2Z.id, Hrow.
Qed.

(** The rows [renderFinalScore] reads on a table of a game whose players
    all have a name: the rows of the players. *)
Lemma scoredRows_players (opts : options) (players : list string) (deck0 : list Z)
    (s : table) :
  Forall (λ name, name ≠ "") players →
  reachable opts players deck0 s →
  Z.to_nat (playerCount s) = length players
  ∧ (∀ i, (i < length players)%nat →
       ∃ row, playerCardRows s !! i = Some row ∧ Forall cell_filled row
              ∧ row = renderHand (handCards row))
  ∧ (∀ x, x ∈ firstBlank <$> scoredRows s ↔
       ∃ i row, (i < length players)%nat ∧ playerCardRows s !! i = Some row
                ∧ x = firstBlank row).
Proof.
  intros Hnames Hreach. pose proof (reachable_count _ _ _ _ Hreach) as Hn.
  pose proof (all_named players ltac:(lia) Hnames) as Hnamed.
  destruct (reachable_inv _ _ _ _ Hnamed Hreach) as (_ & _ & _ & _ & Hinv).
  pose proof (reachable_hands _ _ _ _ Hnamed Hreach) as [Hrendered _ _].
  assert (Z.to_nat (playerCount s) = length players) as Hcount.
  { unfold playerCount. rewrite (gi_names _ _ _ Hinv).
    rewrite names_on_the_sheet by lia. rewrite filter_all_named by done. lia. }
  assert (∀ i, (i < length players)%nat →
            ∃ row, playerCardRows s !! i = Some row ∧ Forall cell_filled row
                   ∧ row = renderHand (handCards row)) as Hrows.
  { intros i Hi.
    destruct (lookup_lt_is_Some_2 (playerCardRows s) i) as [row Hrow].
    { rewrite (gi_rows_length _ _ _ Hinv). unfold MAX_PLAYER_COUNT. lia. }
    exists row. split; [done|]. split.
    - eapply Forall_lookup_1; [apply (gi_rows _ _ _ Hinv) | done].
    - by eapply Forall_lookup_1 in Hrendered. }
  split; [done|]. split; [done|].
  intros x. unfold scoredRows. rewrite Hcount, <- list_fmap_compose.
  rewrite list_elem_of_fmap. split.
  - intros (i & -> & Hi). apply elem_of_seq in Hi.
    destruct (Hrows i ltac:(lia)) as (row & Hrow & _).
    exists i, row. split; [lia|]. split; [done|]. simpl.
    by rewrite (cardRow_lookup _ _ _ Hrow).
  - intros (i & row & Hi & Hrow & ->). exists i. split.
    + simpl. by rewrite (cardRow_lookup _ _ _ Hrow).
    + apply elem_of_seq. lia.
Qed.

(** X23. At the end of a game in which no player holds all 24 cards,
    [renderFinalScore] (lines 2901-2934) puts the score column to the right
    of the longest hand and gives every player the score of the rules: the
    first card of every run of the hand, added up, less the tokens held. *)
Theorem finalScores_by_the_rules (opts : options) (players : list string)
    (deck0 : list Z) (s : table) :
  Forall (λ name, name ≠ "") players →
  reachable opts players deck0 s →
  deckProperty s = [] → cardCell s = None →
  (∀ i row, playerCardRows s !! i = Some row → (length row < CARD_ROW_WIDTH)%nat) →
  ∃ scores max,
    maxCards s = Some max ∧ 1 ≤ max ≤ 23
    ∧ (∀ i row, playerCardRows s !! i = Some row → Z.of_nat (length row) ≤ max)
    ∧ finalScores s = Some scores
    ∧ length scores = length players
    ∧ ∀ i row z, (i < length players)%nat →
        playerCardRows s !! i = Some row →
        playerTokenCells s !! i = Some (Some z) →
        scores !! i = Some (scoreOfHand (handCards row) z).
Proof.
  intros Hnames Hreach Hd Hc Hroom.
  pose proof (reachable_count _ _ _ _ Hreach) as Hn.
  pose proof (all_named players ltac:(lia) Hnames) as Hnamed.
  destruct (reachable_inv _ _ _ _ Hnamed Hreach) as (_ & Hlen & _ & _ & Hinv).
  pose proof (reachable_hands _ _ _ _ Hnamed Hreach) as [_ _ Hunused].
  destruct (scoredRows_players _ _ _ _ Hnames Hreach) as (Hcount & Hrows & Hblanks).
  assert (∀ i row, playerCardRows s !! i = Some row →
            firstBlank row = Z.of_nat (length row)) as Hfirst.
  { intros i row Hrow. apply firstBlank_filled; [|by eapply Hroom].
    eapply Forall_lookup_1; [apply (gi_rows _ _ _ Hinv) | done]. }
  assert (∃ i row, (i < length players)%nat ∧ playerCardRows s !! i = Some row
                   ∧ row ≠ []) as (i0 & row0 & Hi0 & Hrow0 & Hne0).
  { destruct (cards_in_some_row (playerCardRows s)) as (i & row & Hrow & Hne).
    - pose proof (Permutation_length (gi_cards _ _ _ Hinv)) as Hcards.
      unfold cardsInPlay in Hcards. rewrite Hd, Hc, Hlen in Hcards. simpl in Hcards.
      intros Hnil. by rewrite Hnil in Hcards.
    - exists i, row. split; [|done].
      destruct (decide (i < length players)%nat) as [|Hge]; [done|].
      exfalso. apply Hne. eapply Hunused; [|done]. lia. }
  unfold finalScores, maxCards, maxOf.
  destruct (firstBlank <$> scoredRows s) as [|v rest] eqn:Hlist.
  { exfalso. assert (firstBlank row0 ∈ @nil Z) as Hin.
    { apply Hblanks. by exists i0, row0. }
    by apply elem_of_nil in Hin. }
  destruct (foldl_max_spec v rest) as [Hall Hin].
  set (max := foldl Z.max v rest) in *.
  rewrite Forall_forall in Hall.
  assert (∀ i row, (i < length players)%nat → playerCardRows s !! i = Some row →
            Z.of_nat (length row) ≤ max) as Hmax.
  { intros i row Hi Hrow. rewrite <- (Hfirst i row Hrow). apply Hall, Hblanks.
    by exists i, row. }
  assert (1 ≤ max ≤ 23) as Hbounds.
  { split.
    - pose proof (Hmax i0 row0 Hi0 Hrow0). destruct row0; [done|]. simpl in *. lia.
    - apply Hblanks in Hin as (i & row & Hi & Hrow & ->).
      rewrite (Hfirst i row Hrow). pose proof (Hroom i row Hrow).
      unfold CARD_ROW_WIDTH in *. lia. }
  exists ((λ i, sumCells (cardRow (playerCardRows s) (Z.of_nat i))
                - default 0 (js_get (playerTokenCells s) (Z.of_nat i)))
          <$> seq 0 (length players)), max.
  split; [done|]. split; [done|]. split.
  { intros i row Hrow. destruct (decide (i < length players)%nat) as [Hi|Hi].
    - by apply (Hmax i row).
    - rewrite (Hunused i row) by (lia || done). simpl. lia. }
  split.
  { simpl. rewrite Hcount. apply mapM_all_Some. intros i Hi.
    apply elem_of_seq in Hi. destruct (Hrows i ltac:(lia)) as (row & Hrow & _).
    rewrite (cardRow_lookup _ _ _ Hrow). unfold scoreOfRow.
    rewrite bool_decide_eq_true_2 by lia.
    rewrite take_ge; [done|]. pose proof (Hmax i row ltac:(lia) Hrow). lia. }
  split; [by rewrite length_fmap, length_seq|].
  intros i row z Hi Hrow Hz.
  rewrite list_lookup_fmap, lookup_seq_lt by done. simpl. f_equal.
  rewrite (cardRow_lookup _ _ _ Hrow).
  rewrite (js_get_in_range _ _ (Some z)) by (lia || by rewrite Nat2Z.id).
  destruct (Hrows i Hi) as (row' & Hrow' & _ & Hrendered).
  assert (row' = row) as -> by congruence.
  rewrite Hrendered at 1. apply sumCells_rendered.
  apply (reachable_hand_range _ _ _ _ _ _ Hnamed Hreach Hrow).
Qed.

Lemma finalScores_by_the_rules_witness :
  Forall (λ name, name ≠ "") example_players
  ∧ reachable OPTIONS example_players (newDeck OPTIONS example_rnd) example_finished
  ∧ finalScores example_finished = Some [-11; -11; 18; -9]
  ∧ ∃ scores max,
      maxCards example_finished = Some max ∧ 1 ≤ max ≤ 23
      ∧ finalScores example_finished = Some scores
      ∧ length scores = length example_players.
Proof.
  assert (Forall (λ name, name ≠ "") example_players) as Hnames
    by (by repeat constructor).
  split; [exact Hnames|]. split; [exact example_finished_reachable|].
  split; [vm_compute; reflexivity|].
  destruct (finalScores_by_the_rules OPTIONS example_players _ example_finished
              Hnames example_finished_reachable)
    as (scores & max & H1 & H2 & _ & H3 & H4 & _).
  - vm_compute. reflexivity.
  - vm_compute. reflexivity.
  - intros i row Hrow.
    assert (Forall (λ r, (length r < CARD_ROW_WIDTH)%nat)
              (playerCardRows example_finished)) as Hall.
    { vm_compute. repeat constructor. }
    by eapply Forall_lookup_1 in Hall.
  - exists scores, max.
    split; [exact H1|]. split; [exact H2|]. split; [exact H3 | exact H4].
Defined.

Lemma sum_list_lookup (l : list nat) (i : nat) (a : nat) :
  l !! i = Some a → (a ≤ sum_list l)%nat.
Proof.
  revert i. induction l as [|x l IH]; intros [|i] Hi; simpl in *; try done.
  - injection Hi as ->. lia.
  - specialize (IH i Hi). lia.
Qed.

Lemma sum_list_two (l : list nat) (i j : nat) (a b : nat) :
  i ≠ j → l !! i = Some a → l !! j = Some b → (a + b ≤ sum_list l)%nat.
Proof.
  revert i j. induction l as [|x l IH]; intros [|i] [|j] Hne Hi Hj;
    simpl in *; try done.
  - injection Hi as ->. pose proof (sum_list_lookup l j b Hj). lia.
  - injection Hj as ->. pose proof (sum_list_lookup l i a Hi). lia.
  - assert (i ≠ j) as Hne' by lia. specialize (IH i j Hne' Hi Hj). lia.
Qed.

Lemma rowsCards_length (rows : list (list card_cell)) :
  length (rowsCards rows) = sum_list ((λ row, length (handCards row)) <$> rows).
Proof.
  unfold rowsCards. induction rows as [|row rows IH]; [done|].
  change (concat (handCards <$> row :: rows))
    with (handCards row ++ concat (handCards <$> rows)).
  rewrite length_app, IH. done.
Qed.

(** X24. In a game in which every player has a name that is not blank:
    when one player holds all 24 cards, the row of that player has no blank
    cell and [indexOf("")] is -1 for it, while the rows of the other
    players are empty: [renderFinalScore] (lines 2901-2934) computes
    [maxCards = 0] and puts the score column on the first card column,
    on top of the first card of that player. *)
Theorem maxCards_with_a_full_row (opts : options) (players : list string)
    (deck0 : list Z) (s : table) (i : nat) (row : list card_cell) :
  Forall (λ name, name ≠ "") players →
  reachable opts players deck0 s →
  playerCardRows s !! i = Some row → length row = CARD_ROW_WIDTH →
  firstBlank row = -1
  ∧ (∀ j other, j ≠ i → playerCardRows s !! j = Some other → other = [])
  ∧ maxCards s = Some 0
  ∧ (∃ first, row !! 0%nat = Some first ∧ first ≠ CellBlank).
Proof.
  intros Hnames Hreach Hrow Hfull.
  pose proof (reachable_count _ _ _ _ Hreach) as Hn.
  pose proof (all_named players ltac:(lia) Hnames) as Hnamed.
  destruct (reachable_inv _ _ _ _ Hnamed Hreach) as (_ & Hlen & _ & _ & Hinv).
  pose proof (reachable_hands _ _ _ _ Hnamed Hreach) as [_ _ Hunused].
  destruct (scoredRows_players _ _ _ _ Hnames Hreach) as (Hcount & Hrows & Hblanks).
  assert (Forall cell_filled row) as Hfilled.
  { eapply Forall_lookup_1; [apply (gi_rows _ _ _ Hinv) | done]. }
  assert (i < length players)%nat as Hi.
  { destruct (decide (i < length players)%nat) as [|Hge]; [done|].
    rewrite (Hunused i row) in Hfull by (lia || done). done. }
  assert (∀ j other, j ≠ i → playerCardRows s !! j = Some other → other = [])
    as Hothers.
  { intros j other Hne Hother.
    assert (Forall cell_filled other) as Hfilled'.
    { eapply Forall_lookup_1; [apply (gi_rows _ _ _ Hinv) | done]. }
    pose proof (Permutation_length (gi_cards _ _ _ Hinv)) as Hcards.
    unfold cardsInPlay in Hcards. rewrite !length_app, rowsCards_length in Hcards.
    pose proof (sum_list_two ((λ r, length (handCards r)) <$> playerCardRows s)
                  i j (length (handCards row)) (length (handCards other))
                  ltac:(lia)) as Htwo.
    rewrite !list_lookup_fmap, Hrow, Hother in Htwo. specialize (Htwo eq_refl eq_refl).
    rewrite !filled_length in Htwo by done.
    unfold CARD_ROW_WIDTH in Hfull. destruct other; [done|]. simpl in *. lia. }
  pose proof (firstBlank_full row Hfilled Hfull) as Hminus.
  split; [done|]. split; [done|]. split.
  - unfold maxCards, maxOf.
    destruct (firstBlank <$> scoredRows s) as [|v rest] eqn:Hlist.
    { exfalso. assert (firstBlank row ∈ @nil Z) as Hin.
      { apply Hblanks. by exists i, row. }
      by apply elem_of_nil in Hin. }
    destruct (foldl_max_spec v rest) as [Hall Hin].
    set (max := foldl Z.max v rest) in *. rewrite Forall_forall in Hall.
    assert (0 ≤ max) as Hzero.
    { assert (∃ j, j ≠ i ∧ (j < length players)%nat) as (j & Hne & Hj).
      { destruct (decide (i = 0)%nat); [exists 1%nat | exists 0%nat]; lia. }
      destruct (Hrows j Hj) as (other & Hother & _).
      apply Hall, Hblanks. exists j, other. split; [done|]. split; [done|].
      by rewrite (Hothers j other Hne Hother). }
    apply Hblanks in Hin as (j & other & Hj & Hother & Hmax).
    destruct (decide (j = i)) as [->|Hne].
    + assert (other = row) as -> by congruence. lia.
    + rewrite (Hothers j other Hne Hother) in Hmax. f_equal. exact Hmax.
  - destruct row as [|first row]; [done|]. exists first. split; [done|].
    apply filled_is_not_blank. by apply Forall_cons in Hfilled as [? _].
Qed.

Lemma maxCards_with_a_full_row_witness :
  Forall (λ name, name ≠ "") example_players
  ∧ reachable OPTIONS example_players (newDeck OPTIONS example_rnd) (example_taken 24)
  ∧ length <$> playerCardRows (example_taken 24) !! 2%nat = Some CARD_ROW_WIDTH
  ∧ maxCards (example_taken 24) = Some 0.
Proof.
  assert (Forall (λ name, name ≠ "") example_players) as Hnames
    by (by repeat constructor).
  assert (∃ row, playerCardRows (example_taken 24) !! 2%nat = Some row
                 ∧ length row = CARD_ROW_WIDTH) as (row & Hrow & Hfull).
  { eexists. split; vm_compute; reflexivity. }
  destruct (maxCards_with_a_full_row OPTIONS example_players _ (example_taken 24) 2 row
              Hnames (example_taken_reachable 24) Hrow Hfull) as (_ & _ & Hmax & _).
  split; [exact Hnames|]. split; [exact (example_taken_reachable 24)|].
  split; [rewrite Hrow; simpl; by rewrite Hfull | exact Hmax].
Defined.

(** ** The ranks *)

Lemma insertRanked_Permutation (row : nat * Z) (ranked : list (nat * Z)) :
  insertRanked row ranked ≡ₚ row :: ranked.
Proof.
  induction ranked as [|next rest IH]; [done|].
  cbn [insertRanked]. case_bool_decide; [done|].
  rewrite IH. apply perm_swap.
Qed.

Lemma sortRanked_Permutation (rows : list (nat * Z)) : sortRanked rows ≡ₚ rows.
Proof.
  induction rows as [|row rows IH]; [done|].
  cbn [sortRanked foldr]. rewrite insertRanked_Permutation. by f_equiv.
Qed.

Lemma insertRanked_sorted (row : nat * Z) (ranked : list (nat * Z)) :
  StronglySorted before ranked →
  Forall (λ next, (row.1 < next.1)%nat) ranked →
  StronglySorted before (insertRanked row ranked).
Proof.
  induction 1 as [|next rest Hrest IH Hnext]; intros Hfirst.
  - repeat constructor.
  - apply Forall_cons in Hfirst as [Hfirst Hothers].
    cbn [insertRanked]. case_bool_decide as Hle.
    + constructor; [by constructor|]. constructor.
      * unfold before. lia.
      * rewrite Forall_forall in Hnext, Hothers. apply Forall_forall.
        intros z Hz. specialize (Hnext z Hz). specialize (Hothers z Hz).
        unfold before in *. lia.
    + constructor; [by apply IH|].
      rewrite insertRanked_Permutation. constructor; [|done].
      unfold before. lia.
Qed.

Lemma sortRanked_sorted (rows : list (nat * Z)) :
  StronglySorted (λ a b, (a.1 < b.1)%nat) rows →
  StronglySorted before (sortRanked rows).
Proof.
  induction 1 as [|row rows Hrows IH Hfirst]; [constructor|].
  cbn [sortRanked foldr]. apply insertRanked_sorted; [done|].
  fold (sortRanked rows). by rewrite sortRanked_Permutation.
Qed.

Lemma imap_pair_sorted (scores : list Z) (k : nat) :
  StronglySorted (λ a b : nat * Z, (a.1 < b.1)%nat) (imap (λ i, pair (k + i)%nat) scores)
  ∧ Forall (λ a : nat * Z, (k ≤ a.1)%nat) (imap (λ i, pair (k + i)%nat) scores).
Proof.
  revert k. induction scores as [|x scores IH]; intros k.
  - split; constructor.
  - rewrite imap_cons.
    rewrite (imap_ext _ (λ i, pair (S k + i)%nat)) by (intros; simpl; f_equal; lia).
    destruct (IH (S k)) as [Hsorted Hall]. split.
    + constructor; [done|]. eapply Forall_impl; [exact Hall|]. simpl. lia.
    + constructor; [simpl; lia|]. eapply Forall_impl; [exact Hall|]. simpl. lia.
Qed.

Lemma StronglySorted_lookup {A} (R : relation A) (l : list A) (a b : nat) (x y : A) :
  StronglySorted R l → l !! a = Some x → l !! b = Some y → (a < b)%nat → R x y.
Proof.
  intros Hsorted. revert a b.
  induction Hsorted as [|z l Hl IH Hall]; intros a b Ha Hb Hlt; [done|].
  destruct b as [|b]; [lia|]. destruct a as [|a].
  - injection Ha as ->. rewrite Forall_forall in Hall. apply Hall.
    by eapply list_elem_of_lookup_2.
  - apply (IH a b); [done | done | lia].
Qed.

(** The place of a row among the ranked rows. *)
Lemma rankOf_place (scores : list Z) (i : nat) (si : Z) :
  scores !! i = Some si →
  ∃ r, rankOf scores i = Some r
       ∧ sortRanked (imap pair scores) !! r = Some (i, si)
       ∧ (r < length scores)%nat.
Proof.
  intros Hi.
  assert ((i, si) ∈ sortRanked (imap pair scores)) as Hin.
  { rewrite sortRanked_Permutation. apply list_elem_of_lookup. exists i.
    by rewrite list_lookup_imap, Hi. }
  destruct (list_find_elem_of (λ row : nat * Z, row.1 = i) _ _ Hin eq_refl)
    as [[r row] Hfind].
  pose proof Hfind as Hfound.
  apply list_find_Some in Hfound as (Hr & Hrow & _).
  assert (row = (i, si)) as ->.
  { apply list_elem_of_lookup_2 in Hr. rewrite sortRanked_Permutation in Hr.
    apply list_elem_of_lookup in Hr as [k Hk].
    rewrite list_lookup_imap in Hk.
    destruct (scores !! k) as [sk|] eqn:Hsk; [|done]. simpl in Hk.
    injection Hk as <-. simpl in Hrow. subst k. congruence. }
  exists r. unfold rankOf. rewrite Hfind. split; [done|]. split; [done|].
  apply lookup_lt_Some in Hr.
  by rewrite (Permutation_length (sortRanked_Permutation _)), length_imap in Hr.
Qed.

Lemma ranks_in_order (scores : list Z) (i j ri rj : nat) (si sj : Z) :
  sortRanked (imap pair scores) !! ri = Some (i, si) →
  sortRanked (imap pair scores) !! rj = Some (j, sj) →
  before (i, si) (j, sj) → (ri < rj)%nat.
Proof.
  intros Hi Hj Hbefore.
  pose proof (sortRanked_sorted (imap pair scores)
                (proj1 (imap_pair_sorted scores 0))) as Hsorted.
  destruct (decide (ri < rj)%nat) as [|Hge]; [done|]. exfalso.
  destruct (decide (ri = rj)) as [->|Hne].
  - assert ((i, si) = (j, sj)) as [= -> ->] by congruence.
    unfold before in Hbefore. simpl in Hbefore. lia.
  - pose proof (StronglySorted_lookup before _ rj ri _ _ Hsorted Hj Hi ltac:(lia))
      as Hafter.
    unfold before in *. simpl in *. lia.
Qed.

(** X25. The ranks [renderFinalScore] (lines 2928-2933) gives: every player
    has a rank from 0 on, no two players share one, a lower score has the
    lower rank, and of two players with the same score the one in the
    higher row has the lower rank.  So the first rank, the trophy, always
    goes to one player, who has the lowest score.  The marker written for a
    player is the one [RANK_MARKERS] holds for the rank. *)
Theorem ranks_follow_the_scores (scores : list Z) (i j : nat) (si sj : Z) :
  scores !! i = Some si → scores !! j = Some sj →
  ∃ ri rj,
    rankOf scores i = Some ri ∧ rankOf scores j = Some rj
    ∧ (ri < length scores)%nat
    ∧ (ri = rj ↔ i = j)
    ∧ (si < sj → (ri < rj)%nat)
    ∧ (si = sj → (i < j)%nat → (ri < rj)%nat)
    ∧ (ri = 0%nat → si ≤ sj)
    ∧ rankMarkers scores !! i = Some (RANK_MARKERS !! ri).
Proof.
  intros Hi Hj.
  destruct (rankOf_place scores i si Hi) as (ri & Hri & Hpi & Hlt).
  destruct (rankOf_place scores j sj Hj) as (rj & Hrj & Hpj & _).
  exists ri, rj. split_and!; try done.
  - split.
    + intros ->. congruence.
    + intros ->. congruence.
  - intros Hless. apply (ranks_in_order scores i j ri rj si sj Hpi Hpj).
    by left.
  - intros Hsame Hrow. apply (ranks_in_order scores i j ri rj si sj Hpi Hpj).
    by right.
  - intros Hfirst. destruct (decide (si ≤ sj)) as [|Hgt]; [done|].
    assert (rj < ri)%nat; [|lia].
    apply (ranks_in_order scores j i rj ri sj si Hpj Hpi). left. simpl. lia.
  - unfold rankMarkers. rewrite list_lookup_fmap, lookup_seq_lt.
    + simpl. by rewrite Hri.
    + by apply lookup_lt_Some in Hi.
Qed.

Lemma ranks_follow_the_scores_witness :
  rankMarkers [5; 3; 3; 10] = [Some "🥉"; Some "🏆"; Some "🥈"; Some ""]
  ∧ ∃ ri rj,
      rankOf [5; 3; 3; 10] 1 = Some ri ∧ rankOf [5; 3; 3; 10] 2 = Some rj
      ∧ (ri < length [5; 3; 3; 10])%nat
      ∧ (ri < rj)%nat.
Proof.
  split; [vm_compute; reflexivity|].
  destruct (ranks_follow_the_scores [5; 3; 3; 10] 1 2 3 3 eq_refl eq_refl)
    as (ri & rj & H1 & H2 & H3 & _ & _ & H6 & _).
  exists ri, rj. split; [exact H1|]. split; [exact H2|]. split; [exact H3|].
  apply H6; [reflexivity | lia].
Defined.

(** ** The older wording of the deck *)

Lemma drop_seqZ (k : nat) (m n : Z) :
  Z.of_nat k ≤ n → drop k (seqZ m n) = seqZ (m + Z.of_nat k) (n - Z.of_nat k).
Proof.
  intros Hk. replace n with (Z.of_nat k + (n - Z.of_nat k)) at 1 by lia.
  rewrite seqZ_app by lia. rewrite drop_app_length'; [done|].
  rewrite length_seqZ. lia.
Qed.

(** X26. [range(max, min)] of the older revisions (lines 519-521), for a
    [max] with [max + 1] a length an array can have (0 to 2^32 - 1), lists
    the integers from [min] to [max]; for a negative [min] it lists the last
    [-min] of the integers from 0 to [max], which is all of them when there
    are no more.  So [newDeck] as worded at lines 155-165 builds, for the
    same random numbers, the deck the [newDeck] of lines 2431-2447 builds
    without [REMOVE_TENS]: 24 cards, all different, from [MIN_CARD] to
    [MAX_CARD]. *)
Theorem Rev1_newDeck_is_the_deck (rnd : nat → Q) (max min : Z) :
  all_unit rnd → 0 ≤ max + 1 < 2 ^ 32 →
  (0 ≤ min ≤ max + 1 → range max min = inr (xrange min (max + 1)))
  ∧ (min < 0 → range max min = inr (xrange (Z.max (max + 1 + min) 0) (max + 1)))
  ∧ range MAX_CARD MIN_CARD = inr (xrange MIN_CARD (MAX_CARD + 1))
  ∧ Rev1.newDeck rnd = newDeck OPTIONS rnd
  ∧ length (Rev1.newDeck rnd) = 24%nat
  ∧ NoDup (Rev1.newDeck rnd)
  ∧ Forall (λ c, MIN_CARD ≤ c ≤ MAX_CARD) (Rev1.newDeck rnd).
Proof.
  intros Hrnd Hmax.
  pose proof (Rev1_newDeck_same rnd) as Hsame.
  assert (∀ start, 0 ≤ start →
            drop (Z.to_nat start) (seqZ 0 (max + 1))
            = xrange (Z.min start (max + 1)) (max + 1)) as Hdrop.
  { intros start Hstart. unfold xrange.
    destruct (decide (start ≤ max + 1)) as [Hle|Hgt].
    - rewrite drop_seqZ by lia. rewrite Z2Nat.id by lia. f_equal; lia.
    - rewrite drop_ge by (rewrite length_seqZ; lia).
      replace (max + 1 - Z.min start (max + 1)) with 0 by lia. done. }
  split_and!.
  - intros Hmin. unfold range.
    rewrite bool_decide_eq_true_2, bool_decide_eq_false_2 by lia.
    rewrite Hdrop by lia. do 2 f_equal. lia.
  - intros Hmin. unfold range.
    rewrite !bool_decide_eq_true_2 by lia. rewrite length_seqZ.
    rewrite Hdrop by lia. do 2 f_equal. lia.
  - exact range_cards.
  - done.
  - rewrite Hsame. apply (newDeck_spec OPTIONS rnd Hrnd).
  - rewrite Hsame. by apply newDeck_NoDup.
  - rewrite Hsame. apply Forall_forall. intros c. by apply newDeck_in_range.
Qed.

Lemma Rev1_newDeck_is_the_deck_witness :
  all_unit example_rnd
  ∧ 0 ≤ 6 + 1 < 2 ^ 32
  ∧ range 6 2 = inr [2; 3; 4; 5; 6]
  ∧ range 6 (- 2) = inr [5; 6]
  ∧ range (- 2) 0 = inl (HostError "RangeError: Invalid array length")
  ∧ Rev1.newDeck example_rnd = newDeck OPTIONS example_rnd
  ∧ length (Rev1.newDeck example_rnd) = 24%nat.
Proof.
  destruct (Rev1_newDeck_is_the_deck example_rnd 6 2 example_rnd_unit)
    as (Hrange & _ & _ & Hsame & Hlen & _); [lia|].
  split; [exact example_rnd_unit|]. split; [lia|].
  split; [rewrite Hrange by lia; reflexivity|].
  split; [reflexivity|]. split; [reflexivity|].
  split; [exact Hsame | exact Hlen].
Defined.
